(** * EQlib: equation assembly and Newton driver

    A shallow embedding of [include/EQlib/System.h], [include/EQlib/Assemble.h]
    and [include/EQlib/Define.h].

    Conventions of the embedding.
    - [double] is read as an exact rational ([Q]); sums are therefore exact.
      The Euclidean norm lives in [R] ([norm]); the comparisons the code makes
      against a tolerance are computed by [norm_ltb], proved equivalent below.
    - [size_t] and the non-negative [int] indices and sizes are [nat];
      [maxiter] and the iteration counter, which may be negative, are [Z].
    - [Dof] values are handles onto shared variables: the variables live in a
      store ([DofStore]) that the driver updates and the elements read.
    - [py::dict options] is a record of optional, well-typed entries.
    - Calls into foreign code (element [compute], the linear solver, [stdout])
      are recorded in a trace of [Event]s. *)

From Stdlib Require Import String.
From Stdlib Require Import List Arith ZArith QArith Bool Lia.
From Stdlib Require Import Permutation Sorted Orders Mergesort.
From Stdlib Require Import Reals Lra Qreals.
Import ListNotations.

Set Implicit Arguments.

Open Scope nat_scope.

(* ================================================================== *)
(** * Loops and containers *)

(** [for (i = lo; i < hi; i++) body] over a state [S]; [continue] is a body
    that returns its state unchanged. *)
Definition for_range {S : Type} (lo hi : nat) (body : nat -> S -> S) (s : S) : S :=
  fold_left (fun acc i => body i acc) (seq lo (hi - lo)) s.

(** [for (const auto& x : xs) body]. *)
Definition for_each {A S : Type} (xs : list A) (body : A -> S -> S) (s : S) : S :=
  fold_left (fun acc x => body x acc) xs s.

(** In-place access [l[i]] used as an lvalue.  Every access of the program is
    guarded to be in range; out of range the model leaves [l] unchanged. *)
Fixpoint list_upd {A : Type} (l : list A) (i : nat) (f : A -> A) : list A :=
  match l, i with
  | [], _ => []
  | x :: l', O => f x :: l'
  | x :: l', S i' => x :: list_upd l' i' f
  end.

(** [std::set<int>]: strictly increasing list, iterated in ascending order. *)
Fixpoint set_insert (x : nat) (s : list nat) : list nat :=
  match s with
  | [] => [x]
  | y :: s' =>
      if x <? y then x :: s
      else if x =? y then s
      else y :: set_insert x s'
  end.

(* ================================================================== *)
(** * Define.h *)

Definition Vector := list Q.
Definition Matrix := list (list Q).

Definition vec_get (v : Vector) (i : nat) : Q := nth i v 0%Q.
Definition mat_get (m : Matrix) (r c : nat) : Q := nth c (nth r m []) 0%Q.

(** [Vector(n)]: Eigen leaves the coefficients uninitialised; [junk] is the
    content of the fresh memory. *)
Definition Vector_uninitialized (junk : nat -> Q) (n : nat) : Vector :=
  map junk (seq 0 n).

Definition setZero (v : Vector) : Vector := map (fun _ => 0%Q) v.

(** [a - b], coefficient-wise, for vectors of the size of [a]. *)
Definition vec_sub (a b : Vector) : Vector :=
  map (fun i => (vec_get a i - vec_get b i)%Q) (seq 0 (length a)).

(** [a += b], coefficient-wise. *)
Definition vec_add (a b : Vector) : Vector :=
  map (fun i => (vec_get a i + vec_get b i)%Q) (seq 0 (length a)).

(** [v *= k]. *)
Definition vec_scale (k : Q) (v : Vector) : Vector := map (fun c => (c * k)%Q) v.

Definition squaredNorm (v : Vector) : Q :=
  fold_left (fun acc c => (acc + c * c)%Q) v 0%Q.

(** [v.norm()], the Euclidean norm, as a real number. *)
Definition norm (v : Vector) : R := sqrt (Q2R (squaredNorm v)).

(** [v.norm() < tol], computed without leaving the rationals. *)
Definition norm_ltb (v : Vector) (tol : Q) : bool :=
  match (0 ?= tol)%Q with
  | Lt => match (squaredNorm v ?= tol * tol)%Q with Lt => true | _ => false end
  | _ => false
  end.

(** [Sparse = Eigen::SparseMatrix<double, ColMajor>]: one list per column,
    holding the (row, value) slots of that column by ascending row. *)
Record Sparse := {
  sp_rows : nat;
  sp_cols : nat;
  sp_outer : list (list (nat * Q))
}.

Definition Sparse_new (rows cols : nat) : Sparse :=
  {| sp_rows := rows; sp_cols := cols; sp_outer := repeat [] cols |}.

(** [m.insert(row, col)] on one column: a new slot holding 0, kept in row
    order (the slot must not exist yet). *)
Fixpoint col_insert (row : nat) (c : list (nat * Q)) : list (nat * Q) :=
  match c with
  | [] => [(row, 0%Q)]
  | (r, w) :: c' =>
      if row <? r then (row, 0%Q) :: c else (r, w) :: col_insert row c'
  end.

Definition Sparse_insert (row col : nat) (m : Sparse) : Sparse :=
  {| sp_rows := sp_rows m; sp_cols := sp_cols m;
     sp_outer := list_upd (sp_outer m) col (col_insert row) |}.

(** [m.coeffRef(row, col) += v] on one column: the slot is looked up and, if
    absent, inserted with value 0 first. *)
Fixpoint col_coeffRef_add (row : nat) (v : Q) (c : list (nat * Q)) : list (nat * Q) :=
  match c with
  | [] => [(row, (0 + v)%Q)]
  | (r, w) :: c' =>
      if row =? r then (r, (w + v)%Q) :: c'
      else if row <? r then (row, (0 + v)%Q) :: c
      else (r, w) :: col_coeffRef_add row v c'
  end.

Definition Sparse_coeffRef_add (row col : nat) (v : Q) (m : Sparse) : Sparse :=
  {| sp_rows := sp_rows m; sp_cols := sp_cols m;
     sp_outer := list_upd (sp_outer m) col (col_coeffRef_add row v) |}.

(** [for (i < outerSize) for (InnerIterator it(m, i); it; ++it) it.valueRef() = 0]. *)
Definition Sparse_setZero (m : Sparse) : Sparse :=
  {| sp_rows := sp_rows m; sp_cols := sp_cols m;
     sp_outer := map (map (fun slot : nat * Q => (fst slot, 0%Q))) (sp_outer m) |}.

(** [valuePtr()] over [nonZeros()] entries and the inner indices per column. *)
Definition valuePtr (m : Sparse) : Vector := concat (map (map snd) (sp_outer m)).
Definition structure (m : Sparse) : list (list nat) := map (map fst) (sp_outer m).
Definition nonZeros (m : Sparse) : nat := length (valuePtr m).

(** [(row, col)] is a structural nonzero of [m]. *)
Definition structural (m : Sparse) (row col : nat) : Prop :=
  In row (nth col (structure m) []).

(** The option bag.  [get_or_default] returns the entry when the key is
    present and the default otherwise. *)
Record Options := {
  opt_linear_solver : option string;
  opt_lambda : option Q;
  opt_maxiter : option Z;
  opt_rtol : option Q;
  opt_xtol : option Q;
  opt_iteration : option Z
}.

Definition get_or_default {T : Type} (entry : option T) (default_value : T) : T :=
  match entry with
  | None => default_value
  | Some v => v
  end.

Definition no_options : Options :=
  {| opt_linear_solver := None; opt_lambda := None; opt_maxiter := None;
     opt_rtol := None; opt_xtol := None; opt_iteration := None |}.

(** [options["iteration"] = iteration]. *)
Definition set_iteration (iteration : Z) (o : Options) : Options :=
  {| opt_linear_solver := opt_linear_solver o; opt_lambda := opt_lambda o;
     opt_maxiter := opt_maxiter o; opt_rtol := opt_rtol o; opt_xtol := opt_xtol o;
     opt_iteration := Some iteration |}.

(* ================================================================== *)
(** * Dof.h *)

(** Modelled from the spec: [Dof] ([Dof.h] is not among the sources).  A DoF
    is a hashable identity onto a shared variable carrying the current value
    ([delta]), the target, the fixed flag and the scratch residual. *)
Definition Dof := nat.

Record DofVariable := {
  var_delta : Q;
  var_target : Q;
  var_isfixed : bool;
  var_residual : Q
}.

Definition DofStore := Dof -> DofVariable.

Definition isfixed (st : DofStore) (d : Dof) : bool := var_isfixed (st d).
Definition target (st : DofStore) (d : Dof) : Q := var_target (st d).
Definition delta (st : DofStore) (d : Dof) : Q := var_delta (st d).
Definition residual (st : DofStore) (d : Dof) : Q := var_residual (st d).

Definition set_delta (d : Dof) (value : Q) (st : DofStore) : DofStore :=
  fun d' =>
    let v := st d' in
    if Nat.eqb d' d
    then {| var_delta := value; var_target := var_target v;
            var_isfixed := var_isfixed v; var_residual := var_residual v |}
    else v.

Definition set_residual (d : Dof) (value : Q) (st : DofStore) : DofStore :=
  fun d' =>
    let v := st d' in
    if Nat.eqb d' d
    then {| var_delta := var_delta v; var_target := var_target v;
            var_isfixed := var_isfixed v; var_residual := value |}
    else v.

(* ================================================================== *)
(** * Element.h *)

Module Element.

(** The element contract: [dofs()] and [compute(options)], the latter a
    function of the option bag and of the current DoF values. *)
Record t := {
  dofs : list Dof;
  compute : Options -> DofStore -> Matrix * Vector
}.

Definition null : t := {| dofs := []; compute := fun _ _ => ([], []) |}.

End Element.

(* ================================================================== *)
(** * Solver/ *)

Inductive SolverKind := SolverLDLT | SolverLSMR.

(** The linear solver behind [m_solver->solve(b, x)]: the matrix given to
    [set_matrix], the right-hand side and the previous content of [x];
    [None] when the solver raises. *)
Class LinearSolver := {
  solver_solve : SolverKind -> Sparse -> Vector -> Vector -> option Vector
}.

(** Calls that leave the core, in the order they happen. *)
Inductive Event :=
| ElementCompute (element : nat) (options : Options)
| AnalyzePattern
| SetMatrix
| Solve
| Stdout (text : string)
| StdoutIteration (iteration : Z).

Inductive Exception := SolverError | ConfigurationError.

(** How a call ends: it returns, it throws, or it runs into undefined
    behaviour (a null [m_solver] dereferenced). *)
Inductive Outcome (A : Type) :=
| Returned (a : A)
| Raised (e : Exception) (a : A)
| NullDereference (a : A)
| OutOfFuel.

Arguments Returned {A} a.
Arguments Raised {A} e a.
Arguments NullDereference {A} a.
Arguments OutOfFuel {A}.

(* ================================================================== *)
(** * System.h *)

Module System.

Record Index := { local : nat; global : nat }.

(** [Index::operator<] *)
Definition Index_ltb (a other : Index) : bool := global a <? global other.

(** A value-initialised [Index]. *)
Definition Index_zero : Index := {| local := 0; global := 0 |}.

(** [std::sort] with [operator<]: some permutation of its input in which no
    later entry is less than an earlier one.  The order among entries that
    compare equal is left to the implementation. *)
Class StdSort := {
  std_sort : list Index -> list Index;
  std_sort_permutation : forall l, Permutation l (std_sort l);
  std_sort_sorted :
    forall l, StronglySorted (fun a b => Index_ltb b a = false) (std_sort l)
}.

(** [std::unordered_map<Dof, int>] with [operator[]]: assignment replaces
    the entry of the key; reading a missing key gives the value-initialised
    0. *)
Definition map_assign (k : Dof) (v : nat) (m : list (Dof * nat)) : list (Dof * nat) :=
  (k, v) :: filter (fun kv => negb (fst kv =? k)) m.

Definition map_at (m : list (Dof * nat)) (k : Dof) : nat :=
  match find (fun kv => fst kv =? k) m with
  | Some kv => snd kv
  | None => 0
  end.

Record t := {
  m_dofs : list Dof;
  m_dof_indices : list (Dof * nat);
  m_nb_free_dofs : nat;
  m_nb_fixed_dofs : nat;
  m_elements : list Element.t;
  m_index_table : list (list Index);
  m_pattern : list (list nat);
  m_col_nonzeros : list nat;
  m_lhs : Sparse;
  m_rhs : Vector;
  m_x : Vector;
  m_target : Vector;
  m_residual : Vector;
  m_stopping_reason : Z;
  m_solver : option SolverKind
}.

Definition nb_dofs (s : t) : nat := length (m_dofs s).
Definition nb_free_dofs (s : t) : nat := m_nb_free_dofs s.
Definition nb_fixed_dofs (s : t) : nat := m_nb_fixed_dofs s.
Definition lhs (s : t) : Sparse := m_lhs s.
Definition rhs (s : t) : Vector := m_rhs s.

Definition stopping_reason_message (s : t) : string :=
  match m_stopping_reason s with
  | (-1)%Z => "Not solved"
  | 0%Z => "A solution was found, given rtol"
  | 1%Z => "A solution was found, given xtol"
  | 2%Z => "The iteration limit was reached"
  | _ => "Error. Unknown stopping reason"
  end.

(** Assignments to the members that change after construction. *)
Definition set_m_lhs_rhs (l : Sparse) (r : Vector) (s : t) : t :=
  {| m_dofs := m_dofs s; m_dof_indices := m_dof_indices s;
     m_nb_free_dofs := m_nb_free_dofs s; m_nb_fixed_dofs := m_nb_fixed_dofs s;
     m_elements := m_elements s; m_index_table := m_index_table s;
     m_pattern := m_pattern s; m_col_nonzeros := m_col_nonzeros s;
     m_lhs := l; m_rhs := r; m_x := m_x s; m_target := m_target s;
     m_residual := m_residual s; m_stopping_reason := m_stopping_reason s;
     m_solver := m_solver s |}.

Definition set_m_x (x : Vector) (s : t) : t :=
  {| m_dofs := m_dofs s; m_dof_indices := m_dof_indices s;
     m_nb_free_dofs := m_nb_free_dofs s; m_nb_fixed_dofs := m_nb_fixed_dofs s;
     m_elements := m_elements s; m_index_table := m_index_table s;
     m_pattern := m_pattern s; m_col_nonzeros := m_col_nonzeros s;
     m_lhs := m_lhs s; m_rhs := m_rhs s; m_x := x; m_target := m_target s;
     m_residual := m_residual s; m_stopping_reason := m_stopping_reason s;
     m_solver := m_solver s |}.

Definition set_m_target (v : Vector) (s : t) : t :=
  {| m_dofs := m_dofs s; m_dof_indices := m_dof_indices s;
     m_nb_free_dofs := m_nb_free_dofs s; m_nb_fixed_dofs := m_nb_fixed_dofs s;
     m_elements := m_elements s; m_index_table := m_index_table s;
     m_pattern := m_pattern s; m_col_nonzeros := m_col_nonzeros s;
     m_lhs := m_lhs s; m_rhs := m_rhs s; m_x := m_x s; m_target := v;
     m_residual := m_residual s; m_stopping_reason := m_stopping_reason s;
     m_solver := m_solver s |}.

Definition set_m_residual (v : Vector) (s : t) : t :=
  {| m_dofs := m_dofs s; m_dof_indices := m_dof_indices s;
     m_nb_free_dofs := m_nb_free_dofs s; m_nb_fixed_dofs := m_nb_fixed_dofs s;
     m_elements := m_elements s; m_index_table := m_index_table s;
     m_pattern := m_pattern s; m_col_nonzeros := m_col_nonzeros s;
     m_lhs := m_lhs s; m_rhs := m_rhs s; m_x := m_x s; m_target := m_target s;
     m_residual := v; m_stopping_reason := m_stopping_reason s;
     m_solver := m_solver s |}.

Definition set_m_stopping_reason (r : Z) (s : t) : t :=
  {| m_dofs := m_dofs s; m_dof_indices := m_dof_indices s;
     m_nb_free_dofs := m_nb_free_dofs s; m_nb_fixed_dofs := m_nb_fixed_dofs s;
     m_elements := m_elements s; m_index_table := m_index_table s;
     m_pattern := m_pattern s; m_col_nonzeros := m_col_nonzeros s;
     m_lhs := m_lhs s; m_rhs := m_rhs s; m_x := m_x s; m_target := m_target s;
     m_residual := m_residual s; m_stopping_reason := r;
     m_solver := m_solver s |}.

(** ** Constructor *)

(** What the constructor finds in members it does not initialise: the four
    dense vectors (numbered 0 to 3) and [m_stopping_reason]. *)
Record Uninitialized := {
  junk_vector : nat -> nat -> Q;
  junk_int : Z
}.

(** "create set of unique dofs": the state is
    [(dof_set, free_dofs, fixed_dofs)]. *)
Definition unique_dofs (store : DofStore) (element_dofs : list (list Dof))
  : list Dof * list Dof * list Dof :=
  for_range 0 (length element_dofs) (fun i acc =>
    for_each (nth i element_dofs []) (fun dof acc =>
      let dof_set := fst (fst acc) in
      let free_dofs := snd (fst acc) in
      let fixed_dofs := snd acc in
      if existsb (Nat.eqb dof) dof_set then acc
      else
        if isfixed store dof
        then (dof :: dof_set, free_dofs, fixed_dofs ++ [dof])
        else (dof :: dof_set, free_dofs ++ [dof], fixed_dofs))
      acc)
    ([], [], []).

(** "create a {dof -> index} map" *)
Definition index_dofs (dofs : list Dof) : list (Dof * nat) :=
  for_range 0 (length dofs) (fun i m => map_assign (nth i dofs 0) i m) [].

(** "create index table" *)
Definition index_table {sorter : StdSort} (dof_indices_map : list (Dof * nat))
    (element_dofs : list (list Dof)) : list (list Index) :=
  for_range 0 (length element_dofs) (fun i table =>
    let dofs := nth i element_dofs [] in
    let nb_dofs := length dofs in
    let dof_indices :=
      for_range 0 nb_dofs (fun local dof_indices =>
        let dof := nth local dofs 0 in
        let global := map_at dof_indices_map dof in
        list_upd dof_indices local
          (fun _ => {| local := local; global := global |}))
        (repeat Index_zero nb_dofs) in
    table ++ [std_sort dof_indices])
    [].

(** "analyze pattern", for one element's index table. *)
Definition analyze_element (nb_free : nat) (dof_indices : list Index)
    (pattern : list (list nat)) : list (list nat) :=
  let nb_dofs := length dof_indices in
  for_range 0 nb_dofs (fun row pattern =>
    let row_index := nth row dof_indices Index_zero in
    if nb_free <=? global row_index then pattern
    else
      for_range row nb_dofs (fun col pattern =>
        let col_index := nth col dof_indices Index_zero in
        if nb_free <=? global col_index then pattern
        else list_upd pattern (global col_index) (set_insert (global row_index)))
        pattern)
    pattern.

Definition analyze_pattern (nb_free : nat) (table : list (list Index))
  : list (list nat) :=
  for_each table (analyze_element nb_free) (repeat [] nb_free).

Definition col_nonzeros (nb_free : nat) (pattern : list (list nat)) : list nat :=
  for_range 0 (length pattern) (fun i v =>
    list_upd v i (fun _ => length (nth i pattern [])))
    (repeat 0 nb_free).

(** "setup system vectors and matrices": the skeleton of the left-hand
    side. *)
Definition setup_lhs (nb_free : nat) (pattern : list (list nat)) : Sparse :=
  let lhs := Sparse_new nb_free nb_free in
  if 0 <? nb_free then
    for_range 0 (length pattern) (fun col lhs =>
      for_each (nth col pattern []) (fun row lhs => Sparse_insert row col lhs) lhs)
      lhs
  else lhs.

(** "setup solver": the pointer and what went to [std::cout]. *)
Definition setup_solver (linear_solver : string) : option SolverKind * list Event :=
  if String.eqb linear_solver "ldlt" then (Some SolverLDLT, [])
  else if String.eqb linear_solver "lsmr" then (Some SolverLSMR, [])
  else (None, [Stdout "error"]).

(** The constructor's body up to and including "setup solver": the members
    it leaves and what it printed. *)
Definition construct {sorter : StdSort} (junk : Uninitialized) (store : DofStore)
    (elements : list Element.t) (options : Options) : t * list Event :=
  let linear_solver := get_or_default (opt_linear_solver options) "ldlt"%string in
  let nb_elements := length elements in
  let element_dofs :=
    for_range 0 nb_elements (fun i element_dofs =>
      list_upd element_dofs i (fun _ => Element.dofs (nth i elements Element.null)))
      (repeat [] nb_elements) in
  let uniq := unique_dofs store element_dofs in
  let free_dofs := snd (fst uniq) in
  let fixed_dofs := snd uniq in
  let nb_free := length free_dofs in
  let nb_fixed := length fixed_dofs in
  let dofs := ([] ++ free_dofs) ++ fixed_dofs in
  let dof_indices := index_dofs dofs in
  let table := index_table dof_indices element_dofs in
  let pattern := analyze_pattern nb_free table in
  let solver := setup_solver linear_solver in
  ({| m_dofs := dofs; m_dof_indices := dof_indices;
      m_nb_free_dofs := nb_free; m_nb_fixed_dofs := nb_fixed;
      m_elements := elements; m_index_table := table;
      m_pattern := pattern; m_col_nonzeros := col_nonzeros nb_free pattern;
      m_lhs := setup_lhs nb_free pattern;
      m_rhs := Vector_uninitialized (junk_vector junk 0) nb_free;
      m_x := Vector_uninitialized (junk_vector junk 1) nb_free;
      m_target := Vector_uninitialized (junk_vector junk 2) nb_free;
      m_residual := Vector_uninitialized (junk_vector junk 3) nb_free;
      m_stopping_reason := junk_int junk;
      m_solver := fst solver |},
   snd solver).

(** The constructor: [construct], then its last statement
    [m_solver->analyze_pattern(m_lhs)]. *)
Definition make {sorter : StdSort} (junk : Uninitialized) (store : DofStore)
    (elements : list Element.t) (options : Options)
  : Outcome (t * list Event) :=
  let built := construct junk store elements options in
  match m_solver (fst built) with
  | None => NullDereference built
  | Some _ => Returned (fst built, snd built ++ [AnalyzePattern])
  end.

(** [dof_index]: [m_dof_indices.at(dof)], which throws for a DoF that is
    not in the map. *)
Definition dof_index (s : t) (dof : Dof) : option nat :=
  match find (fun kv => fst kv =? dof) (m_dof_indices s) with
  | Some kv => Some (snd kv)
  | None => None
  end.

(** ** Assembly *)

(** The scatter of one element's contribution into [(lhs, rhs)]: the row
    and column loops that [compute], the last stage of [compute_parallel]
    and [Assemble::operator()] all contain. *)
Definition scatter (nb_free : nat) (dof_indices : list Index)
    (local_lhs : Matrix) (local_rhs : Vector) (acc : Sparse * Vector)
  : Sparse * Vector :=
  let nb_dofs := length dof_indices in
  for_range 0 nb_dofs (fun row acc =>
    let row_index := nth row dof_indices Index_zero in
    if nb_free <=? global row_index then acc
    else
      let acc :=
        (fst acc,
         list_upd (snd acc) (global row_index)
           (fun c => (c + vec_get local_rhs (local row_index))%Q)) in
      for_range row nb_dofs (fun col acc =>
        let col_index := nth col dof_indices Index_zero in
        if nb_free <=? global col_index then acc
        else
          (Sparse_coeffRef_add (global row_index) (global col_index)
             (mat_get local_lhs (local row_index) (local col_index)) (fst acc),
           snd acc))
        acc)
    acc.

(** One element: call its [compute] and scatter the result. *)
Definition assemble_element (options : Options) (store : DofStore) (s : t)
    (i : nat) (acc : Sparse * Vector) : Sparse * Vector :=
  let element := nth i (m_elements s) Element.null in
  let local := Element.compute element options store in
  let dof_indices := nth i (m_index_table s) [] in
  scatter (nb_free_dofs s) dof_indices (fst local) (snd local) acc.

Definition compute (options : Options) (store : DofStore) (s : t) : t * list Event :=
  let lhs := Sparse_setZero (m_lhs s) in
  let rhs := setZero (m_rhs s) in
  let acc :=
    for_range 0 (length (m_elements s)) (fun i acc =>
      (assemble_element options store s i (fst acc),
       snd acc ++ [ElementCompute i options]))
      ((lhs, rhs), []) in
  (set_m_lhs_rhs (fst (fst acc)) (snd (fst acc)) s, snd acc).

(** [compute_parallel]: the first filter hands out the indices
    [0 .. size-1]; the last one ([serial_out_of_order]) scatters one result
    at a time in the order [order] in which they arrive. *)
Definition compute_parallel (order : list nat) (options : Options)
    (store : DofStore) (s : t) : t * list Event :=
  let acc :=
    for_each order (fun i acc =>
      (assemble_element options store s i (fst acc),
       snd acc ++ [ElementCompute i options]))
      ((m_lhs s, m_rhs s), []) in
  (set_m_lhs_rhs (fst (fst acc)) (snd (fst acc)) s, snd acc).

(** ** Newton driver *)

(** The system, the variables behind its DoFs, and the calls made so far. *)
Record Machine := {
  system : t;
  dofstore : DofStore;
  trace : list Event
}.

Inductive Step :=
| Continue (m : Machine)
| Break (m : Machine)
| Throw (m : Machine)
| NullSolver (m : Machine).

(** "setup": [m_target[i] = m_dofs[i].target()], then the scaling. *)
Definition setup_target (lambda : Q) (store : DofStore) (s : t) : Vector :=
  let target :=
    for_range 0 (nb_free_dofs s) (fun i tgt =>
      list_upd tgt i (fun _ => target store (nth i (m_dofs s) 0)))
      (m_target s) in
  if negb (Qeq_bool lambda 1) then vec_scale lambda target else target.

(** "update system" *)
Definition update_dofs (s : t) (store : DofStore) : DofStore :=
  for_range 0 (nb_free_dofs s) (fun i store =>
    let dof := nth i (m_dofs s) 0 in
    set_delta dof (delta store dof - vec_get (m_x s) i)%Q store)
    store.

(** The loop after the iteration: [m_dofs[i].set_residual(m_residual(i))]. *)
Definition store_residuals (s : t) (store : DofStore) : DofStore :=
  for_range 0 (nb_free_dofs s) (fun i store =>
    set_residual (nth i (m_dofs s) 0) (vec_get (m_residual s) i) store)
    store.

(** The body of [for (int iteration = 0; ; iteration++)]. *)
Definition iteration_body {solver : LinearSolver} (maxiter : Z) (rtol xtol : Q)
    (options : Options) (iteration : Z) (m : Machine) : Step :=
  if (iteration >=? maxiter)%Z then
    Break {| system := set_m_stopping_reason 2 (system m);
             dofstore := dofstore m; trace := trace m |}
  else
    let options := set_iteration iteration options in
    let assembled := compute options (dofstore m) (system m) in
    let s := fst assembled in
    let s := set_m_residual (vec_sub (rhs s) (m_target s)) s in
    let tr := trace m ++ snd assembled ++ [StdoutIteration iteration] in
    if norm_ltb (m_residual s) rtol then
      Break {| system := set_m_stopping_reason 0 s;
               dofstore := dofstore m; trace := tr |}
    else
      match m_solver s with
      | None => NullSolver {| system := s; dofstore := dofstore m; trace := tr |}
      | Some kind =>
          let tr := tr ++ [SetMatrix; Solve] in
          match solver_solve kind (m_lhs s) (m_residual s) (m_x s) with
          | None => Throw {| system := s; dofstore := dofstore m; trace := tr |}
          | Some x =>
              let s := set_m_x x s in
              let store := update_dofs s (dofstore m) in
              if norm_ltb (m_x s) xtol then
                Break {| system := set_m_stopping_reason 1 s;
                         dofstore := store; trace := tr |}
              else
                Continue {| system := s; dofstore := store; trace := tr |}
          end
      end.

Fixpoint newton_loop {solver : LinearSolver} (fuel : nat) (maxiter : Z) (rtol xtol : Q)
    (options : Options) (iteration : Z) (m : Machine) : Outcome Machine :=
  match fuel with
  | O => OutOfFuel
  | S fuel' =>
      match iteration_body maxiter rtol xtol options iteration m with
      | Break m' => Returned m'
      | Throw m' => Raised SolverError m'
      | NullSolver m' => NullDereference m'
      | Continue m' =>
          newton_loop fuel' maxiter rtol xtol options (iteration + 1)%Z m'
      end
  end.

Definition solve {solver : LinearSolver} (options : Options) (m : Machine)
  : Outcome Machine :=
  let lambda := get_or_default (opt_lambda options) 1%Q in
  let maxiter := get_or_default (opt_maxiter options) 100%Z in
  let rtol := get_or_default (opt_rtol options) (1 # 10000000)%Q in
  let xtol := get_or_default (opt_xtol options) (1 # 10000000)%Q in
  let s := set_m_target (setup_target lambda (dofstore m) (system m)) (system m) in
  let m := {| system := s; dofstore := dofstore m; trace := trace m |} in
  match newton_loop (S (Z.to_nat maxiter)) maxiter rtol xtol options 0%Z m with
  | Returned m' =>
      Returned {| system := system m';
                  dofstore := store_residuals (system m') (dofstore m');
                  trace := trace m' |}
  | other => other
  end.

End System.

(* ================================================================== *)
(** * Assemble.h *)

Module Assemble.

(** An accumulator: a view of a left-hand side (the structure of the
    system's matrix with a value array of its own) and of a right-hand
    side.  The thread-local value arrays are taken to belong to one
    accumulator at a time. *)
Record t := {
  m_lhs : Sparse;
  m_rhs : Vector
}.

(** [Assemble(Sparse& lhs, Vector& rhs)]: the views are onto the caller's
    arrays, which are set to zero. *)
Definition make (lhs : Sparse) (rhs : Vector) : t :=
  {| m_lhs := Sparse_setZero lhs; m_rhs := setZero rhs |}.

(** [Assemble(Assemble& s, tbb::split)]: [create_lhs] and [create_rhs] give
    zeroed arrays of the sizes of those of [s], under the structure of
    [s.m_lhs]. *)
Definition split (s : t) : t :=
  {| m_lhs := Sparse_setZero (m_lhs s); m_rhs := setZero (m_rhs s) |}.

(** [operator()], over a range of (element, dof_indices) pairs. *)
Definition apply (options : Options) (store : DofStore)
    (range : list (Element.t * list System.Index)) (a : t) : t :=
  for_each range (fun it a =>
    let local := Element.compute (fst it) options store in
    let acc :=
      System.scatter (length (m_rhs a)) (snd it) (fst local) (snd local)
        (m_lhs a, m_rhs a) in
    {| m_lhs := fst acc; m_rhs := snd acc |})
    a.

(** The value array of [m] replaced by [values], column by column. *)
Fixpoint with_values (outer : list (list (nat * Q))) (values : Vector)
  : list (list (nat * Q)) :=
  match outer with
  | [] => []
  | c :: outer' =>
      map (fun iv => (fst (fst iv), snd iv)) (combine c (firstn (length c) values))
      :: with_values outer' (skipn (length c) values)
  end.

(** [join]: both value arrays and both right-hand sides are added
    coefficient by coefficient. *)
Definition join (a rhs : t) : t :=
  {| m_lhs :=
       {| sp_rows := sp_rows (m_lhs a); sp_cols := sp_cols (m_lhs a);
          sp_outer :=
            with_values (sp_outer (m_lhs a))
              (vec_add (valuePtr (m_lhs a)) (valuePtr (m_lhs rhs))) |};
     m_rhs := vec_add (m_rhs a) (m_rhs rhs) |}.

(** How [tbb::parallel_reduce] went over a range: it ran the body on the
    whole of it, or cut it in two and either used the same body on both
    halves in turn or gave the right half to a split-off body and joined. *)
Inductive Reduction :=
| Run
| Sequence (cut : nat) (lo hi : Reduction)
| Fork (cut : nat) (lo hi : Reduction).

Fixpoint reduce (options : Options) (store : DofStore) (r : Reduction)
    (range : list (Element.t * list System.Index)) (body : t) : t :=
  match r with
  | Run => apply options store range body
  | Sequence cut lo hi =>
      let body := reduce options store lo (firstn cut range) body in
      reduce options store hi (skipn cut range) body
  | Fork cut lo hi =>
      let other := split body in
      let body := reduce options store lo (firstn cut range) body in
      let other := reduce options store hi (skipn cut range) other in
      join body other
  end.

(** [Assemble::parallel]; the result is what the caller's [lhs] and [rhs]
    hold afterwards. *)
Definition parallel (options : Options) (store : DofStore) (r : Reduction)
    (elements : list Element.t) (indices : list (list System.Index))
    (lhs : Sparse) (rhs : Vector) : Sparse * Vector :=
  let result := make lhs rhs in
  let result := reduce options store r (combine elements indices) result in
  (m_lhs result, m_rhs result).

End Assemble.
(* ================================================================== *)
(** * Properties of the loops and containers *)

Section Loops.

Context {S : Type}.

Lemma for_range_empty (lo hi : nat) (body : nat -> S -> S) (s : S) :
  hi <= lo -> for_range lo hi body s = s.
Proof.
  intros H. unfold for_range. replace (hi - lo) with 0 by lia. reflexivity.
Qed.

Lemma for_range_last (lo hi : nat) (body : nat -> S -> S) (s : S) :
  lo <= hi ->
  for_range lo (Datatypes.S hi) body s = body hi (for_range lo hi body s).
Proof.
  intros H. unfold for_range.
  replace (Datatypes.S hi - lo) with (Datatypes.S (hi - lo)) by lia.
  rewrite seq_S, fold_left_app. simpl.
  replace (lo + (hi - lo)) with hi by lia. reflexivity.
Qed.

(** Loop invariants: [P i s] holds of the state before iteration [i]. *)
Lemma for_range_inv (P : nat -> S -> Prop) (lo hi : nat)
    (body : nat -> S -> S) (s : S) :
  lo <= hi ->
  P lo s ->
  (forall i acc, lo <= i < hi -> P i acc -> P (Datatypes.S i) (body i acc)) ->
  P hi (for_range lo hi body s).
Proof.
  intros Hle H0 Hstep. induction hi as [|hi IH].
  - assert (lo = 0) by lia. subst. rewrite for_range_empty by lia. exact H0.
  - destruct (Nat.eq_dec lo (Datatypes.S hi)) as [->|Hne].
    + rewrite for_range_empty by lia. exact H0.
    + rewrite for_range_last by lia. apply Hstep; [lia|].
      apply IH; [lia|]. intros i acc Hi. apply Hstep. lia.
Qed.

Lemma for_range_ext (lo hi : nat) (f g : nat -> S -> S) (s : S) :
  (forall i acc, lo <= i < hi -> f i acc = g i acc) ->
  for_range lo hi f s = for_range lo hi g s.
Proof.
  intros H. destruct (Nat.le_gt_cases lo hi) as [Hle|Hgt].
  - induction hi as [|hi IH].
    + rewrite !for_range_empty by lia. reflexivity.
    + destruct (Nat.eq_dec lo (Datatypes.S hi)) as [->|Hne].
      * rewrite !for_range_empty by lia. reflexivity.
      * rewrite !for_range_last by lia. rewrite IH; [|intros; apply H; lia|lia].
        apply H. lia.
  - rewrite !for_range_empty by lia. reflexivity.
Qed.

(** An indexed loop over a vector is the loop over its entries. *)
Lemma for_range_nth {A : Type} (l : list A) (d : A) (f : A -> S -> S) (s : S) :
  for_range 0 (length l) (fun i acc => f (nth i l d) acc) s = for_each l f s.
Proof.
  induction l as [|x l IH] using rev_ind.
  - reflexivity.
  - rewrite length_app. simpl length. rewrite Nat.add_1_r.
    rewrite for_range_last by lia. unfold for_each. rewrite fold_left_app. simpl.
    rewrite app_nth2, Nat.sub_diag by lia. simpl. f_equal.
    unfold for_each in IH. rewrite <- IH. apply for_range_ext.
    intros i acc Hi. rewrite app_nth1 by lia. reflexivity.
Qed.

Lemma for_each_inv {A : Type} (P : S -> Prop) (xs : list A)
    (body : A -> S -> S) (s : S) :
  P s -> (forall x acc, In x xs -> P acc -> P (body x acc)) ->
  P (for_each xs body s).
Proof.
  unfold for_each. revert s. induction xs as [|x xs IH]; intros s H0 Hstep.
  - exact H0.
  - simpl. apply IH.
    + apply Hstep; [left; reflexivity | exact H0].
    + intros y acc Hy. apply Hstep. right. exact Hy.
Qed.

Lemma for_each_app {A : Type} (xs ys : list A) (body : A -> S -> S) (s : S) :
  for_each (xs ++ ys) body s = for_each ys body (for_each xs body s).
Proof. unfold for_each. apply fold_left_app. Qed.

End Loops.

Section ListUpd.

Context {A : Type}.

Lemma list_upd_length (l : list A) (i : nat) (f : A -> A) :
  length (list_upd l i f) = length l.
Proof.
  revert i. induction l as [|x l IH]; intros [|i]; simpl; auto.
Qed.

Lemma list_upd_nth (l : list A) (i j : nat) (f : A -> A) (d : A) :
  i < length l ->
  nth j (list_upd l i f) d = if j =? i then f (nth i l d) else nth j l d.
Proof.
  revert i j. induction l as [|x l IH]; intros i j Hi; simpl in Hi; [lia|].
  destruct i as [|i], j as [|j]; simpl; auto.
  apply IH. lia.
Qed.

Lemma list_upd_out (l : list A) (i : nat) (f : A -> A) :
  length l <= i -> list_upd l i f = l.
Proof.
  revert i. induction l as [|x l IH]; intros [|i] Hi; simpl in *; auto; try lia.
  f_equal. apply IH. lia.
Qed.

Lemma list_upd_nth_other (l : list A) (i j : nat) (f : A -> A) (d : A) :
  j <> i -> nth j (list_upd l i f) d = nth j l d.
Proof.
  intros Hne. destruct (Nat.lt_ge_cases i (length l)) as [Hi|Hi].
  - rewrite list_upd_nth by exact Hi.
    destruct (Nat.eqb_spec j i); [contradiction | reflexivity].
  - rewrite list_upd_out by exact Hi. reflexivity.
Qed.

End ListUpd.

(** [std::set<int>] *)

Lemma set_insert_In (x y : nat) (s : list nat) :
  In y (set_insert x s) <-> y = x \/ In y s.
Proof.
  induction s as [|z s IH]; simpl.
  - intuition.
  - destruct (Nat.ltb_spec x z).
    + simpl. intuition.
    + destruct (Nat.eqb_spec x z).
      * subst. simpl. intuition.
      * simpl. rewrite IH. intuition.
Qed.

Lemma set_insert_sorted (x : nat) (s : list nat) :
  StronglySorted lt s -> StronglySorted lt (set_insert x s).
Proof.
  induction 1 as [|z s Hs IH Hz]; simpl.
  - repeat constructor.
  - destruct (Nat.ltb_spec x z).
    + constructor; [constructor; assumption|].
      constructor; [assumption|].
      eapply Forall_impl; [|exact Hz]. simpl. intros; lia.
    + destruct (Nat.eqb_spec x z).
      * constructor; assumption.
      * constructor; [exact IH|].
        apply Forall_forall. intros y Hy. apply set_insert_In in Hy.
        destruct Hy as [->|Hy]; [lia|].
        rewrite Forall_forall in Hz. auto.
Qed.

Section ListFill.

Context {A : Type}.

Lemma list_upd_nth_error (l : list A) (i j : nat) (f : A -> A) :
  nth_error (list_upd l i f) j =
  if j =? i then option_map f (nth_error l i) else nth_error l j.
Proof.
  revert i j. induction l as [|x l IH]; intros i j.
  - simpl. destruct (j =? i); destruct i, j; reflexivity.
  - destruct i as [|i], j as [|j]; simpl; auto.
Qed.

(** A loop that assigns [v[i] = h i] for every index of [v]. *)
Lemma for_range_fill (n : nat) (h : nat -> A) (v0 : list A) :
  length v0 = n ->
  for_range 0 n (fun i v => list_upd v i (fun _ => h i)) v0 = map h (seq 0 n).
Proof.
  intros Hlen.
  pose (P := fun (i : nat) (v : list A) =>
    length v = n /\
    forall j, j < i -> nth_error v j = Some (h j)).
  assert (HP : P n (for_range 0 n (fun i v => list_upd v i (fun _ => h i)) v0)).
  { apply for_range_inv with (P := P); [lia| |].
    - split; [exact Hlen | intros; lia].
    - intros i acc Hi [Hl Hn]. split.
      + rewrite list_upd_length. exact Hl.
      + intros j Hj. rewrite list_upd_nth_error.
        destruct (Nat.eqb_spec j i) as [->|Hne].
        * destruct (nth_error acc i) eqn:E; [reflexivity|].
          apply nth_error_None in E. lia.
        * apply Hn. lia. }
  destruct HP as [Hl Hn]. apply nth_error_ext. intros j.
  destruct (Nat.lt_ge_cases j n) as [Hj|Hj].
  - rewrite Hn by exact Hj. rewrite nth_error_map, nth_error_seq.
    destruct (Nat.ltb_spec j n); [reflexivity | lia].
  - rewrite (proj2 (nth_error_None _ _)) by lia.
    symmetry. apply nth_error_None. rewrite length_map, length_seq. exact Hj.
Qed.

Lemma map_nth_seq {B : Type} (g : A -> B) (l : list A) (d : A) :
  map (fun i => g (nth i l d)) (seq 0 (length l)) = map g l.
Proof.
  apply nth_error_ext. intros j.
  rewrite !nth_error_map, nth_error_seq.
  destruct (Nat.ltb_spec j (length l)) as [Hj|Hj]; simpl.
  - rewrite (nth_error_nth' l d Hj). reflexivity.
  - rewrite (proj2 (nth_error_None _ _)) by exact Hj. reflexivity.
Qed.

End ListFill.

(* ================================================================== *)
(** * A sorting routine and a solver to run the model with *)

Module IndexOrder <: TotalLeBool.
Definition t := System.Index.
Definition leb (a b : t) : bool := System.global a <=? System.global b.
Theorem leb_total : forall a b, leb a b = true \/ leb b a = true.
Proof.
  intros a b. unfold leb.
  destruct (Nat.leb_spec (System.global a) (System.global b)).
  - left. reflexivity.
  - right. apply Nat.leb_le. lia.
Qed.
End IndexOrder.

Module IndexSort := Sort IndexOrder.

Lemma merge_sort_sorted (l : list System.Index) :
  StronglySorted (fun a b => System.Index_ltb b a = false) (IndexSort.sort l).
Proof.
  assert (T : Transitive (fun a b => is_true (IndexOrder.leb a b))).
  { intros a b c. unfold IndexOrder.leb, is_true. rewrite !Nat.leb_le. lia. }
  pose proof (IndexSort.StronglySorted_sort l T) as HS.
  induction HS as [|a l' Hl IH Ha]; constructor; auto.
  eapply Forall_impl; [|exact Ha]. intros b Hb. unfold System.Index_ltb.
  unfold IndexOrder.leb, is_true in Hb. apply Nat.leb_le in Hb.
  apply Nat.ltb_ge. exact Hb.
Qed.

(** Merge sort is one admissible [std::sort]. *)
#[export] Instance merge_sort : System.StdSort := {|
  System.std_sort := IndexSort.sort;
  System.std_sort_permutation := IndexSort.Permuted_sort;
  System.std_sort_sorted := merge_sort_sorted
|}.

(** A solver that is exact on diagonal matrices: [x(i) = b(i) / m(i, i)]. *)
Definition diagonal_solve (m : Sparse) (b : Vector) : Vector :=
  map (fun i =>
         (vec_get b i /
          match find (fun slot => fst slot =? i) (nth i (sp_outer m) []) with
          | Some slot => snd slot
          | None => 0
          end)%Q)
      (seq 0 (length b)).

Definition diagonal_solver : LinearSolver :=
  {| solver_solve := fun _ m b _ => Some (diagonal_solve m b) |}.

(* ================================================================== *)
(** * Constructor: the DoF vector *)

(** The body of the "create set of unique dofs" loop. *)
Definition visit_dof (store : DofStore) (dof : Dof)
    (acc : list Dof * list Dof * list Dof) : list Dof * list Dof * list Dof :=
  let dof_set := fst (fst acc) in
  let free_dofs := snd (fst acc) in
  let fixed_dofs := snd acc in
  if existsb (Nat.eqb dof) dof_set then acc
  else
    if isfixed store dof
    then (dof :: dof_set, free_dofs, fixed_dofs ++ [dof])
    else (dof :: dof_set, free_dofs ++ [dof], fixed_dofs).

Lemma for_each_concat {A S : Type} (ls : list (list A)) (body : A -> S -> S) (s : S) :
  for_each ls (fun l acc => for_each l body acc) s = for_each (concat ls) body s.
Proof.
  revert s. induction ls as [|l ls IH]; intros s; simpl.
  - reflexivity.
  - rewrite for_each_app. unfold for_each at 1. simpl. apply IH.
Qed.

Lemma unique_dofs_unfold (store : DofStore) (element_dofs : list (list Dof)) :
  System.unique_dofs store element_dofs =
  for_each (concat element_dofs) (visit_dof store) ([], [], []).
Proof.
  unfold System.unique_dofs.
  rewrite (for_range_nth element_dofs []
            (fun dofs acc => for_each dofs (visit_dof store) acc)).
  apply for_each_concat.
Qed.

(** What the loop keeps true of [(dof_set, free_dofs, fixed_dofs)]. *)
Record unique_inv (store : DofStore) (acc : list Dof * list Dof * list Dof) : Prop := {
  ui_set : forall d, In d (fst (fst acc)) <-> In d (snd (fst acc)) \/ In d (snd acc);
  ui_nodup : NoDup (snd (fst acc) ++ snd acc);
  ui_free : Forall (fun d => isfixed store d = false) (snd (fst acc));
  ui_fixed : Forall (fun d => isfixed store d = true) (snd acc)
}.

Lemma existsb_eqb_In (d : Dof) (l : list Dof) :
  existsb (Nat.eqb d) l = true <-> In d l.
Proof.
  rewrite existsb_exists. split.
  - intros [x [Hx E]]. apply Nat.eqb_eq in E. subst. exact Hx.
  - intros H. exists d. split; [exact H | apply Nat.eqb_refl].
Qed.

Lemma visit_dof_inv (store : DofStore) (dof : Dof) acc :
  unique_inv store acc ->
  unique_inv store (visit_dof store dof acc) /\
  (forall d, In d (fst (fst (visit_dof store dof acc))) <->
             d = dof \/ In d (fst (fst acc))).
Proof.
  destruct acc as [[set free] fixed]. intros [Hset Hnd Hfree Hfixed]. simpl in *.
  unfold visit_dof. simpl.
  destruct (existsb (Nat.eqb dof) set) eqn:E.
  - apply existsb_eqb_In in E. split; [constructor; assumption|].
    simpl. intros d. split; [auto|]. intros [->|H]; assumption.
  - assert (Hnot : ~ In dof set).
    { intros H. apply existsb_eqb_In in H. congruence. }
    assert (Hnf : ~ In dof (free ++ fixed)).
    { rewrite in_app_iff, <- Hset. exact Hnot. }
    destruct (isfixed store dof) eqn:F; (split; [constructor|]); simpl.
    + intros d. rewrite in_app_iff, Hset. simpl. intuition.
    + rewrite app_assoc. apply NoDup_app_remove_l with (l := []). simpl.
      apply Permutation_NoDup with (l := dof :: free ++ fixed).
      * apply Permutation_cons_append.
      * constructor; assumption.
    + exact Hfree.
    + apply Forall_app. split; [exact Hfixed | repeat constructor; exact F].
    + intros d. split; [intros [H|H]; auto | intros [H|H]; [left; auto | right; auto]].
    + intros d. rewrite in_app_iff, Hset. simpl. intuition.
    + apply Permutation_NoDup with (l := dof :: free ++ fixed).
      * change (dof :: free ++ fixed) with ((dof :: free) ++ fixed).
        apply Permutation_app_tail. apply Permutation_cons_append.
      * constructor; assumption.
    + apply Forall_app. split; [exact Hfree | repeat constructor; exact F].
    + exact Hfixed.
    + intros d. split; [intros [H|H]; auto | intros [H|H]; [left; auto | right; auto]].
Qed.

Lemma visit_dofs_inv (store : DofStore) (ds : list Dof) acc :
  unique_inv store acc ->
  unique_inv store (for_each ds (visit_dof store) acc) /\
  (forall d, In d (fst (fst (for_each ds (visit_dof store) acc))) <->
             In d ds \/ In d (fst (fst acc))).
Proof.
  revert acc. induction ds as [|x ds IH]; intros acc Hacc.
  - split; [exact Hacc|]. simpl. intuition.
  - unfold for_each. simpl fold_left.
    destruct (@visit_dof_inv store x acc Hacc) as [H1 H2].
    destruct (IH _ H1) as [H3 H4]. split; [exact H3|].
    intros d. unfold for_each in H4. rewrite H4, H2. simpl. intuition.
Qed.

(* ================================================================== *)
(** * Vocabulary of the statements *)

(** Indices below [F] hold free DoFs, indices from [F] to [N] fixed ones. *)
Definition partitioned (store : DofStore) (s : System.t) : Prop :=
  forall i,
    (i < System.nb_free_dofs s ->
     isfixed store (nth i (System.m_dofs s) 0) = false) /\
    (System.nb_free_dofs s <= i < System.nb_dofs s ->
     isfixed store (nth i (System.m_dofs s) 0) = true).

(** The members that no method assigns. *)
Record same_layout (s s' : System.t) : Prop := {
  sl_dofs : System.m_dofs s' = System.m_dofs s;
  sl_dof_indices : System.m_dof_indices s' = System.m_dof_indices s;
  sl_nb_free : System.m_nb_free_dofs s' = System.m_nb_free_dofs s;
  sl_nb_fixed : System.m_nb_fixed_dofs s' = System.m_nb_fixed_dofs s;
  sl_elements : System.m_elements s' = System.m_elements s;
  sl_index_table : System.m_index_table s' = System.m_index_table s;
  sl_pattern : System.m_pattern s' = System.m_pattern s;
  sl_col_nonzeros : System.m_col_nonzeros s' = System.m_col_nonzeros s;
  sl_solver : System.m_solver s' = System.m_solver s
}.

(** The machine after a call of [compute] or [compute_parallel]. *)
Definition after_compute (options : Options) (m : System.Machine) : System.Machine :=
  let r := System.compute options (System.dofstore m) (System.system m) in
  {| System.system := fst r; System.dofstore := System.dofstore m;
     System.trace := System.trace m ++ snd r |}.

Definition after_compute_parallel (order : list nat) (options : Options)
    (m : System.Machine) : System.Machine :=
  let r := System.compute_parallel order options (System.dofstore m) (System.system m) in
  {| System.system := fst r; System.dofstore := System.dofstore m;
     System.trace := System.trace m ++ snd r |}.

(** One call of a public method that changes the machine; [solve] either
    returns or lets the solver's exception through. *)
Inductive operation {solver : LinearSolver} : System.Machine -> System.Machine -> Prop :=
| op_compute options m :
    operation m (after_compute options m)
| op_compute_parallel order options m :
    Permutation order (seq 0 (length (System.m_elements (System.system m)))) ->
    operation m (after_compute_parallel order options m)
| op_solve options m m' :
    System.solve options m = Returned m' -> operation m m'
| op_solve_raised options e m m' :
    System.solve options m = Raised e m' -> operation m m'.

(** Any number of calls, one after the other. *)
Inductive operations {solver : LinearSolver} : System.Machine -> System.Machine -> Prop :=
| ops_none m : operations m m
| ops_then m m' m'' : operations m m' -> operation m' m'' -> operations m m''.

(** The machine a successful construction leaves. *)
Definition constructed {sorter : System.StdSort} (junk : System.Uninitialized)
    (store : DofStore) (elements : list Element.t) (options : Options)
    (m : System.Machine) : Prop :=
  exists s tr,
    System.make junk store elements options = Returned (s, tr) /\
    m = {| System.system := s; System.dofstore := store; System.trace := tr |}.

(** Solver calls and residual checks recorded in a trace. *)
Definition is_solve (e : Event) : bool :=
  match e with Solve => true | _ => false end.
Definition is_set_matrix (e : Event) : bool :=
  match e with SetMatrix => true | _ => false end.
Definition is_element_compute (e : Event) : bool :=
  match e with ElementCompute _ _ => true | _ => false end.
Definition is_residual_check (e : Event) : bool :=
  match e with StdoutIteration _ => true | _ => false end.

Definition count_events (p : Event -> bool) (tr : list Event) : nat :=
  length (filter p tr).

(* ================================================================== *)
(** * Constructor: members *)

Lemma element_dofs_fill (elements : list Element.t) :
  for_range 0 (length elements) (fun i element_dofs =>
    list_upd element_dofs i (fun _ => Element.dofs (nth i elements Element.null)))
    (repeat [] (length elements)) = map Element.dofs elements.
Proof.
  rewrite (for_range_fill (fun i => Element.dofs (nth i elements Element.null)))
    by apply repeat_length.
  apply map_nth_seq.
Qed.

(** The free and the fixed DoFs found among the elements. *)
Definition free_dofs_of (store : DofStore) (elements : list Element.t) : list Dof :=
  snd (fst (System.unique_dofs store (map Element.dofs elements))).
Definition fixed_dofs_of (store : DofStore) (elements : list Element.t) : list Dof :=
  snd (System.unique_dofs store (map Element.dofs elements)).

Section Construct.

Context {sorter : System.StdSort}.
Variables (junk : System.Uninitialized) (store : DofStore)
          (elements : list Element.t) (options : Options).

Let built := fst (System.construct junk store elements options).

Lemma construct_m_dofs :
  System.m_dofs built = free_dofs_of store elements ++ fixed_dofs_of store elements.
Proof.
  unfold built, System.construct. cbn [fst System.m_dofs].
  rewrite element_dofs_fill. reflexivity.
Qed.

Lemma construct_nb_free :
  System.m_nb_free_dofs built = length (free_dofs_of store elements).
Proof.
  unfold built, System.construct. cbn [fst System.m_nb_free_dofs].
  rewrite element_dofs_fill. reflexivity.
Qed.

Lemma construct_nb_fixed :
  System.m_nb_fixed_dofs built = length (fixed_dofs_of store elements).
Proof.
  unfold built, System.construct. cbn [fst System.m_nb_fixed_dofs].
  rewrite element_dofs_fill. reflexivity.
Qed.

Lemma construct_m_elements : System.m_elements built = elements.
Proof. reflexivity. Qed.

Lemma construct_m_dof_indices :
  System.m_dof_indices built = System.index_dofs (System.m_dofs built).
Proof. reflexivity. Qed.

Lemma construct_m_index_table :
  System.m_index_table built =
  System.index_table (System.m_dof_indices built) (map Element.dofs elements).
Proof.
  unfold built, System.construct. cbn [fst System.m_index_table System.m_dof_indices].
  rewrite element_dofs_fill. reflexivity.
Qed.

Lemma construct_m_pattern :
  System.m_pattern built =
  System.analyze_pattern (System.m_nb_free_dofs built) (System.m_index_table built).
Proof. reflexivity. Qed.

Lemma construct_m_lhs :
  System.m_lhs built =
  System.setup_lhs (System.m_nb_free_dofs built) (System.m_pattern built).
Proof. reflexivity. Qed.

Lemma construct_m_col_nonzeros :
  System.m_col_nonzeros built =
  System.col_nonzeros (System.m_nb_free_dofs built) (System.m_pattern built).
Proof. reflexivity. Qed.

Lemma construct_m_rhs_length :
  length (System.m_rhs built) = System.m_nb_free_dofs built.
Proof.
  unfold built, System.construct. cbn [fst System.m_rhs System.m_nb_free_dofs].
  unfold Vector_uninitialized. rewrite length_map, length_seq. reflexivity.
Qed.

Lemma construct_m_solver :
  System.m_solver built =
  fst (System.setup_solver (get_or_default (opt_linear_solver options) "ldlt"%string)).
Proof. reflexivity. Qed.

Lemma make_Returned (s : System.t) (tr : list Event) :
  System.make junk store elements options = Returned (s, tr) ->
  s = built /\ System.m_solver s <> None /\ tr = [AnalyzePattern].
Proof.
  unfold System.make. fold built.
  destruct (System.m_solver built) eqn:E; [|discriminate].
  intros H. injection H as <- <-. split; [reflexivity|]. split; [congruence|].
  unfold System.construct. cbn [snd].
  unfold built, System.construct in E. cbn [fst System.m_solver] in E.
  unfold System.setup_solver in *.
  destruct (String.eqb _ "ldlt"); [reflexivity|].
  destruct (String.eqb _ "lsmr"); [reflexivity|]. discriminate.
Qed.

Lemma unique_dofs_inv :
  unique_inv store (System.unique_dofs store (map Element.dofs elements)) /\
  forall d, In d (free_dofs_of store elements ++ fixed_dofs_of store elements)
            <-> In d (concat (map Element.dofs elements)).
Proof.
  rewrite unique_dofs_unfold.
  assert (H0 : unique_inv store ([], [], [])).
  { constructor; simpl; [tauto | constructor | constructor | constructor]. }
  destruct (visit_dofs_inv (concat (map Element.dofs elements)) H0) as [H1 H2].
  split; [exact H1|]. intros d. unfold free_dofs_of, fixed_dofs_of.
  rewrite unique_dofs_unfold, in_app_iff, <- (ui_set H1), H2. simpl. intuition.
Qed.

Lemma construct_partitioned : partitioned store built.
Proof.
  destruct unique_dofs_inv as [[_ _ Hfree Hfixed] _].
  fold (free_dofs_of store elements) in Hfree.
  fold (fixed_dofs_of store elements) in Hfixed.
  unfold partitioned, System.nb_free_dofs, System.nb_dofs.
  rewrite construct_nb_free, construct_m_dofs. intros i. split; intros Hi.
  - rewrite app_nth1 by exact Hi. rewrite Forall_forall in Hfree.
    apply Hfree. apply nth_In. exact Hi.
  - rewrite length_app in Hi. rewrite app_nth2 by lia.
    rewrite Forall_forall in Hfixed. apply Hfixed. apply nth_In. lia.
Qed.

Lemma construct_NoDup : NoDup (System.m_dofs built).
Proof.
  rewrite construct_m_dofs. destruct unique_dofs_inv as [[_ H _ _] _]. exact H.
Qed.

End Construct.

(* ================================================================== *)
(** * What the methods leave alone *)

Lemma same_layout_refl (s : System.t) : same_layout s s.
Proof. constructor; reflexivity. Qed.

Lemma same_layout_trans (s1 s2 s3 : System.t) :
  same_layout s1 s2 -> same_layout s2 s3 -> same_layout s1 s3.
Proof. intros [] []. constructor; congruence. Qed.

Lemma set_delta_frame (d : Dof) (v : Q) (st : DofStore) (d' : Dof) :
  isfixed (set_delta d v st) d' = isfixed st d' /\
  target (set_delta d v st) d' = target st d' /\
  residual (set_delta d v st) d' = residual st d'.
Proof.
  unfold isfixed, target, residual, set_delta. cbv zeta.
  destruct (Nat.eqb d' d); auto.
Qed.

Lemma set_residual_frame (d : Dof) (v : Q) (st : DofStore) (d' : Dof) :
  isfixed (set_residual d v st) d' = isfixed st d' /\
  target (set_residual d v st) d' = target st d' /\
  delta (set_residual d v st) d' = delta st d'.
Proof.
  unfold isfixed, target, delta, set_residual. cbv zeta.
  destruct (Nat.eqb d' d); auto.
Qed.

Lemma update_dofs_frame (s : System.t) (st : DofStore) (d : Dof) :
  isfixed (System.update_dofs s st) d = isfixed st d /\
  target (System.update_dofs s st) d = target st d /\
  residual (System.update_dofs s st) d = residual st d.
Proof.
  unfold System.update_dofs.
  apply for_range_inv with
    (P := fun (_ : nat) st' => isfixed st' d = isfixed st d /\
                               target st' d = target st d /\
                               residual st' d = residual st d); [lia|auto|].
  intros i acc _ (H1 & H2 & H3).
  match goal with
  | |- context [set_delta ?a ?b ?c] =>
      destruct (set_delta_frame a b c d) as (F1 & F2 & F3)
  end.
  repeat split; congruence.
Qed.

Lemma store_residuals_frame (s : System.t) (st : DofStore) (d : Dof) :
  isfixed (System.store_residuals s st) d = isfixed st d /\
  target (System.store_residuals s st) d = target st d /\
  delta (System.store_residuals s st) d = delta st d.
Proof.
  unfold System.store_residuals.
  apply for_range_inv with
    (P := fun (_ : nat) st' => isfixed st' d = isfixed st d /\
                               target st' d = target st d /\
                               delta st' d = delta st d); [lia|auto|].
  intros i acc _ (H1 & H2 & H3).
  destruct (set_residual_frame (nth i (System.m_dofs s) 0)
              (vec_get (System.m_residual s) i) acc d) as (F1 & F2 & F3).
  repeat split; congruence.
Qed.

Lemma compute_same_layout (options : Options) (store : DofStore) (s : System.t) :
  same_layout s (fst (System.compute options store s)).
Proof. constructor; reflexivity. Qed.

Lemma compute_parallel_same_layout (order : list nat) (options : Options)
    (store : DofStore) (s : System.t) :
  same_layout s (fst (System.compute_parallel order options store s)).
Proof. constructor; reflexivity. Qed.

(** The machine an outcome carries, if any. *)
Definition outcome_machine (o : Outcome System.Machine) : option System.Machine :=
  match o with
  | Returned m | Raised _ m | NullDereference m => Some m
  | OutOfFuel => None
  end.

Definition step_machine (st : System.Step) : System.Machine :=
  match st with
  | System.Continue m | System.Break m | System.Throw m | System.NullSolver m => m
  end.

Section Frames.

Context {solver : LinearSolver}.

(** Fixed flags and targets are never written, and the layout stays. *)
Definition framed (m m' : System.Machine) : Prop :=
  same_layout (System.system m) (System.system m') /\
  System.m_target (System.system m') = System.m_target (System.system m) /\
  forall d, isfixed (System.dofstore m') d = isfixed (System.dofstore m) d /\
            target (System.dofstore m') d = target (System.dofstore m) d.

Lemma framed_refl m : framed m m.
Proof. split; [apply same_layout_refl|]. split; auto. Qed.

Lemma framed_trans m1 m2 m3 : framed m1 m2 -> framed m2 m3 -> framed m1 m3.
Proof.
  intros (L1 & T1 & F1) (L2 & T2 & F2). split; [eapply same_layout_trans; eauto|].
  split; [congruence|]. intros d. destruct (F1 d), (F2 d). split; congruence.
Qed.

Lemma iteration_body_framed maxiter rtol xtol options iteration m :
  framed m (step_machine
              (System.iteration_body maxiter rtol xtol options iteration m)).
Proof.
  unfold System.iteration_body.
  destruct (iteration >=? maxiter)%Z.
  { simpl. split; [constructor; reflexivity|]. split; auto. }
  cbv zeta.
  destruct (norm_ltb _ rtol).
  { simpl. split; [constructor; reflexivity|]. split; auto. }
  destruct (System.m_solver _) eqn:Es.
  2:{ simpl. split; [constructor; reflexivity|]. split; auto. }
  destruct (solver_solve _ _ _ _) as [x|].
  2:{ simpl. split; [constructor; reflexivity|]. split; auto. }
  destruct (norm_ltb _ xtol); simpl;
    (split; [constructor; reflexivity|]; split; [reflexivity|]);
    intros d; match goal with
              | |- context [System.update_dofs ?s ?st] =>
                  destruct (update_dofs_frame s st d) as (F1 & F2 & _)
              end; auto.
Qed.

Lemma newton_loop_framed fuel maxiter rtol xtol options iteration m m' :
  outcome_machine
    (System.newton_loop fuel maxiter rtol xtol options iteration m) = Some m' ->
  framed m m'.
Proof.
  revert iteration m. induction fuel as [|fuel IH]; intros iteration m; simpl.
  - discriminate.
  - pose proof (iteration_body_framed maxiter rtol xtol options iteration m) as Hb.
    destruct (System.iteration_body maxiter rtol xtol options iteration m)
      as [m1|m1|m1|m1]; simpl in *;
      try (intros E; injection E as <-; exact Hb).
    intros E. eapply framed_trans; [exact Hb|]. eapply IH. exact E.
Qed.

Lemma solve_framed options m m' :
  outcome_machine (System.solve options m) = Some m' ->
  same_layout (System.system m) (System.system m') /\
  forall d, isfixed (System.dofstore m') d = isfixed (System.dofstore m) d /\
            target (System.dofstore m') d = target (System.dofstore m) d.
Proof.
  unfold System.solve. cbv zeta.
  match goal with
  | |- context [System.newton_loop ?f ?mi ?rt ?xt ?o ?it ?m0] =>
      pose proof (@newton_loop_framed f mi rt xt o it m0) as Hn;
      destruct (System.newton_loop f mi rt xt o it m0) as [m1|e m1|m1|]
  end; simpl in *; try discriminate; intros E; injection E as <-.
  - destruct (Hn _ eq_refl) as (L & _ & F); simpl in *.
    split; [destruct L; constructor; assumption|].
    intros d. destruct (store_residuals_frame (System.system m1)
                          (System.dofstore m1) d) as (S1 & S2 & _).
    destruct (F d). split; congruence.
  - destruct (Hn _ eq_refl) as (L & _ & F); simpl in *.
    split; [destruct L; constructor; assumption | exact F].
  - destruct (Hn _ eq_refl) as (L & _ & F); simpl in *.
    split; [destruct L; constructor; assumption | exact F].
Qed.

End Frames.

(* ================================================================== *)
(** * Pattern analysis *)

(** Positions [r <= c] of the index table [T] whose global indices [row] and
    [col] are both free. *)
Definition free_pair (nb_free : nat) (T : list System.Index) (row col : nat) : Prop :=
  exists r c,
    r <= c < length T /\
    System.global (nth r T System.Index_zero) = row /\
    System.global (nth c T System.Index_zero) = col /\
    row < nb_free /\ col < nb_free.

Lemma list_upd_Forall {A : Type} (P : A -> Prop) (l : list A) (i : nat) (f : A -> A) :
  (forall x, P x -> P (f x)) -> Forall P l -> Forall P (list_upd l i f).
Proof.
  intros Hf H. revert i. induction H as [|x l Hx Hl IH]; intros [|i]; simpl;
    constructor; auto.
Qed.

Lemma analyze_element_spec (nb_free : nat) (T : list System.Index)
    (P : list (list nat)) :
  length P = nb_free ->
  length (System.analyze_element nb_free T P) = nb_free /\
  forall row col,
    In row (nth col (System.analyze_element nb_free T P) []) <->
    In row (nth col P []) \/ free_pair nb_free T row col.
Proof.
  intros HP. unfold System.analyze_element.
  set (n := length T).
  pose (Outer := fun (k : nat) (Pk : list (list nat)) =>
    length Pk = nb_free /\
    forall row col,
      In row (nth col Pk []) <->
      In row (nth col P []) \/
      exists r c, r < k /\ r <= c < n /\
        System.global (nth r T System.Index_zero) = row /\
        System.global (nth c T System.Index_zero) = col /\
        row < nb_free /\ col < nb_free).
  match goal with
  | |- length (for_range 0 n ?body P) = _ /\ _ =>
      assert (H : Outer n (for_range 0 n body P))
  end.
  { apply for_range_inv with (P := Outer); [lia| |].
    - split; [exact HP|]. intros row col. split; [auto|].
      intros [H|(r & c & Hr & _)]; [exact H | lia].
    - intros r Pr Hr [Hlen Hin].
      destruct (Nat.leb_spec nb_free (System.global (nth r T System.Index_zero)))
        as [Hfix|Hfree].
      + split; [exact Hlen|]. intros row col. rewrite Hin. split.
        * intros [H|(r' & c & H1 & H2)]; [auto|]. right. exists r', c.
          split; [lia | exact H2].
        * intros [H|(r' & c & H1 & H2 & H3 & H4 & H5 & H6)]; [auto|].
          right. exists r', c. assert (r' <> r) by (intros ->; lia).
          repeat split; auto; lia.
      + pose (Inner := fun (k : nat) (Pk : list (list nat)) =>
          length Pk = nb_free /\
          forall row col,
            In row (nth col Pk []) <->
            In row (nth col Pr []) \/
            exists c, r <= c < k /\
              System.global (nth r T System.Index_zero) = row /\
              System.global (nth c T System.Index_zero) = col /\
              col < nb_free).
        match goal with
        | |- Outer _ (for_range r n ?body Pr) =>
            assert (H : Inner n (for_range r n body Pr))
        end.
        { apply for_range_inv with (P := Inner); [lia| |].
          - split; [exact Hlen|]. intros row col. split; [auto|].
            intros [H|(c & Hc & _)]; [exact H | lia].
          - intros c Pc Hc [Hl Hi].
            destruct (Nat.leb_spec nb_free (System.global (nth c T System.Index_zero)))
              as [Hcfix|Hcfree].
            + split; [exact Hl|]. intros row col. rewrite Hi. split.
              * intros [H|(c' & H1 & H2)]; [auto|]. right. exists c'.
                split; [lia | exact H2].
              * intros [H|(c' & H1 & H2 & H3 & H4)]; [auto|]. right. exists c'.
                assert (c' <> c) by (intros ->; lia). repeat split; auto; lia.
            + split; [rewrite list_upd_length; exact Hl|]. intros row col.
              rewrite list_upd_nth by lia.
              destruct (Nat.eqb_spec col (System.global (nth c T System.Index_zero)))
                as [->|Hne].
              * rewrite set_insert_In, Hi. split.
                -- intros [->|[H|(c' & H1 & H2)]]; [|auto|].
                   ++ right. exists c. repeat split; auto; lia.
                   ++ right. exists c'. split; [lia | exact H2].
                -- intros [H|(c' & H1 & H2 & H3 & H4)]; [auto|].
                   destruct (Nat.eq_dec c' c) as [->|Hcc]; [left; auto|].
                   right. right. exists c'. repeat split; auto; lia.
              * rewrite Hi. split.
                -- intros [H|(c' & H1 & H2)]; [auto|]. right. exists c'.
                   split; [lia | exact H2].
                -- intros [H|(c' & H1 & H2 & H3 & H4)]; [auto|]. right. exists c'.
                   assert (c' <> c) by (intros ->; congruence).
                   repeat split; auto; lia. }
        destruct H as [Hl Hi]. split; [exact Hl|]. intros row col.
        rewrite Hi, Hin. split.
        * intros [[H|(r' & c & H1 & H2)]|(c & H1 & H2 & H3 & H4)]; [auto| |].
          -- right. exists r', c. split; [lia | exact H2].
          -- right. exists r, c. repeat split; auto; lia.
        * intros [H|(r' & c & H1 & H2 & H3 & H4 & H5 & H6)]; [auto|].
          destruct (Nat.eq_dec r' r) as [->|Hrr].
          -- right. exists c. repeat split; auto; lia.
          -- left. right. exists r', c. repeat split; auto; lia. }
  destruct H as [Hl Hi]. split; [exact Hl|]. intros row col. rewrite Hi.
  unfold free_pair. split.
  - intros [H|(r & c & H1 & H2 & H3)]; [auto|]. right. exists r, c. split; [lia | exact H3].
  - intros [H|(r & c & H1 & H2)]; [auto|]. right. exists r, c. repeat split; auto; lia.
Qed.

Lemma analyze_element_sorted (nb_free : nat) (T : list System.Index)
    (P : list (list nat)) :
  Forall (StronglySorted lt) P ->
  Forall (StronglySorted lt) (System.analyze_element nb_free T P).
Proof.
  intros HP. unfold System.analyze_element.
  apply for_range_inv with (P := fun _ Pk => Forall (StronglySorted lt) Pk);
    [lia | exact HP |].
  intros r Pr _ Hr. destruct (nb_free <=? _); [exact Hr|].
  destruct (Nat.le_gt_cases r (length T)) as [Hle|Hgt].
  - apply for_range_inv with (P := fun _ Pk => Forall (StronglySorted lt) Pk);
      [exact Hle | exact Hr |].
    intros c Pc _ Hc. destruct (nb_free <=? _); [exact Hc|].
    apply list_upd_Forall; [|exact Hc]. intros. apply set_insert_sorted. assumption.
  - rewrite for_range_empty by lia. exact Hr.
Qed.

Lemma analyze_pattern_spec (nb_free : nat) (table : list (list System.Index)) :
  length (System.analyze_pattern nb_free table) = nb_free /\
  Forall (StronglySorted lt) (System.analyze_pattern nb_free table) /\
  forall row col,
    In row (nth col (System.analyze_pattern nb_free table) []) <->
    exists T, In T table /\ free_pair nb_free T row col.
Proof.
  unfold System.analyze_pattern, for_each.
  assert (G : forall P0,
    length P0 = nb_free -> Forall (StronglySorted lt) P0 ->
    length (fold_left (fun acc x => System.analyze_element nb_free x acc) table P0)
      = nb_free /\
    Forall (StronglySorted lt)
      (fold_left (fun acc x => System.analyze_element nb_free x acc) table P0) /\
    forall row col,
      In row (nth col (fold_left (fun acc x => System.analyze_element nb_free x acc)
                         table P0) []) <->
      In row (nth col P0 []) \/ exists T, In T table /\ free_pair nb_free T row col).
  { induction table as [|T table IH]; intros P0 Hl Hs; simpl.
    - split; [exact Hl|]. split; [exact Hs|]. intros row col. split; [auto|].
      intros [H|(T & [] & _)]. exact H.
    - destruct (@analyze_element_spec nb_free T P0 Hl) as [Hl' Hi'].
      destruct (IH _ Hl' (@analyze_element_sorted nb_free T P0 Hs)) as (H1 & H2 & H3).
      split; [exact H1|]. split; [exact H2|]. intros row col. rewrite H3, Hi'. split.
      + intros [[H|H]|(T' & HT & H)]; [auto| |].
        * right. exists T. auto.
        * right. exists T'. auto.
      + intros [H|(T' & [<-|HT] & H)]; [auto|auto|]. right. exists T'. auto. }
  destruct (G (repeat [] nb_free)) as (H1 & H2 & H3).
  - apply repeat_length.
  - apply Forall_forall. intros x Hx. apply repeat_spec in Hx. subst. constructor.
  - split; [exact H1|]. split; [exact H2|]. intros row col. rewrite H3. split.
    + intros [H|H]; [|exact H]. exfalso.
      destruct (nth_in_or_default col (repeat (@nil nat) nb_free) []) as [Hin|E].
      * apply repeat_spec in Hin. rewrite Hin in H. exact H.
      * rewrite E in H. exact H.
    + auto.
Qed.

(* ================================================================== *)
(** * The skeleton of the left-hand side *)

Lemma list_upd_id {A : Type} (l : list A) (i : nat) :
  list_upd l i (fun x => x) = l.
Proof.
  revert i. induction l as [|x l IH]; intros [|i]; simpl; auto. f_equal. apply IH.
Qed.

Lemma list_upd_upd {A : Type} (l : list A) (i : nat) (f g : A -> A) :
  list_upd (list_upd l i f) i g = list_upd l i (fun x => g (f x)).
Proof.
  revert i. induction l as [|x l IH]; intros [|i]; simpl; auto. f_equal. apply IH.
Qed.

Lemma col_insert_last (row : nat) (c : list (nat * Q)) :
  Forall (fun slot => fst slot < row) c ->
  col_insert row c = c ++ [(row, 0%Q)].
Proof.
  induction 1 as [|[r w] c Hr Hc IH]; simpl.
  - reflexivity.
  - simpl in Hr. destruct (Nat.ltb_spec row r); [lia|]. rewrite IH. reflexivity.
Qed.

(** Rows inserted in ascending order fill a column in that order. *)
Lemma col_insert_rows (rows : list nat) :
  StronglySorted lt rows ->
  fold_left (fun c row => col_insert row c) rows [] = map (fun r => (r, 0%Q)) rows.
Proof.
  intros Hs. induction rows as [|x rows IH] using rev_ind.
  - reflexivity.
  - rewrite fold_left_app, map_app. simpl.
    assert (Hs' : StronglySorted lt rows /\ Forall (fun r => r < x) rows).
    { clear IH. induction rows as [|y rows IH]; simpl in *.
      - split; constructor.
      - inversion Hs as [|? ? Hs1 Hf]; subst. destruct (IH Hs1) as [A B].
        split.
        + constructor; [exact A|]. apply Forall_app in Hf. tauto.
        + constructor; [|exact B]. apply Forall_app in Hf.
          destruct Hf as [_ Hf]. inversion Hf; assumption. }
    destruct Hs' as [Hs1 Hlt]. rewrite IH by exact Hs1.
    apply col_insert_last. apply Forall_map. simpl. exact Hlt.
Qed.

Lemma Sparse_insert_rows (rows : list nat) (col : nat) (m : Sparse) :
  for_each rows (fun row lhs => Sparse_insert row col lhs) m =
  {| sp_rows := sp_rows m; sp_cols := sp_cols m;
     sp_outer := list_upd (sp_outer m) col
                   (fun c => fold_left (fun c row => col_insert row c) rows c) |}.
Proof.
  unfold for_each. revert m. induction rows as [|row rows IH]; intros m; simpl.
  - rewrite list_upd_id. destruct m; reflexivity.
  - rewrite IH. unfold Sparse_insert. simpl. rewrite list_upd_upd. reflexivity.
Qed.

Lemma setup_lhs_spec (nb_free : nat) (pattern : list (list nat)) :
  length pattern = nb_free ->
  Forall (StronglySorted lt) pattern ->
  System.setup_lhs nb_free pattern =
  {| sp_rows := nb_free; sp_cols := nb_free;
     sp_outer := map (map (fun r => (r, 0%Q))) pattern |}.
Proof.
  intros Hlen Hs. unfold System.setup_lhs.
  destruct (Nat.ltb_spec 0 nb_free) as [Hpos|Hzero].
  2:{ assert (nb_free = 0) by lia. subst nb_free.
      destruct pattern; [reflexivity | discriminate]. }
  pose (Inv := fun (k : nat) (m : Sparse) =>
    sp_rows m = nb_free /\ sp_cols m = nb_free /\
    length (sp_outer m) = nb_free /\
    forall c, nth c (sp_outer m) [] =
              if c <? k then map (fun r => (r, 0%Q)) (nth c pattern []) else []).
  match goal with
  | |- for_range 0 ?n ?body ?m0 = _ => assert (H : Inv n (for_range 0 n body m0))
  end.
  { apply for_range_inv with (P := Inv); [lia| |].
    - repeat split; simpl; try apply repeat_length.
      intros c. destruct (nth_in_or_default c (repeat (@nil (nat * Q)) nb_free) [])
        as [Hin|E]; [apply repeat_spec in Hin|]; assumption.
    - intros col m Hcol (H1 & H2 & H3 & H4). rewrite Sparse_insert_rows.
      repeat split; simpl; auto.
      + rewrite list_upd_length. exact H3.
      + intros c. rewrite list_upd_nth by lia. rewrite !H4.
        destruct (Nat.eqb_spec c col) as [->|Hne].
        * destruct (Nat.ltb_spec col col); [lia|].
          destruct (Nat.ltb_spec col (S col)); [|lia].
          apply col_insert_rows. rewrite Forall_forall in Hs. apply Hs.
          apply nth_In. lia.
        * destruct (Nat.ltb_spec c col), (Nat.ltb_spec c (S col));
            try reflexivity; lia. }
  destruct H as (H1 & H2 & H3 & H4).
  destruct (for_range _ _ _ _) as [rows cols outer]. simpl in *. subst rows cols.
  f_equal. apply nth_ext with (d := []) (d' := []).
  - rewrite length_map. congruence.
  - intros c Hc. rewrite H4. destruct (Nat.ltb_spec c (length pattern)); [|lia].
    change (@nil (nat * Q)) with (map (fun r => (r, 0%Q)) (@nil nat)).
    rewrite map_nth. reflexivity.
Qed.

Lemma structure_skeleton (rows cols : nat) (pattern : list (list nat)) :
  structure {| sp_rows := rows; sp_cols := cols;
               sp_outer := map (map (fun r => (r, 0%Q))) pattern |} = pattern.
Proof.
  unfold structure. simpl. rewrite map_map. rewrite <- (map_id pattern) at 2.
  apply map_ext. intros c. rewrite map_map. simpl. apply map_id.
Qed.

(** Entries of a sorted index table come in ascending global order. *)
Lemma sorted_table_nth (T : list System.Index) (r c : nat) :
  StronglySorted (fun a b => System.Index_ltb b a = false) T ->
  r <= c < length T ->
  System.global (nth r T System.Index_zero) <= System.global (nth c T System.Index_zero).
Proof.
  intros Hs. revert r c. induction Hs as [|a T Hs IH Ha]; intros r c Hrc; simpl in *.
  - lia.
  - destruct r as [|r], c as [|c]; try lia.
    + rewrite Forall_forall in Ha.
      assert (Hin : In (nth c T System.Index_zero) T) by (apply nth_In; lia).
      apply Ha in Hin. unfold System.Index_ltb in Hin. apply Nat.ltb_ge in Hin. exact Hin.
    + apply IH. lia.
Qed.

Lemma index_table_sorted {sorter : System.StdSort} (dof_indices : list (Dof * nat))
    (element_dofs : list (list Dof)) :
  Forall (StronglySorted (fun a b => System.Index_ltb b a = false))
    (System.index_table dof_indices element_dofs).
Proof.
  unfold System.index_table.
  apply for_range_inv with
    (P := fun (_ : nat) table =>
            Forall (StronglySorted (fun a b => System.Index_ltb b a = false)) table);
    [lia | constructor |].
  intros i table _ Ht. apply Forall_app. split; [exact Ht|].
  constructor; [apply System.std_sort_sorted | constructor].
Qed.

Section Pattern.

Context {sorter : System.StdSort}.
Variables (junk : System.Uninitialized) (store : DofStore)
          (elements : list Element.t) (options : Options).

Let built := fst (System.construct junk store elements options).

Lemma construct_lhs_skeleton :
  System.m_lhs built =
  {| sp_rows := System.m_nb_free_dofs built; sp_cols := System.m_nb_free_dofs built;
     sp_outer := map (map (fun r => (r, 0%Q))) (System.m_pattern built) |}.
Proof.
  unfold built. rewrite construct_m_lhs, construct_m_pattern.
  destruct (analyze_pattern_spec
              (System.m_nb_free_dofs (fst (System.construct junk store elements options)))
              (System.m_index_table (fst (System.construct junk store elements options))))
    as (Hl & Hs & _).
  apply setup_lhs_spec; assumption.
Qed.

Lemma construct_structure :
  structure (System.m_lhs built) = System.m_pattern built.
Proof. rewrite construct_lhs_skeleton. apply structure_skeleton. Qed.

Lemma construct_structural (row col : nat) :
  structural (System.m_lhs built) row col <->
  exists T, In T (System.m_index_table built) /\
            free_pair (System.m_nb_free_dofs built) T row col.
Proof.
  unfold structural. rewrite construct_structure.
  unfold built. rewrite construct_m_pattern.
  apply analyze_pattern_spec.
Qed.

Lemma construct_table_sorted :
  Forall (StronglySorted (fun a b => System.Index_ltb b a = false))
    (System.m_index_table built).
Proof. unfold built. rewrite construct_m_index_table. apply index_table_sorted. Qed.

Lemma construct_upper (row col : nat) :
  structural (System.m_lhs built) row col -> row <= col.
Proof.
  intros H. apply construct_structural in H.
  destruct H as (T & HT & r & c & Hrc & <- & <- & _).
  apply sorted_table_nth; [|exact Hrc].
  pose proof construct_table_sorted as Hs. rewrite Forall_forall in Hs. auto.
Qed.

End Pattern.

(* ================================================================== *)
(** * Assembly keeps the structure *)

Definition sorted_columns (m : Sparse) : Prop :=
  Forall (StronglySorted lt) (structure m).

(** Same dimensions and same structural nonzeros. *)
Definition same_skeleton (a b : Sparse) : Prop :=
  structure b = structure a /\ sp_rows b = sp_rows a /\ sp_cols b = sp_cols a.

(** Every slot an element's scatter addresses exists in the matrix. *)
Definition covers (nb_free : nat) (T : list System.Index) (m : Sparse) : Prop :=
  forall row col, free_pair nb_free T row col -> structural m row col.

(** The state in which [compute] finds the system after construction. *)
Record assembly_ready (s : System.t) : Prop := {
  ar_sorted : sorted_columns (System.m_lhs s);
  ar_covers : forall T, In T (System.m_index_table s) ->
                        covers (System.nb_free_dofs s) T (System.m_lhs s);
  ar_rhs : length (System.m_rhs s) = System.nb_free_dofs s
}.

Lemma same_skeleton_refl a : same_skeleton a a.
Proof. repeat split. Qed.

Lemma same_skeleton_trans a b c :
  same_skeleton a b -> same_skeleton b c -> same_skeleton a c.
Proof. unfold same_skeleton. intros (A1 & A2 & A3) (B1 & B2 & B3). repeat split; congruence. Qed.

Lemma Sparse_setZero_skeleton (a b : Sparse) :
  same_skeleton a b -> Sparse_setZero b = Sparse_setZero a.
Proof.
  intros (Hs & Hr & Hc). unfold Sparse_setZero. rewrite Hr, Hc. f_equal.
  assert (E : forall outer : list (list (nat * Q)),
            map (map (fun slot : nat * Q => (fst slot, 0%Q))) outer =
            map (map (fun r => (r, 0%Q))) (map (map fst) outer)).
  { intros outer. rewrite map_map. apply map_ext. intros c. rewrite map_map. reflexivity. }
  rewrite !E. unfold structure in Hs. rewrite Hs. reflexivity.
Qed.

Lemma Sparse_setZero_same_skeleton (a : Sparse) : same_skeleton a (Sparse_setZero a).
Proof.
  unfold same_skeleton, structure, Sparse_setZero. simpl. repeat split.
  rewrite map_map. apply map_ext. intros c. rewrite map_map. reflexivity.
Qed.

Lemma col_coeffRef_add_structure (row : nat) (v : Q) (c : list (nat * Q)) :
  StronglySorted lt (map fst c) -> In row (map fst c) ->
  map fst (col_coeffRef_add row v c) = map fst c.
Proof.
  induction c as [|[r w] c IH]; simpl; intros Hs Hin.
  - contradiction.
  - destruct (Nat.eqb_spec row r) as [->|Hne]; [reflexivity|].
    inversion Hs as [|? ? Hs' Hlt]; subst.
    destruct Hin as [E|Hin]; [congruence|].
    rewrite Forall_forall in Hlt. pose proof (Hlt _ Hin).
    destruct (Nat.ltb_spec row r); [lia|]. simpl. f_equal. apply IH; assumption.
Qed.

Lemma map_list_upd_same {A B : Type} (g : A -> B) (l : list A) (i : nat)
    (f : A -> A) (d : A) :
  (i < length l -> g (f (nth i l d)) = g (nth i l d)) ->
  map g (list_upd l i f) = map g l.
Proof.
  revert i. induction l as [|x l IH]; intros [|i] H; simpl in *; auto.
  - f_equal. apply H. lia.
  - f_equal. apply IH. intros Hi. apply H. lia.
Qed.

Lemma Sparse_coeffRef_add_skeleton (row col : nat) (v : Q) (m : Sparse) :
  sorted_columns m -> structural m row col ->
  same_skeleton m (Sparse_coeffRef_add row col v m).
Proof.
  intros Hs Hin. unfold same_skeleton, structure, Sparse_coeffRef_add. simpl.
  repeat split. apply map_list_upd_same with (d := []). intros Hcol.
  unfold structural, structure in Hin. unfold sorted_columns, structure in Hs.
  change (@nil nat) with (map (@fst nat Q) []) in Hin. rewrite map_nth in Hin.
  apply col_coeffRef_add_structure; [|exact Hin].
  rewrite Forall_forall in Hs. apply Hs. apply in_map. apply nth_In. exact Hcol.
Qed.

Lemma same_skeleton_sorted a b :
  same_skeleton a b -> sorted_columns a -> sorted_columns b.
Proof. intros (E & _) H. unfold sorted_columns. rewrite E. exact H. Qed.

Lemma same_skeleton_structural a b row col :
  same_skeleton a b -> structural a row col -> structural b row col.
Proof. intros (E & _) H. unfold structural. rewrite E. exact H. Qed.

Lemma scatter_skeleton (nb_free : nat) (T : list System.Index)
    (local_lhs : Matrix) (local_rhs : Vector) (m : Sparse) (r : Vector) :
  sorted_columns m -> covers nb_free T m ->
  same_skeleton m (fst (System.scatter nb_free T local_lhs local_rhs (m, r))) /\
  length (snd (System.scatter nb_free T local_lhs local_rhs (m, r))) = length r.
Proof.
  intros Hs Hc. unfold System.scatter.
  pose (Inv := fun (acc : Sparse * Vector) =>
                 same_skeleton m (fst acc) /\ length (snd acc) = length r).
  change (Inv (for_range 0 (length T) (fun row acc =>
    let row_index := nth row T System.Index_zero in
    if nb_free <=? System.global row_index then acc
    else
      let acc :=
        (fst acc,
         list_upd (snd acc) (System.global row_index)
           (fun c => (c + vec_get local_rhs (System.local row_index))%Q)) in
      for_range row (length T) (fun col acc =>
        let col_index := nth col T System.Index_zero in
        if nb_free <=? System.global col_index then acc
        else
          (Sparse_coeffRef_add (System.global row_index) (System.global col_index)
             (mat_get local_lhs (System.local row_index) (System.local col_index))
             (fst acc),
           snd acc))
        acc) (m, r))).
  apply for_range_inv with (P := fun _ => Inv); [lia| |].
  - split; [apply same_skeleton_refl | reflexivity].
  - intros row acc Hrow [Hsk Hlen]. cbv zeta.
    destruct (Nat.leb_spec nb_free (System.global (nth row T System.Index_zero)))
      as [|Hfree]; [split; assumption|].
    apply for_range_inv with (P := fun _ => Inv); [lia| |].
    + split; [exact Hsk|]. simpl. rewrite list_upd_length. exact Hlen.
    + intros col acc' Hcol [Hsk' Hlen'].
      destruct (Nat.leb_spec nb_free (System.global (nth col T System.Index_zero)))
        as [|Hcfree]; [split; assumption|].
      split; [|exact Hlen']. simpl. eapply same_skeleton_trans; [exact Hsk'|].
      apply Sparse_coeffRef_add_skeleton.
      * eapply same_skeleton_sorted; eassumption.
      * eapply same_skeleton_structural; [exact Hsk'|]. apply Hc.
        exists row, col. repeat split; auto; lia.
Qed.

(** The elements [indices], assembled one after the other into [acc]. *)
Definition assemble_elements (options : Options) (store : DofStore) (s : System.t)
    (indices : list nat) (acc : Sparse * Vector) : Sparse * Vector :=
  for_each indices (System.assemble_element options store s) acc.

Lemma fold_left_pair {A B I : Type} (f : I -> A -> A) (g : I -> B -> B)
    (l : list I) (a : A) (b : B) :
  fold_left (fun acc i => (f i (fst acc), g i (snd acc))) l (a, b) =
  (fold_left (fun a i => f i a) l a, fold_left (fun b i => g i b) l b).
Proof. revert a b. induction l as [|i l IH]; intros a b; simpl; auto. Qed.

Lemma fold_left_snoc_map {A I : Type} (h : I -> A) (l : list I) (acc : list A) :
  fold_left (fun acc i => acc ++ [h i]) l acc = acc ++ map h l.
Proof.
  revert acc. induction l as [|i l IH]; intros acc; simpl.
  - rewrite app_nil_r. reflexivity.
  - rewrite IH, <- app_assoc. reflexivity.
Qed.

Lemma compute_unfold (options : Options) (store : DofStore) (s : System.t) :
  System.compute options store s =
  (let acc := assemble_elements options store s
                (seq 0 (length (System.m_elements s)))
                (Sparse_setZero (System.m_lhs s), setZero (System.m_rhs s)) in
   System.set_m_lhs_rhs (fst acc) (snd acc) s,
   map (fun i => ElementCompute i options) (seq 0 (length (System.m_elements s)))).
Proof.
  unfold System.compute, for_range, assemble_elements, for_each.
  rewrite Nat.sub_0_r.
  rewrite (fold_left_pair (System.assemble_element options store s)
             (fun i ev => ev ++ [ElementCompute i options])).
  cbv zeta. cbn [fst snd]. rewrite fold_left_snoc_map. reflexivity.
Qed.

Lemma compute_parallel_unfold (order : list nat) (options : Options)
    (store : DofStore) (s : System.t) :
  System.compute_parallel order options store s =
  (let acc := assemble_elements options store s order
                (System.m_lhs s, System.m_rhs s) in
   System.set_m_lhs_rhs (fst acc) (snd acc) s,
   map (fun i => ElementCompute i options) order).
Proof.
  unfold System.compute_parallel, assemble_elements, for_each.
  rewrite (fold_left_pair (System.assemble_element options store s)
             (fun i ev => ev ++ [ElementCompute i options])).
  cbv zeta. cbn [fst snd]. rewrite fold_left_snoc_map. reflexivity.
Qed.

Lemma covers_nth (s : System.t) (m : Sparse) (i : nat) :
  (forall T, In T (System.m_index_table s) -> covers (System.nb_free_dofs s) T m) ->
  covers (System.nb_free_dofs s) (nth i (System.m_index_table s) []) m.
Proof.
  intros H. destruct (nth_in_or_default i (System.m_index_table s) []) as [Hin|E].
  - apply H. exact Hin.
  - rewrite E. intros row col (r & c & Hrc & _). simpl in Hrc. lia.
Qed.

Lemma assemble_elements_skeleton (options : Options) (store : DofStore)
    (s : System.t) (indices : list nat) (m : Sparse) (r : Vector) :
  sorted_columns m ->
  (forall T, In T (System.m_index_table s) -> covers (System.nb_free_dofs s) T m) ->
  same_skeleton m (fst (assemble_elements options store s indices (m, r))) /\
  length (snd (assemble_elements options store s indices (m, r))) = length r.
Proof.
  intros Hs Hc. unfold assemble_elements.
  apply for_each_inv with
    (P := fun acc : Sparse * Vector =>
            same_skeleton m (fst acc) /\ length (snd acc) = length r).
  - split; [apply same_skeleton_refl | reflexivity].
  - intros i [m' r'] _ [Hsk Hlen]. simpl in Hsk, Hlen.
    unfold System.assemble_element.
    match goal with
    | |- context [System.scatter ?n ?T ?ll ?lr (m', r')] =>
        destruct (@scatter_skeleton n T ll lr m' r') as [H1 H2]
    end.
    + eapply same_skeleton_sorted; eassumption.
    + intros row col Hp. eapply same_skeleton_structural; [exact Hsk|].
      eapply covers_nth; eassumption.
    + split; [eapply same_skeleton_trans; eassumption | congruence].
Qed.

Lemma assembly_ready_transfer (s s' : System.t) :
  assembly_ready s -> same_layout s s' ->
  same_skeleton (System.m_lhs s) (System.m_lhs s') ->
  length (System.m_rhs s') = length (System.m_rhs s) ->
  assembly_ready s'.
Proof.
  intros [Hs Hc Hr] L Hsk Hlen. constructor.
  - eapply same_skeleton_sorted; eassumption.
  - intros T HT row col Hp. eapply same_skeleton_structural; [exact Hsk|].
    unfold System.nb_free_dofs in *. rewrite (sl_nb_free L) in Hp.
    rewrite (sl_index_table L) in HT. eapply Hc; eassumption.
  - unfold System.nb_free_dofs in *. rewrite (sl_nb_free L). congruence.
Qed.

Lemma compute_skeleton (options : Options) (store : DofStore) (s : System.t) :
  assembly_ready s ->
  same_skeleton (System.m_lhs s) (System.m_lhs (fst (System.compute options store s))) /\
  length (System.m_rhs (fst (System.compute options store s))) = length (System.m_rhs s).
Proof.
  intros [Hs Hc Hr]. rewrite compute_unfold. cbv zeta. cbn [fst System.m_lhs System.m_rhs System.set_m_lhs_rhs].
  destruct (@assemble_elements_skeleton options store s
              (seq 0 (length (System.m_elements s)))
              (Sparse_setZero (System.m_lhs s)) (setZero (System.m_rhs s))) as [H1 H2].
  - eapply same_skeleton_sorted; [apply Sparse_setZero_same_skeleton | exact Hs].
  - intros T HT row col Hp.
    eapply same_skeleton_structural; [apply Sparse_setZero_same_skeleton|].
    eapply Hc; eassumption.
  - split.
    + eapply same_skeleton_trans; [apply Sparse_setZero_same_skeleton | exact H1].
    + rewrite H2. unfold setZero. apply length_map.
Qed.

Lemma compute_parallel_skeleton (order : list nat) (options : Options)
    (store : DofStore) (s : System.t) :
  assembly_ready s ->
  same_skeleton (System.m_lhs s)
    (System.m_lhs (fst (System.compute_parallel order options store s))) /\
  length (System.m_rhs (fst (System.compute_parallel order options store s)))
  = length (System.m_rhs s).
Proof.
  intros [Hs Hc Hr]. rewrite compute_parallel_unfold. cbv zeta.
  cbn [fst System.m_lhs System.m_rhs System.set_m_lhs_rhs].
  apply assemble_elements_skeleton; assumption.
Qed.

Lemma compute_ready (options : Options) (store : DofStore) (s : System.t) :
  assembly_ready s -> assembly_ready (fst (System.compute options store s)).
Proof.
  intros H. destruct (compute_skeleton options store H) as [H1 H2].
  eapply assembly_ready_transfer; eauto. apply compute_same_layout.
Qed.

Lemma setZero_repeat (v : Vector) : setZero v = repeat 0%Q (length v).
Proof. induction v as [|x v IH]; simpl; [reflexivity | f_equal; exact IH]. Qed.

(** [compute] does not look at the values it finds. *)
Lemma compute_twice (options : Options) (store : DofStore) (s : System.t) :
  assembly_ready s ->
  let s1 := fst (System.compute options store s) in
  let s2 := fst (System.compute options store s1) in
  System.m_lhs s2 = System.m_lhs s1 /\ System.m_rhs s2 = System.m_rhs s1.
Proof.
  intros H s1 s2. destruct (compute_skeleton options store H) as [Hsk Hlen].
  fold s1 in Hsk, Hlen. subst s2. rewrite (compute_unfold options store s1).
  cbv zeta. cbn [fst System.m_lhs System.m_rhs System.set_m_lhs_rhs].
  rewrite (Sparse_setZero_skeleton Hsk).
  assert (E : setZero (System.m_rhs s1) = setZero (System.m_rhs s)).
  { rewrite !setZero_repeat. congruence. }
  rewrite E.
  assert (L : assemble_elements options store s1 = assemble_elements options store s).
  { reflexivity. }
  rewrite L. subst s1. rewrite (compute_unfold options store s). cbv zeta.
  cbn [fst System.m_lhs System.m_rhs System.set_m_lhs_rhs]. split; reflexivity.
Qed.

(* ================================================================== *)
(** * Norms *)

Lemma squaredNorm_from_nonneg (v : Vector) (acc : Q) :
  (0 <= acc)%Q -> (0 <= fold_left (fun acc c => acc + c * c) v acc)%Q.
Proof.
  revert acc. induction v as [|c v IH]; intros acc Hacc; simpl.
  - exact Hacc.
  - apply IH. rewrite <- (Qplus_0_r 0). apply Qplus_le_compat; [exact Hacc|].
    destruct (Qlt_le_dec c 0) as [Hneg|Hpos].
    + setoid_replace (c * c)%Q with ((- c) * (- c))%Q by ring.
      apply Qmult_le_0_compat; apply (Qopp_le_compat c 0); apply Qlt_le_weak; exact Hneg.
    + apply Qmult_le_0_compat; exact Hpos.
Qed.

Lemma squaredNorm_nonneg (v : Vector) : (0 <= squaredNorm v)%Q.
Proof. apply squaredNorm_from_nonneg. apply Qle_refl. Qed.

(** The comparison the code makes is the comparison of the real norm. *)
Lemma norm_ltb_spec (v : Vector) (tol : Q) :
  norm_ltb v tol = true <-> (norm v < Q2R tol)%R.
Proof.
  unfold norm_ltb, norm.
  pose proof (squaredNorm_nonneg v) as Hsq. apply Qle_Rle in Hsq.
  rewrite RMicromega.Q2R_0 in Hsq.
  destruct (Qcompare_spec 0 tol) as [E|Hlt|Hgt].
  - split; [discriminate|]. intros H. exfalso.
    pose proof (sqrt_pos (Q2R (squaredNorm v))).
    apply Qeq_eqR in E. rewrite RMicromega.Q2R_0 in E. lra.
  - apply Qlt_Rlt in Hlt. rewrite RMicromega.Q2R_0 in Hlt.
    assert (Htol : sqrt (Q2R tol * Q2R tol) = Q2R tol) by (apply sqrt_square; lra).
    destruct (Qcompare_spec (squaredNorm v) (tol * tol)) as [E|Hlt2|Hgt2].
    + split; [discriminate|]. intros H. exfalso.
      apply Qeq_eqR in E. rewrite Q2R_mult in E. rewrite E, Htol in H. lra.
    + split; [|reflexivity]. intros _. apply Qlt_Rlt in Hlt2. rewrite Q2R_mult in Hlt2.
      rewrite <- Htol. apply sqrt_lt_1_alt. lra.
    + split; [discriminate|]. intros H. exfalso.
      apply Qlt_Rlt in Hgt2. rewrite Q2R_mult in Hgt2.
      rewrite <- Htol in H. apply sqrt_lt_0_alt in H. lra.
  - split; [discriminate|]. intros H. exfalso.
    pose proof (sqrt_pos (Q2R (squaredNorm v))).
    apply Qlt_Rlt in Hgt. rewrite RMicromega.Q2R_0 in Hgt. lra.
Qed.

Lemma norm_ltb_nonpositive (v : Vector) (tol : Q) :
  (tol <= 0)%Q -> norm_ltb v tol = false.
Proof.
  intros H. unfold norm_ltb. destruct (Qcompare_spec 0 tol) as [E|Hlt|Hgt]; auto.
  exfalso. apply (Qlt_not_le _ _ Hlt). exact H.
Qed.

Lemma norm_ltb_empty (tol : Q) : (0 < tol)%Q -> norm_ltb [] tol = true.
Proof.
  intros H. unfold norm_ltb. rewrite (proj1 (Qlt_alt 0 tol) H).
  assert (H2 : (squaredNorm [] < tol * tol)%Q).
  { unfold squaredNorm. simpl. rewrite <- (Qmult_0_l tol) at 1.
    apply Qmult_lt_compat_r; assumption. }
  rewrite (proj1 (Qlt_alt _ _) H2). reflexivity.
Qed.

(* ================================================================== *)
(** * Counting the calls of a trace *)

Lemma count_events_app (p : Event -> bool) (a b : list Event) :
  count_events p (a ++ b) = count_events p a + count_events p b.
Proof. unfold count_events. rewrite filter_app, length_app. reflexivity. Qed.

Lemma count_events_compute (p : Event -> bool) (options : Options) (l : list nat) :
  (forall i, p (ElementCompute i options) = false) ->
  count_events p (map (fun i => ElementCompute i options) l) = 0.
Proof.
  intros H. unfold count_events. induction l as [|i l IH]; simpl; [reflexivity|].
  rewrite H. exact IH.
Qed.

Lemma count_events_computes (p : Event -> bool) (b : bool) (options : Options)
    (l : list nat) :
  (forall i o, p (ElementCompute i o) = b) ->
  count_events p (map (fun i => ElementCompute i options) l) =
  if b then length l else 0.
Proof.
  intros Hp. unfold count_events.
  induction l as [|i l IH]; simpl; [destruct b; reflexivity|].
  rewrite Hp. destruct b; simpl; rewrite IH; reflexivity.
Qed.

Lemma compute_trace (options : Options) (store : DofStore) (s : System.t) :
  snd (System.compute options store s) =
  map (fun i => ElementCompute i options) (seq 0 (length (System.m_elements s))).
Proof. rewrite compute_unfold. reflexivity. Qed.

(* ================================================================== *)
(** * One iteration *)

Section Iteration.

Context {solver : LinearSolver}.
Variables (maxiter : Z) (rtol xtol : Q) (options : Options).

(** The system after "compute lhs and rhs" and "check residual". *)
Definition assembled (iteration : Z) (m : System.Machine) : System.t :=
  let s := fst (System.compute (set_iteration iteration options)
                  (System.dofstore m) (System.system m)) in
  System.set_m_residual (vec_sub (System.rhs s) (System.m_target s)) s.

Definition assembled_trace (iteration : Z) (m : System.Machine) : list Event :=
  System.trace m ++
  snd (System.compute (set_iteration iteration options)
         (System.dofstore m) (System.system m)) ++
  [StdoutIteration iteration].

(** The ways one pass through the loop body can go. *)
Inductive body_case (iteration : Z) (m : System.Machine) : System.Step -> Prop :=
| case_limit :
    (maxiter <= iteration)%Z ->
    body_case iteration m
      (System.Break
         {| System.system := System.set_m_stopping_reason 2 (System.system m);
            System.dofstore := System.dofstore m;
            System.trace := System.trace m |})
| case_residual :
    (iteration < maxiter)%Z ->
    norm_ltb (System.m_residual (assembled iteration m)) rtol = true ->
    body_case iteration m
      (System.Break
         {| System.system := System.set_m_stopping_reason 0 (assembled iteration m);
            System.dofstore := System.dofstore m;
            System.trace := assembled_trace iteration m |})
| case_null :
    (iteration < maxiter)%Z ->
    norm_ltb (System.m_residual (assembled iteration m)) rtol = false ->
    System.m_solver (System.system m) = None ->
    body_case iteration m
      (System.NullSolver
         {| System.system := assembled iteration m;
            System.dofstore := System.dofstore m;
            System.trace := assembled_trace iteration m |})
| case_throw kind :
    (iteration < maxiter)%Z ->
    norm_ltb (System.m_residual (assembled iteration m)) rtol = false ->
    System.m_solver (System.system m) = Some kind ->
    solver_solve kind (System.m_lhs (assembled iteration m))
      (System.m_residual (assembled iteration m))
      (System.m_x (System.system m)) = None ->
    body_case iteration m
      (System.Throw
         {| System.system := assembled iteration m;
            System.dofstore := System.dofstore m;
            System.trace := assembled_trace iteration m ++ [SetMatrix; Solve] |})
| case_step kind x :
    (iteration < maxiter)%Z ->
    norm_ltb (System.m_residual (assembled iteration m)) rtol = false ->
    System.m_solver (System.system m) = Some kind ->
    solver_solve kind (System.m_lhs (assembled iteration m))
      (System.m_residual (assembled iteration m))
      (System.m_x (System.system m)) = Some x ->
    norm_ltb x xtol = true ->
    body_case iteration m
      (System.Break
         {| System.system :=
              System.set_m_stopping_reason 1
                (System.set_m_x x (assembled iteration m));
            System.dofstore :=
              System.update_dofs (System.set_m_x x (assembled iteration m))
                (System.dofstore m);
            System.trace := assembled_trace iteration m ++ [SetMatrix; Solve] |})
| case_continue kind x :
    (iteration < maxiter)%Z ->
    norm_ltb (System.m_residual (assembled iteration m)) rtol = false ->
    System.m_solver (System.system m) = Some kind ->
    solver_solve kind (System.m_lhs (assembled iteration m))
      (System.m_residual (assembled iteration m))
      (System.m_x (System.system m)) = Some x ->
    norm_ltb x xtol = false ->
    body_case iteration m
      (System.Continue
         {| System.system := System.set_m_x x (assembled iteration m);
            System.dofstore :=
              System.update_dofs (System.set_m_x x (assembled iteration m))
                (System.dofstore m);
            System.trace := assembled_trace iteration m ++ [SetMatrix; Solve] |}).

Lemma iteration_body_case (iteration : Z) (m : System.Machine) :
  body_case iteration m
    (System.iteration_body maxiter rtol xtol options iteration m).
Proof.
  unfold System.iteration_body.
  destruct (Z.geb_spec iteration maxiter) as [Hge|Hlt].
  { apply case_limit. lia. }
  cbv zeta. fold (assembled iteration m).
  change (System.trace m ++
          snd (System.compute (set_iteration iteration options)
                 (System.dofstore m) (System.system m)) ++
          [StdoutIteration iteration]) with (assembled_trace iteration m).
  destruct (norm_ltb (System.m_residual (assembled iteration m)) rtol) eqn:Er.
  { apply case_residual; [lia | exact Er]. }
  change (System.m_solver (assembled iteration m))
    with (System.m_solver (System.system m)).
  change (System.m_x (assembled iteration m)) with (System.m_x (System.system m)).
  destruct (System.m_solver (System.system m)) as [kind|] eqn:Es.
  2:{ apply case_null; [lia | exact Er | exact Es]. }
  destruct (solver_solve kind _ _ _) as [x|] eqn:Ex.
  2:{ eapply case_throw; [lia | exact Er | exact Es | exact Ex]. }
  change (System.m_x (System.set_m_x x (assembled iteration m))) with x.
  destruct (norm_ltb x xtol) eqn:Ext.
  - eapply case_step; [lia | exact Er | exact Es | exact Ex | exact Ext].
  - eapply case_continue; [lia | exact Er | exact Es | exact Ex | exact Ext].
Qed.

(** The machines at the head of the loop: [iterates k m k' m'] when the
    passes [k], ..., [k' - 1] started from [m] all went round again and
    left [m']. *)
Inductive iterates : Z -> System.Machine -> Z -> System.Machine -> Prop :=
| iterates_here k m : iterates k m k m
| iterates_next k m k' m' m'' :
    System.iteration_body maxiter rtol xtol options k m = System.Continue m' ->
    iterates (k + 1)%Z m' k' m'' ->
    iterates k m k' m''.

(** The loop ends in the pass that broke out of it, or threw. *)
Lemma newton_loop_last (fuel : nat) (iteration : Z) (m : System.Machine)
    (o : Outcome System.Machine) :
  System.newton_loop fuel maxiter rtol xtol options iteration m = o ->
  o = OutOfFuel \/
  exists k before,
    iterates iteration m k before /\
    match System.iteration_body maxiter rtol xtol options k before with
    | System.Break m' => o = Returned m'
    | System.Throw m' => o = Raised SolverError m'
    | System.NullSolver m' => o = NullDereference m'
    | System.Continue _ => False
    end.
Proof.
  revert iteration m. induction fuel as [|fuel IH]; intros iteration m E; simpl in E.
  - left. auto.
  - destruct (System.iteration_body maxiter rtol xtol options iteration m)
      as [m1|m1|m1|m1] eqn:Eb.
    + destruct (IH _ _ E) as [H|(k & before & Hit & H)]; [left; exact H|].
      right. exists k, before. split; [|exact H].
      eapply iterates_next; eassumption.
    + right. exists iteration, m. split; [constructor|]. rewrite Eb. auto.
    + right. exists iteration, m. split; [constructor|]. rewrite Eb. auto.
    + right. exists iteration, m. split; [constructor|]. rewrite Eb. auto.
Qed.

(** The loop needs no more passes than [maxiter] allows. *)
Lemma newton_loop_fuel (fuel : nat) (iteration : Z) (m : System.Machine) :
  (Z.to_nat (maxiter - iteration) < fuel)%nat ->
  System.newton_loop fuel maxiter rtol xtol options iteration m <> OutOfFuel.
Proof.
  revert iteration m. induction fuel as [|fuel IH]; intros iteration m Hf; [lia|].
  simpl. destruct (iteration_body_case iteration m); try discriminate.
  apply IH. lia.
Qed.

Lemma trace_count (p : Event -> bool) (b : bool) (k : Z) (m : System.Machine) :
  (forall i o, p (ElementCompute i o) = b) ->
  count_events p (assembled_trace k m) =
  count_events p (System.trace m) +
  (if b then length (System.m_elements (System.system m)) else 0) +
  count_events p [StdoutIteration k].
Proof.
  intros Hp. unfold assembled_trace. rewrite compute_trace.
  rewrite !count_events_app, Nat.add_assoc. f_equal. f_equal.
  rewrite (@count_events_computes p b) by exact Hp.
  rewrite length_seq. reflexivity.
Qed.

(** Passes that went round again: each called the solver once. *)
Lemma iterates_counts (k : Z) (m : System.Machine) (k' : Z) (m' : System.Machine) :
  iterates k m k' m' ->
  (k <= k')%Z /\ (k < k' -> k' <= maxiter)%Z /\
  count_events is_solve (System.trace m') =
    count_events is_solve (System.trace m) + Z.to_nat (k' - k) /\
  count_events is_set_matrix (System.trace m') =
    count_events is_set_matrix (System.trace m) + Z.to_nat (k' - k) /\
  count_events is_residual_check (System.trace m') =
    count_events is_residual_check (System.trace m) + Z.to_nat (k' - k) /\
  count_events is_element_compute (System.trace m') =
    count_events is_element_compute (System.trace m) +
    Z.to_nat (k' - k) * length (System.m_elements (System.system m)) /\
  System.m_elements (System.system m') = System.m_elements (System.system m).
Proof.
  induction 1 as [k m|k m k' m' m'' Hb Hit IH].
  - rewrite Z.sub_diag. simpl. repeat split; try lia.
  - destruct IH as (I1 & I2 & I3 & I4 & I5 & I6 & I7).
    pose proof (iteration_body_case k m) as Hc. rewrite Hb in Hc.
    inversion Hc as [| | | | |kind x Hlt Hr Hs Hx Hxt E]; subst m'.
    cbn [System.trace System.system] in *.
    change (System.m_elements (System.set_m_x x (assembled k m)))
      with (System.m_elements (System.system m)) in *.
    rewrite count_events_app in I3, I4, I5, I6.
    rewrite (@trace_count is_solve false) in I3 by (intros; reflexivity).
    rewrite (@trace_count is_set_matrix false) in I4 by (intros; reflexivity).
    rewrite (@trace_count is_residual_check false) in I5 by (intros; reflexivity).
    rewrite (@trace_count is_element_compute true) in I6 by (intros; reflexivity).
    unfold count_events in I3, I4, I5, I6. simpl in I3, I4, I5, I6.
    replace (Z.to_nat (k' - k)) with (S (Z.to_nat (k' - (k + 1)))) by lia.
    unfold count_events. repeat split; try lia; try assumption.
Qed.

End Iteration.

(* ================================================================== *)
(** * The driver as a whole *)

Definition lambda_of (options : Options) : Q := get_or_default (opt_lambda options) 1%Q.
Definition maxiter_of (options : Options) : Z := get_or_default (opt_maxiter options) 100%Z.
Definition rtol_of (options : Options) : Q :=
  get_or_default (opt_rtol options) (1 # 10000000)%Q.
Definition xtol_of (options : Options) : Q :=
  get_or_default (opt_xtol options) (1 # 10000000)%Q.

(** The machine that enters the loop: the target has been set up. *)
Definition solve_start (options : Options) (m : System.Machine) : System.Machine :=
  {| System.system :=
       System.set_m_target
         (System.setup_target (lambda_of options) (System.dofstore m) (System.system m))
         (System.system m);
     System.dofstore := System.dofstore m;
     System.trace := System.trace m |}.

(** The machine [solve] returns when the loop was left through [break]. *)
Definition solve_finish (m : System.Machine) : System.Machine :=
  {| System.system := System.system m;
     System.dofstore := System.store_residuals (System.system m) (System.dofstore m);
     System.trace := System.trace m |}.

(** Passes through the whole of the loop body that this call of [solve]
    made: each ends with one call of the solver. *)
Definition iterations_run (m m' : System.Machine) : nat :=
  count_events is_solve (System.trace m') - count_events is_solve (System.trace m).

Section Driver.

Context {solver : LinearSolver}.

Lemma solve_unfold (options : Options) (m : System.Machine) :
  System.solve options m =
  match System.newton_loop (S (Z.to_nat (maxiter_of options))) (maxiter_of options)
          (rtol_of options) (xtol_of options) options 0%Z (solve_start options m) with
  | Returned m' => Returned (solve_finish m')
  | other => other
  end.
Proof. reflexivity. Qed.

(** [solve] ends in the pass that left the loop. *)
Lemma solve_last (options : Options) (m : System.Machine) :
  exists k before,
    iterates (maxiter_of options) (rtol_of options) (xtol_of options) options
      0%Z (solve_start options m) k before /\
    match System.iteration_body (maxiter_of options) (rtol_of options)
            (xtol_of options) options k before with
    | System.Break m' => System.solve options m = Returned (solve_finish m')
    | System.Throw m' => System.solve options m = Raised SolverError m'
    | System.NullSolver m' => System.solve options m = NullDereference m'
    | System.Continue _ => False
    end.
Proof.
  rewrite solve_unfold.
  destruct (@newton_loop_last solver (maxiter_of options) (rtol_of options)
              (xtol_of options) options (S (Z.to_nat (maxiter_of options))) 0%Z
              (solve_start options m) _ eq_refl) as [H|(k & before & Hit & H)].
  - exfalso. revert H. apply newton_loop_fuel. lia.
  - exists k, before. split; [exact Hit|].
    destruct (System.iteration_body _ _ _ _ k before); rewrite ?H; auto.
Qed.

Lemma solve_terminates (options : Options) (m : System.Machine) :
  System.solve options m <> OutOfFuel.
Proof.
  destruct (solve_last options m) as (k & before & _ & H).
  destruct (System.iteration_body _ _ _ _ k before); try rewrite H; try discriminate.
  contradiction.
Qed.

(** ** What every pass keeps *)

Lemma assembly_ready_ext (s s' : System.t) :
  System.m_lhs s' = System.m_lhs s -> System.m_rhs s' = System.m_rhs s ->
  System.m_index_table s' = System.m_index_table s ->
  System.m_nb_free_dofs s' = System.m_nb_free_dofs s ->
  assembly_ready s -> assembly_ready s'.
Proof.
  intros E1 E2 E3 E4 [H1 H2 H3]. unfold System.nb_free_dofs in *.
  constructor; unfold System.nb_free_dofs; rewrite ?E1, ?E2, ?E3, ?E4; assumption.
Qed.

Lemma assembled_ready (options : Options) (k : Z) (m : System.Machine) :
  assembly_ready (System.system m) -> assembly_ready (assembled options k m).
Proof.
  intros H. unfold assembled. cbv zeta.
  eapply assembly_ready_ext; [| | | |apply compute_ready; exact H]; reflexivity.
Qed.

Lemma iteration_body_ready maxiter rtol xtol options k m :
  assembly_ready (System.system m) ->
  assembly_ready
    (System.system (step_machine (System.iteration_body maxiter rtol xtol options k m))).
Proof.
  intros H. pose proof (assembled_ready options k m H) as Ha.
  destruct (iteration_body_case maxiter rtol xtol options k m); simpl;
    try exact Ha;
    first [ solve [eapply assembly_ready_ext; [| | | |exact Ha]; reflexivity]
          | solve [eapply assembly_ready_ext; [| | | |exact H]; reflexivity] ].
Qed.

Lemma iterates_ready maxiter rtol xtol options k m k' m' :
  iterates maxiter rtol xtol options k m k' m' ->
  assembly_ready (System.system m) -> assembly_ready (System.system m').
Proof.
  induction 1 as [|k m k' m' m'' Hb Hit IH]; intros H; [exact H|].
  apply IH. pose proof (iteration_body_ready maxiter rtol xtol options k m H) as Hr.
  rewrite Hb in Hr. exact Hr.
Qed.

Lemma solve_ready (options : Options) (m m' : System.Machine) :
  outcome_machine (System.solve options m) = Some m' ->
  assembly_ready (System.system m) -> assembly_ready (System.system m').
Proof.
  intros E H. destruct (solve_last options m) as (k & before & Hit & Hl).
  assert (Hs : assembly_ready (System.system (solve_start options m))).
  { eapply assembly_ready_ext; [| | | |exact H]; reflexivity. }
  pose proof (iterates_ready Hit Hs) as Hb.
  pose proof (iteration_body_ready (maxiter_of options) (rtol_of options)
                (xtol_of options) options k before Hb) as Hr.
  destruct (System.iteration_body _ _ _ _ k before) as [m1|m1|m1|m1];
    try contradiction; rewrite Hl in E; simpl in E; injection E as <-; exact Hr.
Qed.

Lemma iteration_body_skeleton maxiter rtol xtol options k m :
  assembly_ready (System.system m) ->
  same_skeleton (System.m_lhs (System.system m))
    (System.m_lhs
       (System.system (step_machine (System.iteration_body maxiter rtol xtol options k m)))).
Proof.
  intros H.
  assert (Ha : same_skeleton (System.m_lhs (System.system m))
                 (System.m_lhs (assembled options k m))).
  { unfold assembled. cbv zeta.
    apply (compute_skeleton (set_iteration k options) (System.dofstore m) H). }
  destruct (iteration_body_case maxiter rtol xtol options k m); simpl;
    first [exact Ha | apply same_skeleton_refl].
Qed.

Lemma iterates_skeleton maxiter rtol xtol options k m k' m' :
  iterates maxiter rtol xtol options k m k' m' ->
  assembly_ready (System.system m) ->
  same_skeleton (System.m_lhs (System.system m)) (System.m_lhs (System.system m')).
Proof.
  induction 1 as [|k m k' m' m'' Hb Hit IH]; intros H; [apply same_skeleton_refl|].
  pose proof (iteration_body_ready maxiter rtol xtol options k m H) as Hr.
  pose proof (iteration_body_skeleton maxiter rtol xtol options k m H) as Hs.
  rewrite Hb in Hr, Hs. simpl in Hr, Hs.
  eapply same_skeleton_trans; [exact Hs | apply IH; exact Hr].
Qed.

Lemma solve_skeleton (options : Options) (m m' : System.Machine) :
  outcome_machine (System.solve options m) = Some m' ->
  assembly_ready (System.system m) ->
  same_skeleton (System.m_lhs (System.system m)) (System.m_lhs (System.system m')).
Proof.
  intros E H. destruct (solve_last options m) as (k & before & Hit & Hl).
  assert (Hs : assembly_ready (System.system (solve_start options m))).
  { eapply assembly_ready_ext; [| | | |exact H]; reflexivity. }
  pose proof (iterates_ready Hit Hs) as Hb.
  pose proof (iterates_skeleton Hit Hs) as Hk.
  pose proof (iteration_body_skeleton (maxiter_of options) (rtol_of options)
                (xtol_of options) options k before Hb) as Hr.
  change (System.m_lhs (System.system (solve_start options m)))
    with (System.m_lhs (System.system m)) in Hk.
  destruct (System.iteration_body _ _ _ _ k before) as [m1|m1|m1|m1];
    try contradiction; rewrite Hl in E; simpl in E; injection E as <-;
    eapply same_skeleton_trans; eassumption.
Qed.

(** ** From construction on *)

Lemma operation_invariant (m m' : System.Machine) :
  operation m m' ->
  assembly_ready (System.system m) ->
  same_layout (System.system m) (System.system m') /\
  assembly_ready (System.system m') /\
  same_skeleton (System.m_lhs (System.system m)) (System.m_lhs (System.system m')) /\
  forall d, isfixed (System.dofstore m') d = isfixed (System.dofstore m) d /\
            target (System.dofstore m') d = target (System.dofstore m) d.
Proof.
  intros Hop Hr. destruct Hop as [options m|order options m Hp|options m m' E|options e m m' E].
  - split; [apply compute_same_layout|]. split; [apply compute_ready; exact Hr|].
    split; [apply (compute_skeleton options (System.dofstore m) Hr)|].
    intros d. split; reflexivity.
  - destruct (compute_parallel_skeleton order options (System.dofstore m) Hr) as [Hs Hl].
    split; [apply compute_parallel_same_layout|]. split.
    + eapply assembly_ready_transfer; eauto. apply compute_parallel_same_layout.
    + split; [exact Hs|]. intros d. split; reflexivity.
  - assert (E' : outcome_machine (System.solve options m) = Some m')
      by (rewrite E; reflexivity).
    destruct (solve_framed _ _ E') as [L F]. split; [exact L|].
    split; [eapply solve_ready; eassumption|].
    split; [eapply solve_skeleton; eassumption | exact F].
  - assert (E' : outcome_machine (System.solve options m) = Some m')
      by (rewrite E; reflexivity).
    destruct (solve_framed _ _ E') as [L F]. split; [exact L|].
    split; [eapply solve_ready; eassumption|].
    split; [eapply solve_skeleton; eassumption | exact F].
Qed.

Lemma operations_invariant (m m' : System.Machine) :
  operations m m' ->
  assembly_ready (System.system m) ->
  same_layout (System.system m) (System.system m') /\
  assembly_ready (System.system m') /\
  same_skeleton (System.m_lhs (System.system m)) (System.m_lhs (System.system m')) /\
  forall d, isfixed (System.dofstore m') d = isfixed (System.dofstore m) d /\
            target (System.dofstore m') d = target (System.dofstore m) d.
Proof.
  induction 1 as [m|m m' m'' Hops IH Hop]; intros Hr.
  - split; [apply same_layout_refl|]. split; [exact Hr|].
    split; [apply same_skeleton_refl|]. intros d. split; reflexivity.
  - destruct (IH Hr) as (L & R & K & F).
    destruct (operation_invariant Hop R) as (L' & R' & K' & F').
    split; [eapply same_layout_trans; eassumption|]. split; [exact R'|].
    split; [eapply same_skeleton_trans; eassumption|].
    intros d. destruct (F d), (F' d). split; congruence.
Qed.

End Driver.

Section ConstructReady.

Context {sorter : System.StdSort}.
Variables (junk : System.Uninitialized) (store : DofStore)
          (elements : list Element.t) (options : Options).

Lemma construct_ready :
  assembly_ready (fst (System.construct junk store elements options)).
Proof.
  constructor.
  - unfold sorted_columns. rewrite construct_structure, construct_m_pattern.
    apply analyze_pattern_spec.
  - intros T HT row col Hp. apply construct_structural. exists T. split; assumption.
  - apply construct_m_rhs_length.
Qed.

Lemma constructed_ready (m : System.Machine) :
  constructed junk store elements options m ->
  System.system m = fst (System.construct junk store elements options) /\
  System.dofstore m = store /\ System.trace m = [AnalyzePattern] /\
  assembly_ready (System.system m).
Proof.
  intros (s & tr & E & ->). apply make_Returned in E. destruct E as (-> & _ & ->).
  simpl. split; [reflexivity|]. split; [reflexivity|]. split; [reflexivity|].
  apply construct_ready.
Qed.

End ConstructReady.

(* ================================================================== *)
(** * Scenarios *)

Module Scenario.

Definition free_variable : DofVariable :=
  {| var_delta := 0; var_target := 0; var_isfixed := false; var_residual := 0 |}.
Definition fixed_variable : DofVariable :=
  {| var_delta := 0; var_target := 0; var_isfixed := true; var_residual := 0 |}.

Definition junk : System.Uninitialized :=
  {| System.junk_vector := fun _ _ => 7%Q; System.junk_int := (-1)%Z |}.

(** One element over one free DoF, with constant [[2]] and [1]. *)
Definition all_free : DofStore := fun _ => free_variable.
Definition linear_element : Element.t :=
  {| Element.dofs := [0]; Element.compute := fun _ _ => ([[2%Q]], [1%Q]) |}.

(** Three DoFs, the middle one fixed, under two elements that share one. *)
Definition middle_fixed : DofStore :=
  fun d => if d =? 2 then fixed_variable else free_variable.
Definition triangle : Element.t :=
  {| Element.dofs := [1; 2; 3];
     Element.compute := fun _ _ =>
       ([[1; 2; 3]; [2; 5; 6]; [3; 6; 9]]%Q, [1; 2; 3]%Q) |}.
Definition bar : Element.t :=
  {| Element.dofs := [3; 4];
     Element.compute := fun _ _ => ([[10; 20]; [20; 40]]%Q, [10; 20]%Q) |}.

(** The machine right after a construction. *)
Definition machine {sorter : System.StdSort} (store : DofStore)
    (elements : list Element.t) : System.Machine :=
  {| System.system := fst (System.construct junk store elements no_options);
     System.dofstore := store;
     System.trace := [AnalyzePattern] |}.

Definition with_maxiter (k : Z) : Options :=
  {| opt_linear_solver := None; opt_lambda := None; opt_maxiter := Some k;
     opt_rtol := None; opt_xtol := None; opt_iteration := None |}.

Definition with_xtol (maxiter : Z) (xtol : Q) : Options :=
  {| opt_linear_solver := None; opt_lambda := None; opt_maxiter := Some maxiter;
     opt_rtol := None; opt_xtol := Some xtol; opt_iteration := None |}.

Definition with_solver (name : string) : Options :=
  {| opt_linear_solver := Some name; opt_lambda := None; opt_maxiter := None;
     opt_rtol := None; opt_xtol := None; opt_iteration := None |}.

(** The machine an outcome carries, or [m] when it carries none. *)
Definition result (m : System.Machine) (o : Outcome System.Machine) : System.Machine :=
  match o with
  | Returned m' | Raised _ m' | NullDereference m' => m'
  | OutOfFuel => m
  end.

End Scenario.

Lemma scenario_constructed (store : DofStore) (elements : list Element.t) :
  constructed (sorter := merge_sort) Scenario.junk store elements no_options
    (Scenario.machine (sorter := merge_sort) store elements).
Proof.
  exists (fst (System.construct (sorter := merge_sort) Scenario.junk store elements no_options)),
         [AnalyzePattern].
  split; reflexivity.
Defined.

(* ================================================================== *)
(** * The DoF update *)

Lemma delta_set_delta (d : Dof) (v : Q) (st : DofStore) (d' : Dof) :
  delta (set_delta d v st) d' = if d' =? d then v else delta st d'.
Proof. unfold delta, set_delta. cbv zeta. destruct (d' =? d); reflexivity. Qed.

Lemma residual_set_residual (d : Dof) (v : Q) (st : DofStore) (d' : Dof) :
  residual (set_residual d v st) d' = if d' =? d then v else residual st d'.
Proof. unfold residual, set_residual. cbv zeta. destruct (d' =? d); reflexivity. Qed.

(** Every free DoF loses its entry of [m_x]; no other variable moves. *)
Lemma update_dofs_delta (s : System.t) (st : DofStore) :
  NoDup (System.m_dofs s) ->
  System.nb_free_dofs s <= length (System.m_dofs s) ->
  (forall i, i < System.nb_free_dofs s ->
     delta (System.update_dofs s st) (nth i (System.m_dofs s) 0) =
     (delta st (nth i (System.m_dofs s) 0%nat) - vec_get (System.m_x s) i)%Q) /\
  (forall d, ~ In d (firstn (System.nb_free_dofs s) (System.m_dofs s)) ->
     delta (System.update_dofs s st) d = delta st d).
Proof.
  intros Hnd HF. unfold System.update_dofs.
  set (dofs := System.m_dofs s) in *. set (F := System.nb_free_dofs s) in *.
  pose (Inv := fun (k : nat) (st' : DofStore) =>
    (forall i, i < k ->
       delta st' (nth i dofs 0) =
       (delta st (nth i dofs 0%nat) - vec_get (System.m_x s) i)%Q) /\
    (forall d, (forall i, i < k -> nth i dofs 0 <> d) -> delta st' d = delta st d)).
  match goal with
  | |- (forall i, i < F -> delta (for_range 0 F ?body st) _ = _) /\ _ =>
      assert (H : Inv F (for_range 0 F body st))
  end.
  { apply for_range_inv with (P := Inv); [lia| |].
    - split; [intros; lia | reflexivity].
    - intros k st' Hk [H1 H2]. split.
      + intros i Hi. rewrite delta_set_delta.
        destruct (Nat.eqb_spec (nth i dofs 0) (nth k dofs 0)) as [E|Hne].
        * apply (proj1 (NoDup_nth dofs 0) Hnd) in E; [|lia|lia]. subst i.
          rewrite H2; [reflexivity|]. intros j Hj E'.
          apply (proj1 (NoDup_nth dofs 0) Hnd) in E'; lia.
        * apply H1. destruct (Nat.eq_dec i k); [subst; congruence | lia].
      + intros d Hd. rewrite delta_set_delta.
        destruct (Nat.eqb_spec d (nth k dofs 0)) as [E|Hne].
        * exfalso. apply (Hd k); [lia | congruence].
        * apply H2. intros i Hi. apply Hd. lia. }
  destruct H as [H1 H2]. split; [exact H1|].
  intros d Hd. apply H2. intros i Hi E. apply Hd. subst d.
  rewrite <- (firstn_skipn F dofs) at 1. rewrite app_nth1.
  - apply nth_In. rewrite length_firstn. lia.
  - rewrite length_firstn. lia.
Qed.

Lemma assemble_elements_layout (options : Options) (store : DofStore)
    (s s' : System.t) (indices : list nat) (acc : Sparse * Vector) :
  same_layout s s' ->
  assemble_elements options store s' indices acc =
  assemble_elements options store s indices acc.
Proof.
  intros L. unfold assemble_elements, for_each. f_equal.
  unfold System.assemble_element, System.nb_free_dofs.
  rewrite (sl_elements L), (sl_index_table L), (sl_nb_free L). reflexivity.
Qed.

(** What [compute] leaves depends on the layout, on the structure of the
    left-hand side and on the size of the right-hand side only. *)
Lemma compute_values_ext (options : Options) (store : DofStore) (s s' : System.t) :
  same_layout s s' ->
  same_skeleton (System.m_lhs s) (System.m_lhs s') ->
  length (System.m_rhs s') = length (System.m_rhs s) ->
  System.m_lhs (fst (System.compute options store s')) =
  System.m_lhs (fst (System.compute options store s)) /\
  System.m_rhs (fst (System.compute options store s')) =
  System.m_rhs (fst (System.compute options store s)).
Proof.
  intros L K Hl. rewrite !compute_unfold. cbv zeta.
  cbn [fst System.m_lhs System.m_rhs System.set_m_lhs_rhs].
  rewrite (Sparse_setZero_skeleton K), (sl_elements L).
  rewrite (setZero_repeat (System.m_rhs s')), Hl, <- setZero_repeat.
  rewrite (assemble_elements_layout options store _ _ L). split; reflexivity.
Qed.

Section Claims.

Context {sorter : System.StdSort} {solver : LinearSolver}.

Lemma iterates_framed maxiter rtol xtol options k m k' m' :
  iterates maxiter rtol xtol options k m k' m' -> framed m m'.
Proof.
  induction 1 as [|k m k' m' m'' Hb Hit IH]; [apply framed_refl|].
  eapply framed_trans; [|exact IH].
  pose proof (iteration_body_framed maxiter rtol xtol options k m) as Hf.
  rewrite Hb in Hf. exact Hf.
Qed.

(** C8.  After construction the DoFs at the indices below [F] are free and
    those at the indices from [F] to [N] are fixed, by the flags read at
    construction; whatever is called afterwards, the DoF vector and [F]
    stay as they are and the partition holds of the current flags too. *)
Theorem free_fixed_partition junk store elements options m0 m :
  constructed junk store elements options m0 ->
  operations m0 m ->
  let s := System.system m in
  System.m_dofs s = System.m_dofs (System.system m0) /\
  System.nb_free_dofs s = System.nb_free_dofs (System.system m0) /\
  (forall i, i < System.nb_free_dofs s ->
     isfixed store (nth i (System.m_dofs s) 0) = false) /\
  (forall i, System.nb_free_dofs s <= i < System.nb_dofs s ->
     isfixed store (nth i (System.m_dofs s) 0) = true) /\
  partitioned (System.dofstore m) s.
Proof.
  intros Hc Hops s.
  destruct (constructed_ready Hc) as (Es & Est & _ & Hr).
  destruct (operations_invariant Hops Hr) as (L & _ & _ & F).
  pose proof (construct_partitioned junk store elements options) as Hp.
  rewrite <- Es in Hp.
  assert (Hp' : partitioned store s).
  { unfold partitioned, s, System.nb_free_dofs, System.nb_dofs in *.
    rewrite (sl_dofs L), (sl_nb_free L). exact Hp. }
  split; [apply (sl_dofs L)|]. split; [apply (sl_nb_free L)|].
  split; [intros i Hi; apply (Hp' i); exact Hi|].
  split; [intros i Hi; apply (Hp' i); exact Hi|].
  intros i. destruct (Hp' i) as [H1 H2].
  split; intros Hi; destruct (F (nth i (System.m_dofs s) 0)) as [Ff _];
    fold s in Ff; rewrite Ff, Est; auto.
Qed.

(** C2.  The structural nonzeros of the left-hand side are exactly the
    pairs of global indices that some element's sorted index table holds
    at positions [r <= c], both below [F]; none of them lies below the
    diagonal.  This holds after construction and after any later call. *)
Theorem pattern_exact junk store elements options m0 m :
  constructed junk store elements options m0 ->
  operations m0 m ->
  let s := System.system m in
  (forall row col,
     structural (System.m_lhs s) row col <->
     exists T, In T (System.m_index_table s) /\
               free_pair (System.nb_free_dofs s) T row col) /\
  (forall row col, structural (System.m_lhs s) row col ->
     row <= col /\ col < System.nb_free_dofs s).
Proof.
  intros Hc Hops s.
  destruct (constructed_ready Hc) as (Es & _ & _ & Hr).
  destruct (operations_invariant Hops Hr) as (L & _ & (K & _) & _).
  assert (E : forall row col,
            structural (System.m_lhs s) row col <->
            structural (System.m_lhs (fst (System.construct junk store elements options)))
              row col).
  { intros row col. unfold structural. fold s in K. rewrite K, Es. tauto. }
  assert (Hiff : forall row col,
            structural (System.m_lhs s) row col <->
            exists T, In T (System.m_index_table s) /\
                      free_pair (System.nb_free_dofs s) T row col).
  { intros row col. rewrite E, construct_structural.
    unfold s, System.nb_free_dofs. rewrite (sl_index_table L), (sl_nb_free L), Es.
    tauto. }
  split; [exact Hiff|].
  intros row col H. split.
  - apply E in H. eapply construct_upper. exact H.
  - apply Hiff in H. destruct H as (T & _ & r & c & _ & _ & _ & _ & Hcol). exact Hcol.
Qed.

(** C6.  Called [n >= 1] times in a row on a system whose DoF values do
    not change in between, [compute] leaves after every call the left-hand
    side and the right-hand side it left after the first. *)
Theorem compute_idempotent junk store elements coptions m0 m options n :
  constructed junk store elements coptions m0 ->
  operations m0 m ->
  1 <= n ->
  let first := after_compute options m in
  let last := Nat.iter n (after_compute options) m in
  System.m_lhs (System.system last) = System.m_lhs (System.system first) /\
  System.m_rhs (System.system last) = System.m_rhs (System.system first).
Proof.
  intros Hc Hops Hn first last.
  destruct (constructed_ready Hc) as (_ & _ & _ & Hr0).
  destruct (operations_invariant Hops Hr0) as (_ & Hr & _).
  assert (G : forall k,
            let mk := Nat.iter k (after_compute options) m in
            same_layout (System.system m) (System.system mk) /\
            same_skeleton (System.m_lhs (System.system m)) (System.m_lhs (System.system mk)) /\
            length (System.m_rhs (System.system mk)) = length (System.m_rhs (System.system m)) /\
            System.dofstore mk = System.dofstore m).
  { induction k as [|k IH]; cbv zeta.
    - simpl. split; [apply same_layout_refl|]. split; [apply same_skeleton_refl|].
      split; reflexivity.
    - destruct IH as (L & K & Hl & Hd).
      set (mk := Nat.iter k (after_compute options) m) in *.
      change (Nat.iter (S k) (after_compute options) m) with (after_compute options mk).
      assert (Hrk : assembly_ready (System.system mk))
        by (eapply assembly_ready_transfer; eassumption).
      destruct (compute_skeleton options (System.dofstore mk) Hrk) as [K' Hl'].
      unfold after_compute. cbn [System.system System.dofstore].
      split; [eapply same_layout_trans; [exact L | apply compute_same_layout]|].
      split; [eapply same_skeleton_trans; eassumption|].
      split; [congruence | exact Hd]. }
  destruct n as [|n]; [lia|]. destruct (G n) as (L & K & Hl & Hd).
  subst last first.
  change (Nat.iter (S n) (after_compute options) m)
    with (after_compute options (Nat.iter n (after_compute options) m)).
  unfold after_compute at 1 3 4 6. cbn [System.system]. rewrite Hd.
  apply compute_values_ext; assumption.
Qed.

End Claims.

Lemma store_residuals_delta (s : System.t) (st : DofStore) (d : Dof) :
  delta (System.store_residuals s st) d = delta st d.
Proof. apply store_residuals_frame. Qed.

Section DriverClaims.

Context {sorter : System.StdSort} {solver : LinearSolver}.

(** The stopping property as the specification words it: on
    [IterationLimit], exactly [maxiter] passes ran. *)
Definition stopping_as_stated : Prop :=
  forall (any_solver : LinearSolver) options m m',
    System.solve (solver := any_solver) options m = Returned m' ->
    let s' := System.system m' in
    (System.m_stopping_reason s' = 0%Z ->
       (norm (vec_sub (System.rhs s') (System.m_target s')) < Q2R (rtol_of options))%R) /\
    (System.m_stopping_reason s' = 1%Z ->
       (norm (System.m_x s') < Q2R (xtol_of options))%R) /\
    (System.m_stopping_reason s' = 2%Z ->
       Z.of_nat (iterations_run m m') = maxiter_of options).

(** C1, as amended.  When [solve] returns: with reason 0 the norm of
    [rhs - target] is below [rtol]; with reason 1 the norm of the last
    correction is below [xtol]; with reason 2 exactly [max(maxiter, 0)]
    passes ran, each with its assembly, its residual check, its
    [set_matrix] and its [solve], and no pass was begun besides. *)
Theorem stopping_correct options m m' :
  System.solve options m = Returned m' ->
  let s' := System.system m' in
  (System.m_stopping_reason s' = 0%Z ->
     (norm (vec_sub (System.rhs s') (System.m_target s')) < Q2R (rtol_of options))%R) /\
  (System.m_stopping_reason s' = 1%Z ->
     (norm (System.m_x s') < Q2R (xtol_of options))%R) /\
  (System.m_stopping_reason s' = 2%Z ->
     Z.of_nat (iterations_run m m') = Z.max 0 (maxiter_of options) /\
     count_events is_residual_check (System.trace m') =
       count_events is_residual_check (System.trace m) + iterations_run m m' /\
     count_events is_set_matrix (System.trace m') =
       count_events is_set_matrix (System.trace m) + iterations_run m m' /\
     count_events is_element_compute (System.trace m') =
       count_events is_element_compute (System.trace m) +
       iterations_run m m' * length (System.m_elements (System.system m))).
Proof.
  intros E s'. destruct (solve_last options m) as (k & before & Hit & Hl).
  pose proof (iteration_body_case (maxiter_of options) (rtol_of options)
                (xtol_of options) options k before) as Hc.
  destruct (iterates_counts Hit) as (C1 & C2 & C3 & C4 & C5 & C6 & C7).
  cbn [solve_start System.trace System.system System.set_m_target
       System.m_elements] in C3, C4, C5, C6, C7.
  destruct Hc as [Hge|Hlt Hr|Hlt Hr Hs|kind Hlt Hr Hs Hx|kind x Hlt Hr Hs Hx Hxt
                  |kind x Hlt Hr Hs Hx Hxt];
    try contradiction; rewrite Hl in E; try discriminate;
    injection E as <-; subst s'; cbn [solve_finish System.system System.trace
      System.m_stopping_reason System.set_m_stopping_reason System.m_x
      System.set_m_x System.rhs System.m_rhs System.m_target].
  - split; [discriminate|]. split; [discriminate|]. intros _.
    unfold iterations_run. cbn [solve_finish System.trace].
    rewrite C3, C4, C5, C6.
    replace (count_events is_solve (System.trace m) + Z.to_nat (k - 0) -
             count_events is_solve (System.trace m)) with (Z.to_nat (k - 0)) by lia.
    repeat split; lia.
  - split; [|split; discriminate]. intros _. apply norm_ltb_spec. exact Hr.
  - split; [discriminate|]. split; [|discriminate]. intros _.
    apply norm_ltb_spec. exact Hxt.
Qed.

(** C9.  With [maxiter <= 0], [solve] returns with reason 2 after no call
    at all of an element's [compute] or of the solver, and with every
    [delta], the left-hand side, the right-hand side and [m_x] as they
    were. *)
Theorem nonpositive_maxiter options m :
  (maxiter_of options <= 0)%Z ->
  exists m',
    System.solve options m = Returned m' /\
    System.m_stopping_reason (System.system m') = 2%Z /\
    System.trace m' = System.trace m /\
    (forall d, delta (System.dofstore m') d = delta (System.dofstore m) d) /\
    System.m_lhs (System.system m') = System.m_lhs (System.system m) /\
    System.m_rhs (System.system m') = System.m_rhs (System.system m) /\
    System.m_x (System.system m') = System.m_x (System.system m).
Proof.
  intros Hmax. rewrite solve_unfold. cbn [System.newton_loop].
  unfold System.iteration_body.
  destruct (Z.geb_spec 0 (maxiter_of options)) as [_|Hlt]; [|lia].
  eexists. split; [reflexivity|].
  cbn [solve_finish solve_start System.system System.trace System.dofstore
       System.m_stopping_reason System.set_m_stopping_reason System.m_lhs
       System.m_rhs System.m_x System.set_m_target].
  repeat split. intros d. apply store_residuals_frame.
Qed.

(** C10.  When [solve] returns with reason 1, the correction [x] that the
    solver gave in the last pass, whose norm is below [xtol], has been
    subtracted from the [delta] of every free DoF: the values on return
    are those at the head of that pass minus [x]. *)
Theorem step_exit_applies_correction junk store elements coptions m0 m options m' :
  constructed junk store elements coptions m0 ->
  operations m0 m ->
  System.solve options m = Returned m' ->
  System.m_stopping_reason (System.system m') = 1%Z ->
  exists k before kind,
    iterates (maxiter_of options) (rtol_of options) (xtol_of options) options
      0%Z (solve_start options m) k before /\
    System.m_solver (System.system before) = Some kind /\
    solver_solve kind (System.m_lhs (assembled options k before))
      (System.m_residual (assembled options k before))
      (System.m_x (System.system before)) = Some (System.m_x (System.system m')) /\
    (norm (System.m_x (System.system m')) < Q2R (xtol_of options))%R /\
    forall i, i < System.nb_free_dofs (System.system m') ->
      delta (System.dofstore m') (nth i (System.m_dofs (System.system m')) 0) =
      (delta (System.dofstore before) (nth i (System.m_dofs (System.system m')) 0%nat)
       - vec_get (System.m_x (System.system m')) i)%Q.
Proof.
  intros Hc Hops E Hreason.
  destruct (constructed_ready Hc) as (Es & _ & _ & Hr0).
  destruct (operations_invariant Hops Hr0) as (L & _ & _ & _).
  destruct (solve_last options m) as (k & before & Hit & Hl).
  destruct (iterates_framed Hit) as (Lb & _ & _).
  cbn [solve_start System.system] in Lb.
  assert (Hdofs : System.m_dofs (System.system before) =
                  System.m_dofs (fst (System.construct junk store elements coptions)) /\
                  System.m_nb_free_dofs (System.system before) =
                  System.m_nb_free_dofs (fst (System.construct junk store elements coptions))).
  { rewrite <- Es. destruct L, Lb. simpl in *. split; congruence. }
  destruct Hdofs as [Hd HF].
  pose proof (iteration_body_case (maxiter_of options) (rtol_of options)
                (xtol_of options) options k before) as Hcase.
  destruct Hcase as [Hge|Hlt Hr|Hlt Hr Hs|kind Hlt Hr Hs Hx|kind x Hlt Hr Hs Hx Hxt
                     |kind x Hlt Hr Hs Hx Hxt];
    try contradiction; rewrite Hl in E; try discriminate;
    injection E as <-; cbn [solve_finish System.system System.m_stopping_reason
      System.set_m_stopping_reason] in Hreason; try discriminate.
  exists k, before, kind. split; [exact Hit|]. split; [exact Hs|].
  cbn [solve_finish System.system System.dofstore System.m_x System.set_m_x
       System.set_m_stopping_reason System.m_dofs System.nb_free_dofs
       System.m_nb_free_dofs].
  split; [exact Hx|]. split; [apply norm_ltb_spec; exact Hxt|].
  intros i Hi. rewrite store_residuals_delta.
  destruct (@update_dofs_delta (System.set_m_x x (assembled options k before))
              (System.dofstore before)) as [Hupd _].
  - change (NoDup (System.m_dofs (System.system before))).
    rewrite Hd. apply construct_NoDup.
  - change (System.m_nb_free_dofs (System.system before)
            <= length (System.m_dofs (System.system before))).
    rewrite Hd, HF, construct_m_dofs, construct_nb_free, length_app. lia.
  - apply (Hupd i). exact Hi.
Qed.

(** C7.  When the element list is empty, or every DoF of every element is
    fixed, construction with a known solver name succeeds with [F = 0],
    and [solve] with [maxiter >= 1] and [rtol > 0] returns with reason 0
    in the pass of iteration 0: one assembly, one residual check, no call
    of the solver. *)
Theorem degenerate_system junk store elements coptions :
  (forall e d, In e elements -> In d (Element.dofs e) -> isfixed store d = true) ->
  (get_or_default (opt_linear_solver coptions) "ldlt" = "ldlt" \/
   get_or_default (opt_linear_solver coptions) "ldlt" = "lsmr")%string ->
  exists s tr,
    System.make junk store elements coptions = Returned (s, tr) /\
    System.nb_free_dofs s = 0 /\
    forall options store' tr0,
      (1 <= maxiter_of options)%Z -> (0 < rtol_of options)%Q ->
      exists m',
        System.solve options
          {| System.system := s; System.dofstore := store'; System.trace := tr0 |}
        = Returned m' /\
        System.m_stopping_reason (System.system m') = 0%Z /\
        System.trace m' =
          tr0 ++ map (fun i => ElementCompute i (set_iteration 0 options))
                   (seq 0 (length elements)) ++ [StdoutIteration 0].
Proof.
  intros Hfixed Hname.
  set (s := fst (System.construct junk store elements coptions)).
  assert (Hsolver : System.m_solver s <> None).
  { unfold s. rewrite construct_m_solver. unfold System.setup_solver.
    destruct Hname as [-> | ->]; simpl; discriminate. }
  assert (HF : System.nb_free_dofs s = 0).
  { unfold System.nb_free_dofs, s. rewrite construct_nb_free.
    destruct (unique_dofs_inv store elements) as [[_ _ Hfree _] Hcov].
    fold (free_dofs_of store elements) in Hfree.
    destruct (free_dofs_of store elements) as [|d free] eqn:Efree; [reflexivity|].
    exfalso. inversion Hfree as [|? ? Hd _]; subst.
    assert (Hin : In d (concat (map Element.dofs elements))).
    { apply Hcov. left. reflexivity. }
    apply in_concat in Hin. destruct Hin as (ds & Hds & Hin).
    apply in_map_iff in Hds. destruct Hds as (e & <- & He).
    rewrite (Hfixed e d He Hin) in Hd. discriminate. }
  exists s, [AnalyzePattern]. split.
  { unfold System.make. fold s. destruct (System.m_solver s) eqn:Es; [|congruence].
    f_equal. f_equal. unfold System.construct. cbn [snd].
    unfold s in Es. rewrite construct_m_solver in Es. unfold System.setup_solver in *.
    destruct (String.eqb _ "ldlt"); [reflexivity|].
    destruct (String.eqb _ "lsmr"); [reflexivity | discriminate]. }
  split; [exact HF|].
  intros options store' tr0 Hmax Hrtol.
  set (m := {| System.system := s; System.dofstore := store'; System.trace := tr0 |}).
  pose proof (construct_ready junk store elements coptions) as Hr. fold s in Hr.
  assert (Hres : System.m_residual (assembled options 0 (solve_start options m)) = []).
  { unfold assembled. cbv zeta. cbn [System.m_residual System.set_m_residual].
    unfold System.rhs.
    assert (Hs : assembly_ready (System.system (solve_start options m))).
    { eapply assembly_ready_ext; [| | | |exact Hr]; reflexivity. }
    destruct (compute_skeleton (set_iteration 0 options)
                (System.dofstore (solve_start options m)) Hs) as [_ Hl].
    pose proof (ar_rhs Hr) as Hrl. rewrite HF in Hrl.
    change (length (System.m_rhs (System.system (solve_start options m))))
      with (length (System.m_rhs s)) in Hl.
    rewrite Hrl in Hl. unfold vec_sub. rewrite Hl. reflexivity. }
  rewrite solve_unfold. cbn [System.newton_loop].
  pose proof (iteration_body_case (maxiter_of options) (rtol_of options)
                (xtol_of options) options 0 (solve_start options m)) as Hcase.
  destruct Hcase as [Hge|Hlt Hrr|Hlt Hrr Hs|kind Hlt Hrr Hs Hx|kind x Hlt Hrr Hs Hx Hxt
                     |kind x Hlt Hrr Hs Hx Hxt];
    try lia;
    try (rewrite Hres, norm_ltb_empty in Hrr by exact Hrtol; discriminate).
  eexists. split; [reflexivity|]. split; [reflexivity|].
  cbn [solve_finish System.trace]. unfold assembled_trace.
  rewrite compute_trace. reflexivity.
Qed.

End DriverClaims.

(* ================================================================== *)
(** * Scenario 1: one linear element over one free DoF *)

(** Construction followed by [solve], both with the same option bag. *)
Definition construct_and_solve {sorter : System.StdSort} {solver : LinearSolver}
    (junk : System.Uninitialized) (store : DofStore) (elements : list Element.t)
    (options : Options) : Outcome System.Machine :=
  match System.make junk store elements options with
  | Returned (s, tr) =>
      System.solve options
        {| System.system := s; System.dofstore := store; System.trace := tr |}
  | Raised e (s, tr) =>
      Raised e {| System.system := s; System.dofstore := store; System.trace := tr |}
  | NullDereference (s, tr) =>
      NullDereference
        {| System.system := s; System.dofstore := store; System.trace := tr |}
  | OutOfFuel => OutOfFuel
  end.

(** What is asked of the LDLT solver here: on a 1 x 1 system with a nonzero
    coefficient it returns the exact solution. *)
Definition exact_on_scalars (solver : LinearSolver) : Prop :=
  forall (a b : Q) (x0 : Vector),
    ~ (a == 0)%Q ->
    exists x,
      solver_solve SolverLDLT
        {| sp_rows := 1; sp_cols := 1; sp_outer := [[(0, a)]] |} [b] x0 = Some [x] /\
      (a * x == b)%Q.

(** The scenario as the specification words it. *)
Definition scenario_one_as_stated : Prop :=
  forall (sorter : System.StdSort) (solver : LinearSolver),
    exact_on_scalars solver ->
    exists m',
      construct_and_solve Scenario.junk Scenario.all_free [Scenario.linear_element]
        (Scenario.with_solver "ldlt") = Returned m' /\
      System.m_stopping_reason (System.system m') = 0%Z /\
      (delta (System.dofstore m') 0%nat == - (1 # 2))%Q.

Lemma diagonal_solver_exact : exact_on_scalars diagonal_solver.
Proof.
  intros a b x0 Ha. exists (b / a)%Q. split; [reflexivity|].
  field. exact Ha.
Qed.

Lemma std_sort_singleton {sorter : System.StdSort} (x : System.Index) :
  System.std_sort [x] = [x].
Proof.
  apply Permutation_length_1_inv. apply System.std_sort_permutation.
Qed.

Section ScenarioOne.

Context {sorter : System.StdSort} {solver : LinearSolver}.
Hypothesis solver_exact : exact_on_scalars solver.

Let options := Scenario.with_solver "ldlt".

(** The machines the loop of this scenario goes through. *)
Record one_dof (m : System.Machine) : Prop := {
  od_dofs : System.m_dofs (System.system m) = [0];
  od_free : System.m_nb_free_dofs (System.system m) = 1;
  od_elements : System.m_elements (System.system m) = [Scenario.linear_element];
  od_table : System.m_index_table (System.system m)
             = [[{| System.local := 0; System.global := 0 |}]];
  od_lhs : exists w, System.m_lhs (System.system m)
                     = {| sp_rows := 1; sp_cols := 1; sp_outer := [[(0, w)]] |};
  od_rhs : exists r, System.m_rhs (System.system m) = [r];
  od_target : System.m_target (System.system m) = [0%Q];
  od_solver : System.m_solver (System.system m) = Some SolverLDLT
}.

Lemma one_dof_pass (k : Z) (m : System.Machine) :
  one_dof m -> (k < 100)%Z ->
  exists m',
    System.iteration_body 100 (1 # 10000000) (1 # 10000000) options k m
      = System.Continue m' /\
    one_dof m' /\
    (delta (System.dofstore m') 0%nat == delta (System.dofstore m) 0%nat - (1 # 2))%Q.
Proof.
  intros [Hd Hf He Ht [w Hl] [r Hr] Htg Hs] Hk.
  destruct m as [s st tr]. destruct s. cbn [System.system System.dofstore
    System.m_dofs System.m_nb_free_dofs System.m_elements System.m_index_table
    System.m_lhs System.m_rhs System.m_target System.m_solver] in *. subst.
  unfold System.iteration_body.
  destruct (Z.geb_spec k 100) as [|_]; [lia|].
  cbn -[Qplus Qminus Qmult norm_ltb solver_solve].
  unfold Sparse_coeffRef_add, Sparse_setZero.
  cbn -[Qplus Qminus Qmult norm_ltb solver_solve].
  replace (norm_ltb [(0 + 1 - 0)%Q] (1 # 10000000)) with false by reflexivity.
  destruct (solver_exact (a := (0 + 2)%Q) (0 + 1 - 0)%Q m_x) as (x & Ex & Hx).
  { intros H. discriminate. }
  rewrite Ex.
  assert (Hhalf : (x == 1 # 2)%Q).
  { setoid_replace x with ((0 + 2) * x / (0 + 2))%Q by (field; discriminate).
    rewrite Hx. reflexivity. }
  assert (Hn : norm_ltb [x] (1 # 10000000) = false).
  { unfold norm_ltb, squaredNorm. cbn [fold_left].
    replace (0 ?= 1 # 10000000)%Q with Lt by reflexivity.
    assert (E : (0 + x * x ?= (1 # 10000000) * (1 # 10000000))%Q = Gt).
    { rewrite Hhalf. reflexivity. }
    rewrite E. reflexivity. }
  cbn [System.m_x System.set_m_x]. rewrite Hn.
  eexists. split; [reflexivity|]. split.
  - constructor; cbn; try reflexivity; eexists; reflexivity.
  - cbn [System.dofstore]. unfold System.update_dofs, for_range.
    cbn [System.nb_free_dofs System.m_nb_free_dofs System.set_m_x System.m_dofs
         System.m_x Nat.sub seq fold_left nth].
    rewrite delta_set_delta. cbn [Nat.eqb]. unfold vec_get. cbn [nth].
    rewrite Hhalf. reflexivity.
Qed.

Lemma one_dof_loop (n : nat) (m : System.Machine) :
  one_dof m -> n <= 100 ->
  exists m',
    System.newton_loop (S n) 100 (1 # 10000000) (1 # 10000000) options
      (100 - Z.of_nat n) m = Returned m' /\
    System.m_stopping_reason (System.system m') = 2%Z /\
    (delta (System.dofstore m') 0%nat
     == delta (System.dofstore m) 0%nat - inject_Z (Z.of_nat n) * (1 # 2))%Q /\
    count_events is_solve (System.trace m')
    = count_events is_solve (System.trace m) + n.
Proof.
  revert m. induction n as [|n IH]; intros m Hm Hn.
  - cbn [System.newton_loop]. unfold System.iteration_body.
    change (100 - Z.of_nat 0)%Z with 100%Z.
    destruct (Z.geb_spec 100 100) as [_|]; [|lia].
    eexists. split; [reflexivity|]. split; [reflexivity|].
    cbn [System.dofstore System.trace]. split; [|lia].
    unfold inject_Z. simpl. ring.
  - destruct (@one_dof_pass (100 - Z.of_nat (S n))%Z m Hm) as (m1 & E1 & Hm1 & Hd1); [lia|].
    cbn [System.newton_loop]. rewrite E1.
    replace (100 - Z.of_nat (S n) + 1)%Z with (100 - Z.of_nat n)%Z by lia.
    destruct (IH m1 Hm1) as (m' & E' & Hreason & Hd' & Hc'); [lia|].
    exists m'. split; [exact E'|]. split; [exact Hreason|]. split.
    + rewrite Hd', Hd1. rewrite Nat2Z.inj_succ. unfold Z.succ.
      rewrite inject_Z_plus. ring.
    + rewrite Hc'.
      pose proof (iteration_body_case 100 (1 # 10000000) (1 # 10000000) options
                    (100 - Z.of_nat (S n)) m) as Hcase.
      rewrite E1 in Hcase.
      inversion Hcase as [| | | | |kind x Hlt Hr Hs Hx Hxt Em]; subst m1.
      cbn [System.trace]. rewrite count_events_app.
      rewrite (@trace_count options is_solve false) by (intros; reflexivity).
      unfold count_events. simpl. lia.
Qed.

(** C3, as amended.  One element with constant [[2]] and [1] over one free
    DoF with target 0 and initial [delta] 0: every pass finds the residual
    1 and takes the step 1/2, so [solve] with the defaults runs its 100
    passes, returns with reason 2 and leaves [delta] at -50. *)
Theorem scenario_one :
  exists m',
    construct_and_solve Scenario.junk Scenario.all_free [Scenario.linear_element]
      options = Returned m' /\
    System.m_stopping_reason (System.system m') = 2%Z /\
    (delta (System.dofstore m') 0%nat == - (50 # 1))%Q /\
    count_events is_solve (System.trace m') = 100.
Proof.
  unfold construct_and_solve, System.make.
  cbn [System.construct fst snd System.m_solver System.setup_solver
       get_or_default options Scenario.with_solver opt_linear_solver String.eqb
       Ascii.eqb Bool.eqb app].
  rewrite solve_unfold.
  match goal with
  | |- context [System.newton_loop _ _ _ _ _ _ ?m0] => set (m := m0)
  end.
  assert (Hm : one_dof m).
  { subst m. constructor;
      cbn -[System.std_sort]; rewrite ?std_sort_singleton;
        try reflexivity; eexists; reflexivity. }
  destruct (@one_dof_loop 100 m Hm (le_n _)) as (m' & E & Hreason & Hd & Hc).
  change (maxiter_of options) with 100%Z.
  change (rtol_of options) with (1 # 10000000)%Q.
  change (xtol_of options) with (1 # 10000000)%Q.
  change (S (Z.to_nat 100)) with 101.
  change (100 - Z.of_nat 100)%Z with 0%Z in E. rewrite E.
  eexists. split; [reflexivity|].
  cbn [solve_finish System.system System.dofstore System.trace].
  split; [exact Hreason|]. rewrite store_residuals_delta. split.
  - rewrite Hd. subst m. cbn. reflexivity.
  - rewrite Hc. subst m. reflexivity.
Qed.

End ScenarioOne.

(* ================================================================== *)
(** * The claims at concrete inputs *)

Module Run.

(** The one-DoF system of scenario 1 and the three-DoF system with a
    fixed middle DoF, built with merge sort and solved by the diagonal
    solver. *)
Definition one_dof : System.Machine :=
  Scenario.machine (sorter := merge_sort) Scenario.all_free [Scenario.linear_element].

Definition mixed : System.Machine :=
  Scenario.machine (sorter := merge_sort) Scenario.middle_fixed
    [Scenario.triangle; Scenario.bar].

Definition all_fixed : DofStore := fun _ => Scenario.fixed_variable.

Definition solved (options : Options) (m : System.Machine) : System.Machine :=
  Scenario.result m (System.solve (solver := diagonal_solver) options m).

Definition reason (o : Outcome System.Machine) : option Z :=
  match o with
  | Returned m => Some (System.m_stopping_reason (System.system m))
  | _ => None
  end.

End Run.

(** C1, counterexample.  With [maxiter = -1] the loop is left at once with
    reason 2: no pass ran, not -1 of them. *)
Lemma stopping_as_stated_fails : ~ stopping_as_stated.
Proof.
  intros H.
  destruct (H diagonal_solver (Scenario.with_maxiter (-1)) Run.one_dof
              (Run.solved (Scenario.with_maxiter (-1)) Run.one_dof))
    as (_ & _ & H2).
  - vm_compute. reflexivity.
  - assert (E : System.m_stopping_reason
                  (System.system (Run.solved (Scenario.with_maxiter (-1)) Run.one_dof))
                = 2%Z) by (vm_compute; reflexivity).
    specialize (H2 E). vm_compute in H2. discriminate.
Qed.

Lemma stopping_correct_witness :
  System.solve (solver := diagonal_solver) (Scenario.with_maxiter 3) Run.one_dof
    = Returned (Run.solved (Scenario.with_maxiter 3) Run.one_dof) /\
  (System.m_stopping_reason
     (System.system (Run.solved (Scenario.with_maxiter 3) Run.one_dof)) = 2%Z ->
   Z.of_nat (iterations_run Run.one_dof
               (Run.solved (Scenario.with_maxiter 3) Run.one_dof)) = 3%Z).
Proof.
  split; [vm_compute; reflexivity|]. intros Hreason.
  apply (stopping_correct (solver := diagonal_solver) (Scenario.with_maxiter 3)
           Run.one_dof
           (m' := Run.solved (Scenario.with_maxiter 3) Run.one_dof)).
  - vm_compute. reflexivity.
  - exact Hreason.
Defined.

Lemma pattern_exact_witness :
  constructed (sorter := merge_sort) Scenario.junk Scenario.middle_fixed
    [Scenario.triangle; Scenario.bar] no_options Run.mixed /\
  operations (solver := diagonal_solver) Run.mixed (after_compute no_options Run.mixed) /\
  forall row col,
    structural (System.m_lhs (System.system (after_compute no_options Run.mixed))) row col ->
    row <= col /\
    col < System.nb_free_dofs (System.system (after_compute no_options Run.mixed)).
Proof.
  split; [apply scenario_constructed|].
  split; [eapply ops_then; [apply ops_none | apply op_compute]|].
  apply (pattern_exact (sorter := merge_sort) (solver := diagonal_solver)
           (scenario_constructed Scenario.middle_fixed [Scenario.triangle; Scenario.bar])
           (ops_then (ops_none Run.mixed) (op_compute no_options Run.mixed))).
Defined.

(** C3, counterexample.  With merge sort and the diagonal solver, which is
    exact on 1 x 1 systems, the run does not end with reason 0. *)
Lemma scenario_one_as_stated_fails : ~ scenario_one_as_stated.
Proof.
  intros H.
  destruct (H merge_sort diagonal_solver diagonal_solver_exact) as (m' & E & Hreason & _).
  assert (E2 : Run.reason
                 (construct_and_solve (sorter := merge_sort) (solver := diagonal_solver)
                    Scenario.junk Scenario.all_free [Scenario.linear_element]
                    (Scenario.with_solver "ldlt")) = Some 2%Z)
    by (vm_compute; reflexivity).
  rewrite E in E2. unfold Run.reason in E2. rewrite Hreason in E2. discriminate.
Qed.

Lemma scenario_one_witness :
  exact_on_scalars diagonal_solver /\
  exists m',
    construct_and_solve (sorter := merge_sort) (solver := diagonal_solver)
      Scenario.junk Scenario.all_free [Scenario.linear_element]
      (Scenario.with_solver "ldlt") = Returned m' /\
    System.m_stopping_reason (System.system m') = 2%Z /\
    (delta (System.dofstore m') 0%nat == - (50 # 1))%Q /\
    count_events is_solve (System.trace m') = 100.
Proof.
  assert (Hexact : exact_on_scalars diagonal_solver).
  { intros a b x0 Ha. exists (b / a)%Q. split; [reflexivity|]. field. exact Ha. }
  split; [exact Hexact|].
  apply (scenario_one (sorter := merge_sort) (solver := diagonal_solver) Hexact).
Defined.

(** C4.  For a solver name that is neither "ldlt" nor "lsmr" the
    constructor prints "error" and raises nothing; it goes on to its last
    statement with a null [m_solver]. *)
Theorem unknown_solver_not_raised {sorter : System.StdSort} junk store elements name :
  name <> "ldlt"%string -> name <> "lsmr"%string ->
  System.make junk store elements (Scenario.with_solver name) =
  NullDereference
    (fst (System.construct junk store elements (Scenario.with_solver name)),
     [Stdout "error"]) /\
  System.m_solver
    (fst (System.construct junk store elements (Scenario.with_solver name))) = None.
Proof.
  intros H1 H2.
  assert (E : System.setup_solver name = (None, [Stdout "error"])).
  { unfold System.setup_solver.
    destruct (String.eqb_spec name "ldlt"); [contradiction|].
    destruct (String.eqb_spec name "lsmr"); [contradiction|]. reflexivity. }
  assert (Es : System.m_solver
                 (fst (System.construct junk store elements (Scenario.with_solver name)))
               = None).
  { rewrite construct_m_solver. cbn [Scenario.with_solver opt_linear_solver get_or_default].
    rewrite E. reflexivity. }
  split; [|exact Es]. unfold System.make. rewrite Es.
  f_equal. rewrite (surjective_pairing (System.construct _ _ _ _)) at 1. f_equal.
  unfold System.construct. cbn [snd Scenario.with_solver opt_linear_solver get_or_default].
  rewrite E. reflexivity.
Qed.

Lemma unknown_solver_not_raised_witness :
  "cg"%string <> "ldlt"%string /\ "cg"%string <> "lsmr"%string /\
  System.make (sorter := merge_sort) Scenario.junk Scenario.all_free
    [Scenario.linear_element] (Scenario.with_solver "cg") =
  NullDereference
    (fst (System.construct (sorter := merge_sort) Scenario.junk Scenario.all_free
            [Scenario.linear_element] (Scenario.with_solver "cg")),
     [Stdout "error"]).
Proof.
  split; [discriminate|]. split; [discriminate|].
  apply (unknown_solver_not_raised (sorter := merge_sort) Scenario.junk Scenario.all_free
           [Scenario.linear_element] (name := "cg")); discriminate.
Defined.

(** C5.  On the one-DoF system that [compute] has just assembled, a second
    [compute] leaves the values [2] and [1] again, while [compute_parallel],
    which does not zero them first, leaves [4] and [2]. *)
Theorem compute_parallel_accumulates :
  let assembled := after_compute no_options Run.one_dof in
  let serial := System.system (after_compute no_options assembled) in
  let parallel := System.system (after_compute_parallel [0] no_options assembled) in
  valuePtr (System.m_lhs serial) = [2%Q] /\ System.m_rhs serial = [1%Q] /\
  valuePtr (System.m_lhs parallel) = [4%Q] /\ System.m_rhs parallel = [2%Q].
Proof. vm_compute. repeat split. Qed.

Lemma compute_idempotent_witness :
  constructed (sorter := merge_sort) Scenario.junk Scenario.middle_fixed
    [Scenario.triangle; Scenario.bar] no_options Run.mixed /\
  operations (solver := diagonal_solver) Run.mixed Run.mixed /\
  1 <= 3 /\
  System.m_lhs (System.system (Nat.iter 3 (after_compute no_options) Run.mixed)) =
  System.m_lhs (System.system (after_compute no_options Run.mixed)) /\
  System.m_rhs (System.system (Nat.iter 3 (after_compute no_options) Run.mixed)) =
  System.m_rhs (System.system (after_compute no_options Run.mixed)).
Proof.
  split; [apply scenario_constructed|]. split; [apply ops_none|]. split; [lia|].
  apply (@compute_idempotent merge_sort diagonal_solver _ _ _ _ _ _ no_options 3
           (scenario_constructed Scenario.middle_fixed [Scenario.triangle; Scenario.bar])
           (ops_none Run.mixed)).
  lia.
Defined.

Lemma degenerate_system_witness :
  (forall e d, In e [Scenario.triangle] -> In d (Element.dofs e) ->
               isfixed Run.all_fixed d = true) /\
  (get_or_default (opt_linear_solver no_options) "ldlt" = "ldlt" \/
   get_or_default (opt_linear_solver no_options) "ldlt" = "lsmr")%string /\
  exists s tr,
    System.make (sorter := merge_sort) Scenario.junk Run.all_fixed [Scenario.triangle]
      no_options = Returned (s, tr) /\
    System.nb_free_dofs s = 0.
Proof.
  assert (H1 : forall e d, In e [Scenario.triangle] -> In d (Element.dofs e) ->
                           isfixed Run.all_fixed d = true) by reflexivity.
  assert (H2 : (get_or_default (opt_linear_solver no_options) "ldlt" = "ldlt" \/
                get_or_default (opt_linear_solver no_options) "ldlt" = "lsmr")%string)
    by (left; reflexivity).
  split; [exact H1|]. split; [exact H2|].
  destruct (degenerate_system (sorter := merge_sort) (solver := diagonal_solver)
              Scenario.junk Run.all_fixed [Scenario.triangle] no_options H1 H2)
    as (s & tr & E & HF & _).
  exists s, tr. split; assumption.
Defined.

Lemma free_fixed_partition_witness :
  constructed (sorter := merge_sort) Scenario.junk Scenario.middle_fixed
    [Scenario.triangle; Scenario.bar] no_options Run.mixed /\
  operations (solver := diagonal_solver) Run.mixed (after_compute no_options Run.mixed) /\
  partitioned Scenario.middle_fixed (System.system (after_compute no_options Run.mixed)).
Proof.
  split; [apply scenario_constructed|].
  split; [eapply ops_then; [apply ops_none | apply op_compute]|].
  apply (free_fixed_partition (sorter := merge_sort) (solver := diagonal_solver)
           (scenario_constructed Scenario.middle_fixed [Scenario.triangle; Scenario.bar])
           (ops_then (ops_none Run.mixed) (op_compute no_options Run.mixed))).
Defined.

Lemma nonpositive_maxiter_witness :
  (maxiter_of (Scenario.with_maxiter 0) <= 0)%Z /\
  exists m',
    System.solve (solver := diagonal_solver) (Scenario.with_maxiter 0) Run.one_dof
      = Returned m' /\
    System.m_stopping_reason (System.system m') = 2%Z /\
    System.trace m' = System.trace Run.one_dof.
Proof.
  assert (H : (maxiter_of (Scenario.with_maxiter 0) <= 0)%Z) by (vm_compute; discriminate).
  split; [exact H|].
  destruct (nonpositive_maxiter (solver := diagonal_solver) (Scenario.with_maxiter 0)
              Run.one_dof H) as (m' & E & Hr & Ht & _).
  exists m'. repeat split; assumption.
Defined.

Lemma step_exit_applies_correction_witness :
  constructed (sorter := merge_sort) Scenario.junk Scenario.all_free
    [Scenario.linear_element] no_options Run.one_dof /\
  operations (solver := diagonal_solver) Run.one_dof Run.one_dof /\
  System.solve (solver := diagonal_solver) (Scenario.with_xtol 5 1) Run.one_dof
    = Returned (Run.solved (Scenario.with_xtol 5 1) Run.one_dof) /\
  System.m_stopping_reason
    (System.system (Run.solved (Scenario.with_xtol 5 1) Run.one_dof)) = 1%Z /\
  exists before,
    delta (System.dofstore (Run.solved (Scenario.with_xtol 5 1) Run.one_dof)) 0 =
    (delta (System.dofstore before) 0%nat
     - vec_get (System.m_x (System.system (Run.solved (Scenario.with_xtol 5 1) Run.one_dof)))
         0)%Q.
Proof.
  assert (E : System.solve (solver := diagonal_solver) (Scenario.with_xtol 5 1) Run.one_dof
              = Returned (Run.solved (Scenario.with_xtol 5 1) Run.one_dof))
    by (vm_compute; reflexivity).
  assert (Hr : System.m_stopping_reason
                 (System.system (Run.solved (Scenario.with_xtol 5 1) Run.one_dof)) = 1%Z)
    by (vm_compute; reflexivity).
  split; [apply scenario_constructed|]. split; [apply ops_none|].
  split; [exact E|]. split; [exact Hr|].
  destruct (@step_exit_applies_correction merge_sort diagonal_solver _ _ _ _ _ _ _ _
              (scenario_constructed Scenario.all_free [Scenario.linear_element])
              (ops_none Run.one_dof) E Hr)
    as (k & before & kind & _ & _ & _ & _ & Hd).
  exists before. apply (Hd 0). vm_compute. reflexivity.
Defined.

(* ================================================================== *)
(** * Further properties of the constructor *)

Lemma find_filter_other (d k : Dof) (m : list (Dof * nat)) :
  k <> d ->
  find (fun kv => fst kv =? d) (filter (fun kv => negb (fst kv =? k)) m) =
  find (fun kv => fst kv =? d) m.
Proof.
  intros Hne. induction m as [|[k' v] m IH]; simpl; [reflexivity|].
  destruct (Nat.eqb_spec k' k) as [->|Hk]; simpl.
  - destruct (Nat.eqb_spec k d); [contradiction | exact IH].
  - destruct (Nat.eqb_spec k' d); [reflexivity | exact IH].
Qed.

Lemma find_map_assign (d k : Dof) (v : nat) (m : list (Dof * nat)) :
  find (fun kv => fst kv =? d) (System.map_assign k v m) =
  if k =? d then Some (k, v) else find (fun kv => fst kv =? d) m.
Proof.
  unfold System.map_assign. simpl. destruct (Nat.eqb_spec k d) as [|Hne]; [reflexivity|].
  apply find_filter_other. exact Hne.
Qed.

(** The map built from a duplicate-free DoF vector sends each DoF to its
    index, and holds nothing else. *)
Lemma index_dofs_find (dofs : list Dof) :
  NoDup dofs ->
  (forall i, i < length dofs ->
     find (fun kv => fst kv =? nth i dofs 0) (System.index_dofs dofs)
     = Some (nth i dofs 0, i)) /\
  (forall d, ~ In d dofs ->
     find (fun kv => fst kv =? d) (System.index_dofs dofs) = None).
Proof.
  intros Hnd. unfold System.index_dofs.
  pose (Inv := fun (j : nat) (m : list (Dof * nat)) =>
    (forall i, i < j ->
       find (fun kv => fst kv =? nth i dofs 0) m = Some (nth i dofs 0, i)) /\
    (forall d, (forall i, i < j -> nth i dofs 0 <> d) ->
       find (fun kv => fst kv =? d) m = None)).
  match goal with
  | |- (forall i, _ -> find _ (for_range 0 ?n ?body []) = _) /\ _ =>
      assert (H : Inv n (for_range 0 n body []))
  end.
  { apply for_range_inv with (P := Inv); [lia| |].
    - split; [intros; lia | reflexivity].
    - intros j m Hj [H1 H2]. split.
      + intros i Hi. rewrite find_map_assign.
        destruct (Nat.eqb_spec (nth j dofs 0) (nth i dofs 0)) as [E|Hne].
        * apply (proj1 (NoDup_nth dofs 0) Hnd) in E; [|lia|lia]. subst. reflexivity.
        * apply H1. destruct (Nat.eq_dec i j); [subst; congruence | lia].
      + intros d Hd. rewrite find_map_assign.
        destruct (Nat.eqb_spec (nth j dofs 0) d) as [E|Hne].
        * exfalso. apply (Hd j); [lia | exact E].
        * apply H2. intros i Hi. apply Hd. lia. }
  destruct H as [H1 H2]. split; [exact H1|].
  intros d Hd. apply H2. intros i Hi E. apply Hd. subst d. apply nth_In. exact Hi.
Qed.

Lemma for_range_snoc {A : Type} (n : nat) (h : nat -> A) (t : list A) :
  for_range 0 n (fun i t => t ++ [h i]) t = t ++ map h (seq 0 n).
Proof. unfold for_range. rewrite Nat.sub_0_r. apply fold_left_snoc_map. Qed.

(** The entry the constructor makes for the DoF at position [local]. *)
Definition index_entry (dof_indices : list (Dof * nat)) (dofs : list Dof)
    (local : nat) : System.Index :=
  {| System.local := local;
     System.global := System.map_at dof_indices (nth local dofs 0) |}.

Lemma index_table_unfold {sorter : System.StdSort} (dof_indices : list (Dof * nat))
    (element_dofs : list (list Dof)) :
  System.index_table dof_indices element_dofs =
  map (fun dofs =>
         System.std_sort (map (index_entry dof_indices dofs) (seq 0 (length dofs))))
      element_dofs.
Proof.
  unfold System.index_table.
  rewrite (@for_range_ext _ 0 (length element_dofs) _
             (fun i table =>
                table ++
                [(fun dofs => System.std_sort
                                (map (index_entry dof_indices dofs) (seq 0 (length dofs))))
                   (nth i element_dofs [])]) []).
  - rewrite for_range_snoc. simpl.
    apply (map_nth_seq
             (fun dofs => System.std_sort
                            (map (index_entry dof_indices dofs) (seq 0 (length dofs))))
             element_dofs []).
  - intros i table _. cbv zeta. f_equal. f_equal. f_equal.
    apply (for_range_fill (index_entry dof_indices (nth i element_dofs []))).
    apply repeat_length.
Qed.

Lemma sorted_by_global (l : list System.Index) :
  StronglySorted (fun a b => System.Index_ltb b a = false) l ->
  StronglySorted (fun a b => System.global a <= System.global b) l.
Proof.
  induction 1 as [|a l Hl IH Ha]; constructor; auto.
  eapply Forall_impl; [|exact Ha]. intros b Hb. unfold System.Index_ltb in Hb.
  apply Nat.ltb_ge in Hb. exact Hb.
Qed.

Section ConstructorFacts.

Context {sorter : System.StdSort}.
Variables (junk : System.Uninitialized) (store : DofStore)
          (elements : list Element.t) (options : Options).

Let s := fst (System.construct junk store elements options).

Lemma construct_dofs_mentioned (d : Dof) :
  In d (System.m_dofs s) <-> exists e, In e elements /\ In d (Element.dofs e).
Proof.
  unfold s. rewrite construct_m_dofs.
  destruct (unique_dofs_inv store elements) as [_ Hcov]. rewrite Hcov.
  rewrite in_concat. split.
  - intros (ds & Hds & Hd). apply in_map_iff in Hds.
    destruct Hds as (e & <- & He). exists e. split; assumption.
  - intros (e & He & Hd). exists (Element.dofs e). split; [|exact Hd].
    apply in_map. exact He.
Qed.

(** X1.  Every DoF that an element mentions is in the DoF vector exactly once,
    nothing else is, and the two counts add up to its length. *)
Theorem dofs_exactly_once :
  NoDup (System.m_dofs s) /\
  (forall d, In d (System.m_dofs s) <->
             exists e, In e elements /\ In d (Element.dofs e)) /\
  System.nb_dofs s = System.nb_free_dofs s + System.nb_fixed_dofs s.
Proof.
  split; [apply construct_NoDup|]. split; [exact construct_dofs_mentioned|].
  unfold System.nb_dofs, System.nb_free_dofs, System.nb_fixed_dofs, s.
  rewrite construct_m_dofs, construct_nb_free, construct_nb_fixed.
  apply length_app.
Qed.

(** X2.  [dof_index] gives back the position of every DoF of the vector, and
    throws for a DoF that no element mentions. *)
Theorem dof_index_round_trip :
  (forall i, i < System.nb_dofs s ->
     System.dof_index s (nth i (System.m_dofs s) 0) = Some i) /\
  (forall d, ~ In d (System.m_dofs s) -> System.dof_index s d = None).
Proof.
  unfold System.dof_index, System.nb_dofs.
  change (System.m_dof_indices s) with (System.index_dofs (System.m_dofs s)).
  assert (Hnd : NoDup (System.m_dofs s)) by apply construct_NoDup.
  destruct (index_dofs_find Hnd) as [H1 H2]. split.
  - intros i Hi. rewrite (H1 i Hi). reflexivity.
  - intros d Hd. rewrite (H2 d Hd). reflexivity.
Qed.

(** X3.  The index table of an element: sorted by global index, one entry for
    each local position, and each entry pairs a local position with the
    place of that DoF in the DoF vector. *)
Theorem index_table_entries (i : nat) (e : Element.t) :
  nth_error elements i = Some e ->
  exists T,
    nth_error (System.m_index_table s) i = Some T /\
    StronglySorted (fun a b => System.global a <= System.global b) T /\
    Permutation (map System.local T) (seq 0 (length (Element.dofs e))) /\
    forall x, In x T ->
      System.global x < System.nb_dofs s /\
      nth_error (System.m_dofs s) (System.global x)
      = nth_error (Element.dofs e) (System.local x).
Proof.
  intros He. unfold s. rewrite construct_m_index_table, index_table_unfold.
  rewrite nth_error_map, nth_error_map, He. cbn [option_map].
  eexists. split; [reflexivity|]. fold s.
  set (m := System.m_dof_indices s).
  set (entries := map (index_entry m (Element.dofs e))
                    (seq 0 (length (Element.dofs e)))).
  pose proof (System.std_sort_permutation entries) as Hperm.
  split; [|split].
  - apply sorted_by_global. apply System.std_sort_sorted.
  - apply Permutation_sym. eapply Permutation_trans;
      [|apply Permutation_map; exact Hperm].
    unfold entries. rewrite map_map. simpl. rewrite map_id. apply Permutation_refl.
  - intros x Hx. apply (Permutation_in _ (Permutation_sym Hperm)) in Hx.
    unfold entries in Hx. apply in_map_iff in Hx. destruct Hx as (l & <- & Hl).
    apply in_seq in Hl. cbn [index_entry System.global System.local].
    set (d := nth l (Element.dofs e) 0).
    assert (Hd : In d (System.m_dofs s)).
    { apply construct_dofs_mentioned. exists e. split.
      - eapply nth_error_In. exact He.
      - apply nth_In. lia. }
    destruct (In_nth _ _ 0 Hd) as (j & Hj & Ej).
    assert (H1 : find (fun kv => fst kv =? d) (System.index_dofs (System.m_dofs s))
                 = Some (d, j)).
    { rewrite <- Ej. apply index_dofs_find; [apply construct_NoDup | exact Hj]. }
    unfold System.map_at, m.
    change (System.m_dof_indices s) with (System.index_dofs (System.m_dofs s)).
    fold d. rewrite H1. cbn [snd]. split; [exact Hj|].
    change (nth_error (System.m_dofs s) j = nth_error (Element.dofs e) l).
    transitivity (Some d).
    + rewrite (nth_error_nth' (System.m_dofs s) 0 Hj). f_equal. exact Ej.
    + symmetry. apply nth_error_nth'. lia.
Qed.

(** X4.  The skeleton of the left-hand side: [F] by [F], rows ascending in
    every column, [m_col_nonzeros] the column counts, every value 0. *)
Theorem lhs_skeleton :
  sp_rows (System.m_lhs s) = System.nb_free_dofs s /\
  sp_cols (System.m_lhs s) = System.nb_free_dofs s /\
  length (sp_outer (System.m_lhs s)) = System.nb_free_dofs s /\
  sorted_columns (System.m_lhs s) /\
  System.m_col_nonzeros s = map (@length nat) (structure (System.m_lhs s)) /\
  nonZeros (System.m_lhs s) = list_sum (System.m_col_nonzeros s) /\
  Forall (fun v => v = 0%Q) (valuePtr (System.m_lhs s)).
Proof.
  destruct (analyze_pattern_spec (System.m_nb_free_dofs s) (System.m_index_table s))
    as (Hlen & Hsorted & _).
  change (System.analyze_pattern (System.m_nb_free_dofs s) (System.m_index_table s))
    with (System.m_pattern s) in Hlen, Hsorted.
  assert (Hcn : System.m_col_nonzeros s = map (@length nat) (System.m_pattern s)).
  { change (System.m_col_nonzeros s)
      with (System.col_nonzeros (System.m_nb_free_dofs s) (System.m_pattern s)).
    unfold System.col_nonzeros.
    rewrite (for_range_fill (fun i => length (nth i (System.m_pattern s) [])))
      by (rewrite repeat_length; congruence).
    apply map_nth_seq. }
  assert (Hsk : System.m_lhs s =
                {| sp_rows := System.m_nb_free_dofs s;
                   sp_cols := System.m_nb_free_dofs s;
                   sp_outer := map (map (fun r => (r, 0%Q))) (System.m_pattern s) |})
    by apply construct_lhs_skeleton.
  assert (Hst : structure (System.m_lhs s) = System.m_pattern s)
    by apply construct_structure.
  unfold sorted_columns, nonZeros, valuePtr, System.nb_free_dofs.
  rewrite Hst, Hsk. cbn [sp_rows sp_cols sp_outer]. rewrite length_map.
  split; [reflexivity|]. split; [reflexivity|]. split; [exact Hlen|].
  split; [exact Hsorted|]. split; [exact Hcn|]. split.
  - rewrite Hcn. clear. induction (System.m_pattern s) as [|c p IH]; simpl.
    + reflexivity.
    + rewrite length_app, IH, !length_map. reflexivity.
  - clear. induction (System.m_pattern s) as [|c p IH]; simpl; [constructor|].
    apply Forall_app. split; [|exact IH].
    rewrite map_map. simpl. apply Forall_forall. intros v Hv.
    apply in_map_iff in Hv. destruct Hv as (r & <- & _). reflexivity.
Qed.

End ConstructorFacts.

(* ================================================================== *)
(** * Further properties of the driver *)

Lemma update_dofs_other (s : System.t) (st : DofStore) (d : Dof) :
  (forall i, i < System.nb_free_dofs s -> nth i (System.m_dofs s) 0 <> d) ->
  delta (System.update_dofs s st) d = delta st d.
Proof.
  intros Hd. unfold System.update_dofs.
  apply for_range_inv with (P := fun (_ : nat) st' => delta st' d = delta st d);
    [lia | reflexivity |].
  intros i st' Hi H. rewrite delta_set_delta.
  destruct (Nat.eqb_spec d (nth i (System.m_dofs s) 0)) as [E|_]; [|exact H].
  exfalso. apply (Hd i); [lia | congruence].
Qed.

Lemma store_residuals_written (s : System.t) (st : DofStore) :
  NoDup (System.m_dofs s) ->
  System.nb_free_dofs s <= length (System.m_dofs s) ->
  (forall i, i < System.nb_free_dofs s ->
     residual (System.store_residuals s st) (nth i (System.m_dofs s) 0)
     = vec_get (System.m_residual s) i) /\
  (forall d, (forall i, i < System.nb_free_dofs s -> nth i (System.m_dofs s) 0 <> d) ->
     residual (System.store_residuals s st) d = residual st d).
Proof.
  intros Hnd HF. unfold System.store_residuals.
  set (dofs := System.m_dofs s) in *. set (F := System.nb_free_dofs s) in *.
  pose (Inv := fun (k : nat) (st' : DofStore) =>
    (forall i, i < k -> residual st' (nth i dofs 0) = vec_get (System.m_residual s) i) /\
    (forall d, (forall i, i < k -> nth i dofs 0 <> d) -> residual st' d = residual st d)).
  match goal with
  | |- (forall i, i < F -> residual (for_range 0 F ?body st) _ = _) /\ _ =>
      assert (H : Inv F (for_range 0 F body st))
  end.
  { apply for_range_inv with (P := Inv); [lia| |].
    - split; [intros; lia | reflexivity].
    - intros k st' Hk [H1 H2]. split.
      + intros i Hi. rewrite residual_set_residual.
        destruct (Nat.eqb_spec (nth i dofs 0) (nth k dofs 0)) as [E|Hne].
        * apply (proj1 (NoDup_nth dofs 0) Hnd) in E; [|lia|lia]. subst i. reflexivity.
        * apply H1. destruct (Nat.eq_dec i k); [subst; congruence | lia].
      + intros d Hd. rewrite residual_set_residual.
        destruct (Nat.eqb_spec d (nth k dofs 0)) as [E|Hne].
        * exfalso. apply (Hd k); [lia | congruence].
        * apply H2. intros i Hi. apply Hd. lia. }
  exact H.
Qed.

(** The calls a pass of iteration [k] may make. *)
Definition pass_event (options : Options) (maxiter : Z) (e : Event) : Prop :=
  match e with
  | ElementCompute _ o =>
      exists k, (0 <= k < maxiter)%Z /\ o = set_iteration k options
  | StdoutIteration k => (0 <= k < maxiter)%Z
  | SetMatrix | Solve => True
  | AnalyzePattern | Stdout _ => False
  end.

Section DriverFacts.

Context {sorter : System.StdSort} {solver : LinearSolver}.

Lemma iteration_body_updates maxiter rtol xtol options k m :
  let m' := step_machine (System.iteration_body maxiter rtol xtol options k m) in
  (forall d, (forall i, i < System.nb_free_dofs (System.system m) ->
                        nth i (System.m_dofs (System.system m)) 0 <> d) ->
             delta (System.dofstore m') d = delta (System.dofstore m) d) /\
  (forall d, residual (System.dofstore m') d = residual (System.dofstore m) d) /\
  (exists new, System.trace m' = System.trace m ++ new /\
               ((0 <= k)%Z -> Forall (pass_event options maxiter) new) /\
               count_events is_solve new <= 1 /\
               (count_events is_solve new = 1 -> (k < maxiter)%Z)).
Proof.
  cbv zeta.
  assert (Hev : (k < maxiter)%Z -> (0 <= k)%Z ->
                Forall (pass_event options maxiter)
                  (snd (System.compute (set_iteration k options)
                          (System.dofstore m) (System.system m))
                   ++ [StdoutIteration k])).
  { intros Hlt Hk. apply Forall_app. split.
    - rewrite compute_trace. apply Forall_forall. intros e He.
      apply in_map_iff in He. destruct He as (i & <- & _). exists k. split; [lia|reflexivity].
    - repeat constructor; simpl; lia. }
  destruct (iteration_body_case maxiter rtol xtol options k m)
    as [Hge|Hlt Hr|Hlt Hr Hs|kind Hlt Hr Hs Hx|kind x Hlt Hr Hs Hx Hxt
        |kind x Hlt Hr Hs Hx Hxt];
    cbn [step_machine System.dofstore System.trace].
  - split; [reflexivity|]. split; [reflexivity|]. exists []. rewrite app_nil_r.
    repeat split; auto. discriminate.
  - split; [reflexivity|]. split; [reflexivity|]. eexists. split; [reflexivity|].
    split; [auto|]. rewrite count_events_app, compute_trace,
      (@count_events_computes is_solve false) by reflexivity.
    unfold count_events; simpl; split; [lia | intros; lia].
  - split; [reflexivity|]. split; [reflexivity|]. eexists. split; [reflexivity|].
    split; [auto|]. rewrite count_events_app, compute_trace,
      (@count_events_computes is_solve false) by reflexivity.
    unfold count_events; simpl; split; [lia | intros; lia].
  - split; [reflexivity|]. split; [reflexivity|].
    exists ((snd (System.compute (set_iteration k options) (System.dofstore m)
                    (System.system m)) ++ [StdoutIteration k]) ++ [SetMatrix; Solve]).
    split; [unfold assembled_trace; rewrite <- !app_assoc; reflexivity|].
    split; [intros Hk; apply Forall_app; split; [auto | repeat constructor]|].
    rewrite !count_events_app, compute_trace,
      (@count_events_computes is_solve false) by reflexivity.
    unfold count_events; simpl; split; [lia | intros _; exact Hlt].
  - split; [intros d Hd; apply update_dofs_other; exact Hd|].
    split; [intros d; apply update_dofs_frame|].
    exists ((snd (System.compute (set_iteration k options) (System.dofstore m)
                    (System.system m)) ++ [StdoutIteration k]) ++ [SetMatrix; Solve]).
    split; [unfold assembled_trace; rewrite <- !app_assoc; reflexivity|].
    split; [intros Hk; apply Forall_app; split; [auto | repeat constructor]|].
    rewrite !count_events_app, compute_trace,
      (@count_events_computes is_solve false) by reflexivity.
    unfold count_events; simpl; split; [lia | intros _; exact Hlt].
  - split; [intros d Hd; apply update_dofs_other; exact Hd|].
    split; [intros d; apply update_dofs_frame|].
    exists ((snd (System.compute (set_iteration k options) (System.dofstore m)
                    (System.system m)) ++ [StdoutIteration k]) ++ [SetMatrix; Solve]).
    split; [unfold assembled_trace; rewrite <- !app_assoc; reflexivity|].
    split; [intros Hk; apply Forall_app; split; [auto | repeat constructor]|].
    rewrite !count_events_app, compute_trace,
      (@count_events_computes is_solve false) by reflexivity.
    unfold count_events; simpl; split; [lia | intros _; exact Hlt].
Qed.

Lemma iterates_updates maxiter rtol xtol options k m k' m' :
  iterates maxiter rtol xtol options k m k' m' ->
  (forall d, (forall i, i < System.nb_free_dofs (System.system m) ->
                        nth i (System.m_dofs (System.system m)) 0 <> d) ->
             delta (System.dofstore m') d = delta (System.dofstore m) d) /\
  (forall d, residual (System.dofstore m') d = residual (System.dofstore m) d) /\
  System.m_stopping_reason (System.system m')
  = System.m_stopping_reason (System.system m) /\
  (exists new, System.trace m' = System.trace m ++ new /\
               ((0 <= k)%Z -> Forall (pass_event options maxiter) new)).
Proof.
  induction 1 as [k m|k m k' m' m'' Hb Hit IH].
  - split; [reflexivity|]. split; [reflexivity|]. split; [reflexivity|].
    exists []. rewrite app_nil_r. split; [reflexivity | constructor].
  - destruct IH as (I1 & I2 & I3 & new2 & I4 & I5).
    pose proof (iteration_body_updates maxiter rtol xtol options k m) as Hu.
    pose proof (iteration_body_framed maxiter rtol xtol options k m) as (L & _ & _).
    pose proof (iteration_body_case maxiter rtol xtol options k m) as Hc.
    rewrite Hb in Hu, L, Hc. cbv zeta in Hu. cbn [step_machine] in Hu, L.
    destruct Hu as (U1 & U2 & new1 & U3 & U4 & _).
    assert (Hlt : (k < maxiter)%Z) by (inversion Hc; assumption).
    assert (Hreason : System.m_stopping_reason (System.system m')
                      = System.m_stopping_reason (System.system m))
      by (inversion Hc; reflexivity).
    split; [|split; [|split]].
    + intros d Hd. rewrite I1; [apply U1; exact Hd|].
      unfold System.nb_free_dofs in *. rewrite (sl_nb_free L), (sl_dofs L). exact Hd.
    + intros d. rewrite I2. apply U2.
    + congruence.
    + exists (new1 ++ new2). split; [rewrite I4, U3, app_assoc; reflexivity|].
      intros Hk. apply Forall_app. split; [auto | apply I5; lia].
Qed.

(** X5.  [solve] always ends, by returning, by the solver's exception or at a
    null solver, and calls the solver at most [max(maxiter, 0)] times. *)
Theorem solve_bounded options m :
  exists m',
    (System.solve options m = Returned m' \/
     System.solve options m = Raised SolverError m' \/
     System.solve options m = NullDereference m') /\
    count_events is_solve (System.trace m')
    <= count_events is_solve (System.trace m) + Z.to_nat (maxiter_of options).
Proof.
  destruct (solve_last options m) as (k & before & Hit & Hl).
  destruct (iterates_counts Hit) as (C1 & C2 & C3 & _).
  cbn [solve_start System.trace] in C3.
  pose proof (iteration_body_updates (maxiter_of options) (rtol_of options)
                (xtol_of options) options k before) as Hu. cbv zeta in Hu.
  destruct Hu as (_ & _ & new & Hn & _ & Hle & Hone).
  destruct (System.iteration_body _ _ _ _ k before) as [m1|m1|m1|m1];
    try contradiction; cbn [step_machine] in Hn.
  - exists (solve_finish m1). split; [auto|]. cbn [solve_finish System.trace].
    rewrite Hn, count_events_app, C3.
    destruct (Nat.eq_dec (count_events is_solve new) 1) as [E|E];
      [specialize (Hone E)|]; lia.
  - exists m1. split; [auto|].
    rewrite Hn, count_events_app, C3.
    destruct (Nat.eq_dec (count_events is_solve new) 1) as [E|E];
      [specialize (Hone E)|]; lia.
  - exists m1. split; [auto|].
    rewrite Hn, count_events_app, C3.
    destruct (Nat.eq_dec (count_events is_solve new) 1) as [E|E];
      [specialize (Hone E)|]; lia.
Qed.

(** X6.  When [solve] returns, the reason is 0, 1 or 2 and the message is the
    one of that reason, never "Not solved" or the error text. *)
Theorem returned_reason_message options m m' :
  System.solve options m = Returned m' ->
  (System.m_stopping_reason (System.system m') = 0%Z /\
   System.stopping_reason_message (System.system m')
   = "A solution was found, given rtol"%string) \/
  (System.m_stopping_reason (System.system m') = 1%Z /\
   System.stopping_reason_message (System.system m')
   = "A solution was found, given xtol"%string) \/
  (System.m_stopping_reason (System.system m') = 2%Z /\
   System.stopping_reason_message (System.system m')
   = "The iteration limit was reached"%string).
Proof.
  intros E. destruct (solve_last options m) as (k & before & _ & Hl).
  destruct (iteration_body_case (maxiter_of options) (rtol_of options)
              (xtol_of options) options k before);
    try contradiction; rewrite Hl in E; try discriminate; injection E as <-.
  - right. right. split; reflexivity.
  - left. split; reflexivity.
  - right. left. split; reflexivity.
Qed.

(** X7.  A tolerance that is zero or negative switches its test off. *)
Theorem nonpositive_tolerances options m m' :
  System.solve options m = Returned m' ->
  ((rtol_of options <= 0)%Q -> System.m_stopping_reason (System.system m') <> 0%Z) /\
  ((xtol_of options <= 0)%Q -> System.m_stopping_reason (System.system m') <> 1%Z).
Proof.
  intros E. destruct (solve_last options m) as (k & before & _ & Hl).
  destruct (iteration_body_case (maxiter_of options) (rtol_of options)
              (xtol_of options) options k before)
    as [Hge|Hlt Hr|Hlt Hr Hs|kind Hlt Hr Hs Hx|kind x Hlt Hr Hs Hx Hxt
        |kind x Hlt Hr Hs Hx Hxt];
    try contradiction; rewrite Hl in E; try discriminate; injection E as <-;
    cbn [solve_finish System.system System.m_stopping_reason
         System.set_m_stopping_reason].
  - split; intros _; discriminate.
  - split; [|intros _; discriminate]. intros Ht.
    rewrite (norm_ltb_nonpositive _ Ht) in Hr. discriminate.
  - split; [intros _; discriminate|]. intros Ht.
    rewrite (norm_ltb_nonpositive _ Ht) in Hxt. discriminate.
Qed.

(** X8.  When the solver throws, [solve] lets the exception through at once:
    the stopping reason is the one of before the call and no residual is
    written back to a DoF. *)
Theorem solver_exception options m e m' :
  System.solve options m = Raised e m' ->
  e = SolverError /\
  System.m_stopping_reason (System.system m')
  = System.m_stopping_reason (System.system m) /\
  (forall d, residual (System.dofstore m') d = residual (System.dofstore m) d) /\
  exists earlier, System.trace m' = earlier ++ [SetMatrix; Solve].
Proof.
  intros E. destruct (solve_last options m) as (k & before & Hit & Hl).
  destruct (iterates_updates Hit) as (_ & I2 & I3 & _).
  cbn [solve_start System.system System.dofstore System.m_stopping_reason
       System.set_m_target] in I2, I3.
  destruct (iteration_body_case (maxiter_of options) (rtol_of options)
              (xtol_of options) options k before);
    try contradiction; rewrite Hl in E; try discriminate.
  injection E as <- <-. cbn [System.system System.dofstore System.trace].
  split; [reflexivity|]. split; [exact I3|]. split; [exact I2|].
  eexists. reflexivity.
Qed.

(** X9.  Every element [compute] that [solve] calls is given the caller's
    options with ["iteration"] set to the number of the pass, and all that
    [solve] adds to the trace are passes of iterations [0 .. maxiter-1]. *)
Theorem solve_trace options m m' :
  outcome_machine (System.solve options m) = Some m' ->
  exists new,
    System.trace m' = System.trace m ++ new /\
    Forall (pass_event options (maxiter_of options)) new.
Proof.
  intros E. destruct (solve_last options m) as (k & before & Hit & Hl).
  destruct (iterates_counts Hit) as (C1 & _).
  destruct (iterates_updates Hit) as (_ & _ & _ & new1 & I4 & I5).
  cbn [solve_start System.trace] in I4.
  pose proof (iteration_body_updates (maxiter_of options) (rtol_of options)
                (xtol_of options) options k before) as Hu. cbv zeta in Hu.
  destruct Hu as (_ & _ & new2 & Hn & Hall & _).
  exists (new1 ++ new2).
  assert (Hf : Forall (pass_event options (maxiter_of options)) (new1 ++ new2))
    by (apply Forall_app; split; [apply I5; lia | apply Hall; lia]).
  destruct (System.iteration_body _ _ _ _ k before) as [m1|m1|m1|m1];
    try contradiction; rewrite Hl in E; cbn [outcome_machine] in E;
    injection E as <-; cbn [step_machine solve_finish System.trace] in *;
    (split; [rewrite Hn, I4, app_assoc; reflexivity | exact Hf]).
Qed.

End DriverFacts.

Section DriverStore.

Context {sorter : System.StdSort} {solver : LinearSolver}.

Lemma solve_delta_other options m m' d :
  outcome_machine (System.solve options m) = Some m' ->
  (forall i, i < System.nb_free_dofs (System.system m) ->
             nth i (System.m_dofs (System.system m)) 0 <> d) ->
  delta (System.dofstore m') d = delta (System.dofstore m) d.
Proof.
  intros E Hd. destruct (solve_last options m) as (k & before & Hit & Hl).
  destruct (iterates_updates Hit) as (I1 & _).
  destruct (iterates_framed Hit) as (L & _).
  cbn [solve_start System.system System.dofstore] in I1, L.
  pose proof (iteration_body_updates (maxiter_of options) (rtol_of options)
                (xtol_of options) options k before) as Hu. cbv zeta in Hu.
  destruct Hu as (U1 & _).
  assert (Hd' : forall i, i < System.nb_free_dofs (System.system before) ->
                          nth i (System.m_dofs (System.system before)) 0 <> d).
  { unfold System.nb_free_dofs in *. rewrite (sl_nb_free L), (sl_dofs L). exact Hd. }
  specialize (U1 d Hd'). specialize (I1 d Hd).
  destruct (System.iteration_body _ _ _ _ k before) as [m1|m1|m1|m1];
    try contradiction; rewrite Hl in E; cbn [outcome_machine] in E;
    injection E as <-; cbn [step_machine solve_finish System.dofstore] in *;
    rewrite ?store_residuals_delta; congruence.
Qed.

(** X10.  [solve] never changes the value of a fixed DoF. *)
Theorem fixed_dofs_keep_delta junk store elements coptions m0 m options m' d :
  constructed junk store elements coptions m0 ->
  operations m0 m ->
  outcome_machine (System.solve options m) = Some m' ->
  isfixed (System.dofstore m) d = true ->
  delta (System.dofstore m') d = delta (System.dofstore m) d.
Proof.
  intros Hc Hops E Hfixed. apply (solve_delta_other options m E).
  destruct (constructed_ready Hc) as (Es & Est & _ & Hr).
  destruct (operations_invariant Hops Hr) as (L & _ & _ & F).
  pose proof (construct_partitioned junk store elements coptions) as Hp.
  intros i Hi Ed. unfold System.nb_free_dofs in Hi.
  rewrite (sl_nb_free L), Es in Hi. rewrite (sl_dofs L), Es in Ed.
  destruct (Hp i) as [Hfree _]. specialize (Hfree Hi). rewrite Ed in Hfree.
  destruct (F d) as [Fd _]. rewrite Est in Fd. congruence.
Qed.

(** X11.  The target that the passes compare with: the DoFs' targets, times
    [lambda] unless [lambda] equals 1. *)
Theorem target_setup options m m' :
  length (System.m_target (System.system m)) = System.nb_free_dofs (System.system m) ->
  outcome_machine (System.solve options m) = Some m' ->
  System.m_target (System.system m') =
  map (fun i =>
         let t := target (System.dofstore m) (nth i (System.m_dofs (System.system m)) 0) in
         if Qeq_bool (lambda_of options) 1 then t else (t * lambda_of options)%Q)
      (seq 0 (System.nb_free_dofs (System.system m))).
Proof.
  intros Hlen E. destruct (solve_last options m) as (k & before & Hit & Hl).
  destruct (iterates_framed Hit) as (_ & T & _).
  pose proof (iteration_body_framed (maxiter_of options) (rtol_of options)
                (xtol_of options) options k before) as (_ & T' & _).
  assert (Hs : System.m_target (System.system (solve_start options m)) =
               map (fun i =>
                      let t := target (System.dofstore m)
                                 (nth i (System.m_dofs (System.system m)) 0) in
                      if Qeq_bool (lambda_of options) 1 then t
                      else (t * lambda_of options)%Q)
                   (seq 0 (System.nb_free_dofs (System.system m)))).
  { cbn [solve_start System.system System.m_target System.set_m_target].
    unfold System.setup_target.
    rewrite (for_range_fill
               (fun i => target (System.dofstore m)
                           (nth i (System.m_dofs (System.system m)) 0)))
      by exact Hlen.
    destruct (Qeq_bool (lambda_of options) 1); cbn [negb].
    - reflexivity.
    - unfold vec_scale. rewrite map_map. reflexivity. }
  rewrite <- Hs, <- T.
  destruct (System.iteration_body _ _ _ _ k before) as [m1|m1|m1|m1];
    try contradiction; rewrite Hl in E; cbn [outcome_machine] in E;
    injection E as <-; cbn [step_machine solve_finish System.system] in *; exact T'.
Qed.

(** X12.  After the return every free DoF carries, in its residual field, its
    coefficient of [m_residual]. *)
Theorem residuals_written_back junk store elements coptions m0 m options m' :
  constructed junk store elements coptions m0 ->
  operations m0 m ->
  System.solve options m = Returned m' ->
  forall i, i < System.nb_free_dofs (System.system m') ->
    residual (System.dofstore m') (nth i (System.m_dofs (System.system m')) 0)
    = vec_get (System.m_residual (System.system m')) i.
Proof.
  intros Hc Hops E i Hi.
  destruct (constructed_ready Hc) as (Es & _ & _ & Hr).
  destruct (operations_invariant Hops Hr) as (L & _).
  destruct (solve_last options m) as (k & before & Hit & Hl).
  destruct (iterates_framed Hit) as (Lb & _).
  pose proof (iteration_body_framed (maxiter_of options) (rtol_of options)
                (xtol_of options) options k before) as (Lc & _).
  cbn [solve_start System.system] in Lb.
  destruct (System.iteration_body _ _ _ _ k before) as [m1|m1|m1|m1];
    try contradiction; rewrite Hl in E; try discriminate. injection E as <-.
  cbn [step_machine] in Lc. cbn [solve_finish System.system System.dofstore] in *.
  assert (Hd : System.m_dofs (System.system m1) =
               System.m_dofs (fst (System.construct junk store elements coptions)) /\
               System.m_nb_free_dofs (System.system m1) =
               System.m_nb_free_dofs (fst (System.construct junk store elements coptions))).
  { split.
    - transitivity (System.m_dofs (System.system before)); [exact (sl_dofs Lc)|].
      transitivity (System.m_dofs (System.system m)); [exact (sl_dofs Lb)|].
      rewrite (sl_dofs L), Es. reflexivity.
    - transitivity (System.m_nb_free_dofs (System.system before));
        [exact (sl_nb_free Lc)|].
      transitivity (System.m_nb_free_dofs (System.system m)); [exact (sl_nb_free Lb)|].
      rewrite (sl_nb_free L), Es. reflexivity. }
  destruct Hd as [Hd HF].
  apply store_residuals_written; [| |exact Hi].
  - rewrite Hd. apply construct_NoDup.
  - unfold System.nb_free_dofs.
    rewrite Hd, HF, construct_m_dofs, construct_nb_free, length_app. lia.
Qed.

(** X13.  With [maxiter <= 0] on a system that has just been constructed, what
    [solve] writes into the residual fields of the free DoFs is the
    content of [m_residual], which the constructor did not initialise. *)
Theorem uninitialised_residuals junk store elements coptions m0 options :
  constructed junk store elements coptions m0 ->
  (maxiter_of options <= 0)%Z ->
  exists m',
    System.solve options m0 = Returned m' /\
    forall i, i < System.nb_free_dofs (System.system m') ->
      residual (System.dofstore m') (nth i (System.m_dofs (System.system m')) 0)
      = System.junk_vector junk 3 i.
Proof.
  intros Hc Hmax. destruct (constructed_ready Hc) as (Es & _ & _ & Hr).
  assert (Hops : operations m0 m0) by apply ops_none.
  rewrite solve_unfold. cbn [System.newton_loop]. unfold System.iteration_body.
  destruct (Z.geb_spec 0 (maxiter_of options)) as [_|Hlt]; [|lia].
  eexists. split; [reflexivity|].
  cbn [solve_finish solve_start System.system System.dofstore].
  intros i Hi.
  change (System.m_dofs
            (System.set_m_stopping_reason 2
               (System.set_m_target
                  (System.setup_target (lambda_of options) (System.dofstore m0)
                     (System.system m0)) (System.system m0))))
    with (System.m_dofs (System.system m0)).
  change (System.nb_free_dofs
            (System.set_m_stopping_reason 2
               (System.set_m_target
                  (System.setup_target (lambda_of options) (System.dofstore m0)
                     (System.system m0)) (System.system m0))))
    with (System.m_nb_free_dofs (System.system m0)) in Hi.
  match goal with
  | |- residual (System.store_residuals ?s ?st) _ = _ =>
      destruct (@store_residuals_written s st) as [Hw _]
  end.
  - change (NoDup (System.m_dofs (System.system m0))). rewrite Es. apply construct_NoDup.
  - change (System.m_nb_free_dofs (System.system m0)
            <= length (System.m_dofs (System.system m0))).
    rewrite Es, construct_m_dofs, construct_nb_free, length_app. lia.
  - etransitivity; [apply (Hw i); exact Hi|].
    change (vec_get (System.m_residual (System.system m0)) i
            = System.junk_vector junk 3 i).
    rewrite Es in *. unfold System.construct. cbn [fst System.m_residual].
    unfold Vector_uninitialized, vec_get.
    rewrite (nth_indep _ 0%Q (System.junk_vector junk 3 0)).
    + rewrite map_nth, seq_nth; [reflexivity|].
      rewrite construct_nb_free in Hi. rewrite element_dofs_fill. exact Hi.
    + rewrite length_map, length_seq.
      rewrite construct_nb_free in Hi. rewrite element_dofs_fill. exact Hi.
Qed.

End DriverStore.

(* ================================================================== *)
(** * Exact sums *)

(** Addition of rationals is associative and commutative as it stands, not
    only up to [==]: the order in which contributions are added does not
    show in the result. *)
Lemma Qplus_comm_eq (x y : Q) : (x + y)%Q = (y + x)%Q.
Proof.
  destruct x as [a b], y as [c d]. unfold Qplus. cbn [Qnum Qden].
  f_equal; [ring | apply Pos.mul_comm].
Qed.

Lemma Qplus_assoc_eq (x y z : Q) : (x + (y + z))%Q = (x + y + z)%Q.
Proof.
  destruct x as [a b], y as [c d], z as [e f]. unfold Qplus. cbn [Qnum Qden].
  f_equal; [|apply Pos.mul_assoc].
  rewrite !Pos2Z.inj_mul. ring.
Qed.

Lemma Qplus_0_r_eq (x : Q) : (x + 0)%Q = x.
Proof.
  destruct x as [a b]. unfold Qplus. cbn [Qnum Qden].
  f_equal; [ring | apply Pos.mul_1_r].
Qed.


(* ================================================================== *)
(** * Coefficients of a sparse matrix *)

(** The value in the slot [(row, col)], and 0 where there is no slot. *)
Definition col_coeff (c : list (nat * Q)) (row : nat) : Q :=
  match find (fun slot => fst slot =? row) c with
  | Some slot => snd slot
  | None => 0%Q
  end.

Definition coeff (m : Sparse) (row col : nat) : Q :=
  col_coeff (nth col (sp_outer m) []) row.

Lemma col_coeff_add (row : nat) (v : Q) (c : list (nat * Q)) (r : nat) :
  StronglySorted lt (map fst c) -> In row (map fst c) ->
  col_coeff (col_coeffRef_add row v c) r =
  if r =? row then (col_coeff c r + v)%Q else col_coeff c r.
Proof.
  unfold col_coeff. induction c as [|[r' w] c IH]; simpl; intros Hs Hin.
  - contradiction.
  - inversion Hs as [|? ? Hs' Hlt]; subst.
    destruct (Nat.eqb_spec row r') as [->|Hne]; simpl.
    + destruct (Nat.eqb_spec r' r) as [->|Hr].
      * rewrite Nat.eqb_refl. reflexivity.
      * destruct (Nat.eqb_spec r r'); [congruence | reflexivity].
    + destruct Hin as [E|Hin]; [congruence|].
      rewrite Forall_forall in Hlt. pose proof (Hlt _ Hin).
      destruct (Nat.ltb_spec row r'); [lia|]. simpl.
      destruct (Nat.eqb_spec r' r) as [->|Hr].
      * destruct (Nat.eqb_spec r row); [lia | reflexivity].
      * apply IH; assumption.
Qed.

Lemma coeff_coeffRef_add (row col : nat) (v : Q) (m : Sparse) (r c : nat) :
  sorted_columns m -> structural m row col ->
  coeff (Sparse_coeffRef_add row col v m) r c =
  if (r =? row) && (c =? col) then (coeff m r c + v)%Q else coeff m r c.
Proof.
  intros Hs Hin. unfold coeff, Sparse_coeffRef_add. cbn [sp_outer].
  unfold structural, structure in Hin. unfold sorted_columns, structure in Hs.
  change (@nil nat) with (map (@fst nat Q) []) in Hin. rewrite map_nth in Hin.
  assert (Hcol : col < length (sp_outer m)).
  { destruct (Nat.lt_ge_cases col (length (sp_outer m))) as [H|H]; [exact H|].
    rewrite nth_overflow in Hin by exact H. contradiction. }
  rewrite list_upd_nth by exact Hcol.
  destruct (Nat.eqb_spec c col) as [->|Hne].
  - rewrite col_coeff_add; [|rewrite Forall_forall in Hs; apply Hs, in_map, nth_In; exact Hcol
                            |exact Hin].
    destruct (r =? row); reflexivity.
  - rewrite Bool.andb_false_r. reflexivity.
Qed.

Lemma col_ext (a b : list (nat * Q)) :
  map fst b = map fst a -> NoDup (map fst a) ->
  (forall r, In r (map fst a) -> col_coeff b r = col_coeff a r) ->
  b = a.
Proof.
  revert b. induction a as [|[r w] a IH]; intros [|[r' w'] b] Hf Hnd Hc;
    simpl in *; try discriminate; [reflexivity|].
  injection Hf as -> Hf. inversion Hnd as [|? ? Hnot Hnd']; subst.
  pose proof (Hc r (or_introl eq_refl)) as Hr. unfold col_coeff in Hr. simpl in Hr.
  rewrite Nat.eqb_refl in Hr. simpl in Hr. subst w'. f_equal.
  apply IH; [exact Hf | exact Hnd'|].
  intros x Hx. specialize (Hc x (or_intror Hx)). unfold col_coeff in *. simpl in Hc.
  destruct (Nat.eqb_spec r x) as [->|_]; [contradiction | exact Hc].
Qed.

Lemma StronglySorted_lt_NoDup (l : list nat) : StronglySorted lt l -> NoDup l.
Proof.
  induction 1 as [|x l Hs IH Hx]; constructor; [|exact IH].
  intros Hin. rewrite Forall_forall in Hx. specialize (Hx _ Hin). lia.
Qed.

(** Two matrices of one skeleton with the same coefficients are the same. *)
Lemma sparse_ext (a b : Sparse) :
  same_skeleton a b -> sorted_columns a ->
  (forall r c, structural a r c -> coeff b r c = coeff a r c) ->
  b = a.
Proof.
  intros (Hst & Hr & Hc) Hs Hco. destruct a as [ra ca oa], b as [rb cb ob].
  cbn [sp_rows sp_cols] in Hr, Hc. subst rb cb. f_equal.
  unfold structure, sorted_columns, structural, coeff in *. cbn [sp_outer] in *.
  assert (Hlen : length ob = length oa).
  { apply (f_equal (@length _)) in Hst. rewrite !length_map in Hst. exact Hst. }
  apply nth_ext with (d := []) (d' := []); [exact Hlen|].
  intros c Hcb. rewrite Hlen in Hcb. apply col_ext.
  - rewrite <- !(map_nth (map fst)). simpl. rewrite Hst. reflexivity.
  - apply StronglySorted_lt_NoDup. rewrite Forall_forall in Hs. apply Hs.
    apply in_map. apply nth_In. exact Hcb.
  - intros r Hin. apply Hco. unfold structure. cbn [sp_outer].
    change (@nil nat) with (map (@fst nat Q) []). rewrite map_nth. exact Hin.
Qed.

Lemma coeff_setZero (m : Sparse) (r c : nat) : coeff (Sparse_setZero m) r c = 0%Q.
Proof.
  unfold coeff, Sparse_setZero. cbn [sp_outer].
  change (@nil (nat * Q)) with (map (fun slot : nat * Q => (fst slot, 0%Q)) []).
  rewrite map_nth. unfold col_coeff.
  induction (nth c (sp_outer m) []) as [|[r' w] col IH]; simpl; [reflexivity|].
  destruct (r' =? r); [reflexivity | exact IH].
Qed.

(* ================================================================== *)
(** * Assembly adds contributions *)

Lemma for_range_rel {S1 S2 : Type} (R : S1 -> S2 -> Prop) (lo hi : nat)
    (f : nat -> S1 -> S1) (g : nat -> S2 -> S2) (s : S1) (t : S2) :
  R s t ->
  (forall i a b, lo <= i < hi -> R a b -> R (f i a) (g i b)) ->
  R (for_range lo hi f s) (for_range lo hi g t).
Proof.
  intros H0 Hstep. destruct (Nat.le_gt_cases lo hi) as [Hle|Hgt].
  - induction hi as [|hi IH].
    + rewrite !for_range_empty by lia. exact H0.
    + destruct (Nat.eq_dec lo (S hi)) as [->|Hne].
      * rewrite !for_range_empty by lia. exact H0.
      * rewrite !for_range_last by lia. apply Hstep; [lia|].
        apply IH; [|lia]. intros i a b Hi. apply Hstep. lia.
  - rewrite !for_range_empty by lia. exact H0.
Qed.

Lemma vec_get_list_upd (v : Vector) (g : nat) (f : Q -> Q) (i : nat) :
  vec_get (list_upd v g f) i =
  if (i =? g) && (g <? length v) then f (vec_get v g) else vec_get v i.
Proof.
  unfold vec_get. destruct (Nat.ltb_spec g (length v)) as [Hg|Hg].
  - rewrite list_upd_nth by exact Hg. destruct (i =? g); reflexivity.
  - rewrite list_upd_out by exact Hg. rewrite Bool.andb_false_r. reflexivity.
Qed.

Lemma same_skeleton_sym a b : same_skeleton a b -> same_skeleton b a.
Proof. intros (E1 & E2 & E3). repeat split; congruence. Qed.

Lemma vec_sums_upd (va vb vc : Vector) (g : nat) (v : Q) :
  length va = length vb -> length vc = length vb ->
  (forall i, vec_get va i = (vec_get vb i + vec_get vc i)%Q) ->
  forall i, vec_get (list_upd va g (fun c => (c + v)%Q)) i =
            (vec_get vb i + vec_get (list_upd vc g (fun c => (c + v)%Q)) i)%Q.
Proof.
  intros La Lc H i. rewrite !vec_get_list_upd, La, Lc.
  destruct (Nat.eqb_spec i g) as [->|_]; cbn [andb]; [|apply H].
  destruct (g <? length vb); [|apply H].
  rewrite H. symmetry. apply Qplus_assoc_eq.
Qed.

(** [A] holds, slot by slot, the sums of what [B] and [C] hold. *)
Record sums (A B C : Sparse * Vector) : Prop := {
  sums_skeleton_A : same_skeleton (fst B) (fst A);
  sums_skeleton_C : same_skeleton (fst B) (fst C);
  sums_coeff : forall r c, coeff (fst A) r c = (coeff (fst B) r c + coeff (fst C) r c)%Q;
  sums_length_A : length (snd A) = length (snd B);
  sums_length_C : length (snd C) = length (snd B);
  sums_vec : forall i, vec_get (snd A) i = (vec_get (snd B) i + vec_get (snd C) i)%Q
}.

Lemma scatter_sums (nb_free : nat) (T : list System.Index) (local_lhs : Matrix)
    (local_rhs : Vector) (A B C : Sparse * Vector) :
  sorted_columns (fst B) -> covers nb_free T (fst B) ->
  sums A B C ->
  sums (System.scatter nb_free T local_lhs local_rhs A) B
       (System.scatter nb_free T local_lhs local_rhs C).
Proof.
  intros Hs Hc H0. unfold System.scatter.
  apply for_range_rel with (R := fun a c => sums a B c); [exact H0|].
  intros row a c Hrow Hac. cbv zeta.
  destruct (Nat.leb_spec nb_free (System.global (nth row T System.Index_zero)))
    as [|Hfree]; [exact Hac|].
  apply for_range_rel with (R := fun a c => sums a B c).
  - destruct Hac as [K1 K2 Hco L1 L2 Hv]. constructor; cbn [fst snd]; auto.
    + rewrite list_upd_length. exact L1.
    + rewrite list_upd_length. exact L2.
    + apply vec_sums_upd; assumption.
  - intros col a' c' Hcol Hac'.
    destruct (Nat.leb_spec nb_free (System.global (nth col T System.Index_zero)))
      as [|Hcfree]; [exact Hac'|].
    destruct Hac' as [K1 K2 Hco L1 L2 Hv].
    assert (Hst : structural (fst B) (System.global (nth row T System.Index_zero))
                    (System.global (nth col T System.Index_zero))).
    { apply Hc. exists row, col. repeat split; auto; lia. }
    constructor; cbn [fst snd]; auto.
    + eapply same_skeleton_trans; [exact K1|].
      apply Sparse_coeffRef_add_skeleton.
      * eapply same_skeleton_sorted; eassumption.
      * eapply same_skeleton_structural; eassumption.
    + eapply same_skeleton_trans; [exact K2|].
      apply Sparse_coeffRef_add_skeleton.
      * eapply same_skeleton_sorted; eassumption.
      * eapply same_skeleton_structural; eassumption.
    + intros r c0. rewrite !coeff_coeffRef_add.
      * destruct ((r =? _) && (c0 =? _)); [|apply Hco].
        rewrite Hco. symmetry. apply Qplus_assoc_eq.
      * eapply same_skeleton_sorted; eassumption.
      * eapply same_skeleton_structural; eassumption.
      * eapply same_skeleton_sorted; [exact K1 | exact Hs].
      * eapply same_skeleton_structural; [exact K1 | exact Hst].
Qed.

Lemma assemble_elements_sums (options : Options) (store : DofStore) (s : System.t)
    (indices : list nat) (A B C : Sparse * Vector) :
  sorted_columns (fst B) ->
  (forall T, In T (System.m_index_table s) ->
             covers (System.nb_free_dofs s) T (fst B)) ->
  sums A B C ->
  sums (assemble_elements options store s indices A) B
       (assemble_elements options store s indices C).
Proof.
  intros Hs Hc. unfold assemble_elements, for_each. revert A C.
  induction indices as [|i indices IH]; intros A C H0; simpl; [exact H0|].
  apply IH. unfold System.assemble_element. apply scatter_sums; [exact Hs| |exact H0].
  apply covers_nth. exact Hc.
Qed.

Lemma vec_get_setZero (v : Vector) (i : nat) : vec_get (setZero v) i = 0%Q.
Proof.
  unfold vec_get, setZero. revert i. induction v as [|x v IH]; intros [|i]; simpl; auto.
Qed.

(** The state a zeroing leaves, next to the state [B] it was made from. *)
Definition zeroed (B : Sparse * Vector) : Sparse * Vector :=
  (Sparse_setZero (fst B), setZero (snd B)).

Lemma sums_zeroed (B : Sparse * Vector) : sums B B (zeroed B).
Proof.
  constructor; cbn [fst snd zeroed].
  - apply same_skeleton_refl.
  - apply Sparse_setZero_same_skeleton.
  - intros r c. rewrite coeff_setZero, Qplus_0_r_eq. reflexivity.
  - reflexivity.
  - apply length_map.
  - intros i. rewrite vec_get_setZero, Qplus_0_r_eq. reflexivity.
Qed.

Lemma vector_ext (a b : Vector) :
  length b = length a -> (forall i, vec_get b i = vec_get a i) -> b = a.
Proof.
  intros Hl H. apply nth_ext with (d := 0%Q) (d' := 0%Q); [exact Hl|].
  intros i _. apply H.
Qed.

(** States with the same sums are the same state. *)
Lemma sums_unique (A A' B C : Sparse * Vector) :
  sorted_columns (fst B) ->
  sums A B C -> sums A' B C -> A' = A.
Proof.
  intros Hs [K1 K2 Hco L1 L2 Hv] [K1' K2' Hco' L1' L2' Hv'].
  destruct A as [ma va], A' as [ma' va']. cbn [fst snd] in *. f_equal.
  - apply sparse_ext.
    + destruct K1 as (E1 & E2 & E3), K1' as (E1' & E2' & E3').
      repeat split; congruence.
    + eapply same_skeleton_sorted; eassumption.
    + intros r c _. rewrite Hco, Hco'. reflexivity.
  - apply vector_ext; [congruence|]. intros i. rewrite Hv, Hv'. reflexivity.
Qed.

Lemma zeroed_skeleton (A B : Sparse * Vector) :
  same_skeleton (fst B) (fst A) -> length (snd A) = length (snd B) ->
  zeroed A = zeroed B.
Proof.
  intros K L. unfold zeroed. rewrite (Sparse_setZero_skeleton K).
  rewrite (setZero_repeat (snd A)), L, <- setZero_repeat. reflexivity.
Qed.

(** Assembling into [X] gives [X] plus what assembling into zeros gives. *)
Lemma assemble_elements_adds (options : Options) (store : DofStore) (s : System.t)
    (indices : list nat) (X : Sparse * Vector) :
  sorted_columns (fst X) ->
  (forall T, In T (System.m_index_table s) ->
             covers (System.nb_free_dofs s) T (fst X)) ->
  sums (assemble_elements options store s indices X) X
       (assemble_elements options store s indices (zeroed X)).
Proof.
  intros Hs Hc. apply assemble_elements_sums; [exact Hs | exact Hc | apply sums_zeroed].
Qed.

Lemma assemble_elements_app (options : Options) (store : DofStore) (s : System.t)
    (l1 l2 : list nat) (X : Sparse * Vector) :
  assemble_elements options store s (l1 ++ l2) X =
  assemble_elements options store s l2 (assemble_elements options store s l1 X).
Proof. unfold assemble_elements. apply for_each_app. Qed.

Lemma assemble_elements_swap (options : Options) (store : DofStore) (s : System.t)
    (x y : nat) (X : Sparse * Vector) :
  sorted_columns (fst X) ->
  (forall T, In T (System.m_index_table s) ->
             covers (System.nb_free_dofs s) T (fst X)) ->
  assemble_elements options store s [x; y] X =
  assemble_elements options store s [y; x] X.
Proof.
  intros Hs Hc.
  change [x; y] with ([x] ++ [y]). change [y; x] with ([y] ++ [x]).
  rewrite !assemble_elements_app.
  set (Px := assemble_elements options store s [x] (zeroed X)).
  set (Py := assemble_elements options store s [y] (zeroed X)).
  pose proof (assemble_elements_adds options store s [x] X Hs Hc) as Hx. fold Px in Hx.
  pose proof (assemble_elements_adds options store s [y] X Hs Hc) as Hy. fold Py in Hy.
  set (Ax := assemble_elements options store s [x] X) in *.
  set (Ay := assemble_elements options store s [y] X) in *.
  assert (Hready : forall A P, sums A X P ->
            sorted_columns (fst A) /\
            (forall T, In T (System.m_index_table s) ->
                       covers (System.nb_free_dofs s) T (fst A)) /\
            zeroed A = zeroed X).
  { intros A P [K1 _ _ L1 _ _]. split; [eapply same_skeleton_sorted; eassumption|].
    split.
    - intros T HT row col Hp. eapply same_skeleton_structural; [exact K1|].
      eapply Hc; eassumption.
    - apply zeroed_skeleton; assumption. }
  destruct (Hready _ _ Hx) as (Sx & Cx & Zx). destruct (Hready _ _ Hy) as (Sy & Cy & Zy).
  pose proof (assemble_elements_adds options store s [y] Ax Sx Cx) as Hxy.
  pose proof (assemble_elements_adds options store s [x] Ay Sy Cy) as Hyx.
  rewrite Zx in Hxy. rewrite Zy in Hyx. fold Px in Hyx. fold Py in Hxy.
  set (Axy := assemble_elements options store s [y] Ax) in *.
  set (Ayx := assemble_elements options store s [x] Ay) in *.
  destruct Hx as [Kx1 Kx2 Hxc Lx1 Lx2 Hxv]. destruct Hy as [Ky1 Ky2 Hyc Ly1 Ly2 Hyv].
  destruct Hxy as [Kxy1 Kxy2 Hxyc Lxy1 Lxy2 Hxyv].
  destruct Hyx as [Kyx1 Kyx2 Hyxc Lyx1 Lyx2 Hyxv].
  destruct Axy as [mxy vxy], Ayx as [myx vyx]. cbn [fst snd] in *. f_equal.
  - symmetry. apply sparse_ext.
    + eapply same_skeleton_trans;
        [apply same_skeleton_sym; eapply same_skeleton_trans; [exact Kx1 | exact Kxy1]|].
      eapply same_skeleton_trans; [exact Ky1 | exact Kyx1].
    + eapply same_skeleton_sorted; [exact Kxy1 | exact Sx].
    + intros r c _. rewrite Hxyc, Hyxc, Hxc, Hyc.
      rewrite <- !Qplus_assoc_eq. f_equal. apply Qplus_comm_eq.
  - symmetry. apply vector_ext; [congruence|].
    intros i. rewrite Hxyv, Hyxv, Hxv, Hyv.
    rewrite <- !Qplus_assoc_eq. f_equal. apply Qplus_comm_eq.
Qed.

(** The order in which the elements are assembled does not matter. *)
Lemma assemble_elements_permutation (options : Options) (store : DofStore)
    (s : System.t) (l l' : list nat) :
  Permutation l l' ->
  forall X,
    sorted_columns (fst X) ->
    (forall T, In T (System.m_index_table s) ->
               covers (System.nb_free_dofs s) T (fst X)) ->
    assemble_elements options store s l X = assemble_elements options store s l' X.
Proof.
  induction 1 as [|x l l' Hp IH|x y l|l l' l'' Hp1 IH1 Hp2 IH2]; intros X Hs Hc.
  - reflexivity.
  - change (x :: l) with ([x] ++ l). change (x :: l') with ([x] ++ l').
    rewrite !assemble_elements_app.
    destruct (assemble_elements_adds options store s [x] X Hs Hc) as [K1 _ _ _ _ _].
    apply IH.
    + eapply same_skeleton_sorted; eassumption.
    + intros T HT row col Hpair. eapply same_skeleton_structural; [exact K1|].
      eapply Hc; eassumption.
  - change (y :: x :: l) with ([y; x] ++ l). change (x :: y :: l) with ([x; y] ++ l).
    rewrite !assemble_elements_app. f_equal. apply assemble_elements_swap; assumption.
  - rewrite IH1 by assumption. apply IH2; assumption.
Qed.

(* ================================================================== *)
(** * compute_parallel against compute *)

Lemma nth_map_seq {A : Type} (h : nat -> A) (n i : nat) (d : A) :
  i < n -> nth i (map h (seq 0 n)) d = h i.
Proof.
  intros Hi. rewrite (nth_indep _ d (h 0)) by (rewrite length_map, length_seq; exact Hi).
  rewrite map_nth, seq_nth by exact Hi. reflexivity.
Qed.

Lemma vec_get_vec_add (a b : Vector) (i : nat) :
  vec_get (vec_add a b) i =
  if i <? length a then (vec_get a i + vec_get b i)%Q else 0%Q.
Proof.
  unfold vec_add. destruct (Nat.ltb_spec i (length a)) as [Hi|Hi].
  - unfold vec_get at 1.
    apply (nth_map_seq (fun i => (vec_get a i + vec_get b i)%Q) 0%Q Hi).
  - unfold vec_get at 1. apply nth_overflow. rewrite length_map, length_seq. exact Hi.
Qed.

Lemma vec_add_length (a b : Vector) : length (vec_add a b) = length a.
Proof. unfold vec_add. rewrite length_map, length_seq. reflexivity. Qed.

Lemma sums_vec_add (a b c : Vector) :
  length a = length b -> length c = length b ->
  (forall i, vec_get a i = (vec_get b i + vec_get c i)%Q) ->
  a = vec_add b c.
Proof.
  intros La Lc H. symmetry. apply vector_ext.
  - rewrite vec_add_length. congruence.
  - intros i. rewrite vec_get_vec_add.
    destruct (Nat.ltb_spec i (length b)) as [Hi|Hi].
    + symmetry. apply H.
    + symmetry. unfold vec_get. apply nth_overflow. lia.
Qed.

Lemma Sparse_setZero_zero (m : Sparse) :
  Forall (fun v => v = 0%Q) (valuePtr m) -> Sparse_setZero m = m.
Proof.
  unfold Sparse_setZero, valuePtr. destruct m as [rows cols outer].
  cbn [sp_rows sp_cols sp_outer]. intros Hz. f_equal.
  induction outer as [|c outer IH]; [reflexivity|]. simpl in *.
  apply Forall_app in Hz. destruct Hz as [Hc Ho]. f_equal; [|apply IH; exact Ho].
  clear -Hc. induction c as [|[r w] c IH]; [reflexivity|]. simpl in *.
  inversion Hc; subst. f_equal. apply IH. assumption.
Qed.

Lemma setZero_zero (v : Vector) : Forall (fun c => c = 0%Q) v -> setZero v = v.
Proof.
  unfold setZero. induction 1 as [|x v Hx Hv IH]; [reflexivity|]. simpl.
  subst x. f_equal. exact IH.
Qed.

Section ParallelPipeline.

Context {sorter : System.StdSort} {solver : LinearSolver}.

Lemma compute_parallel_sums (order : list nat) (options : Options)
    (store : DofStore) (s : System.t) :
  assembly_ready s ->
  Permutation order (seq 0 (length (System.m_elements s))) ->
  let par := fst (System.compute_parallel order options store s) in
  let ser := fst (System.compute options store s) in
  sums (System.m_lhs par, System.m_rhs par) (System.m_lhs s, System.m_rhs s)
       (System.m_lhs ser, System.m_rhs ser).
Proof.
  intros [Hs Hc Hr] Hp par ser. subst par ser.
  rewrite compute_parallel_unfold, compute_unfold. cbv zeta.
  cbn [fst System.m_lhs System.m_rhs System.set_m_lhs_rhs].
  rewrite <- !surjective_pairing.
  change (Sparse_setZero (System.m_lhs s), setZero (System.m_rhs s))
    with (zeroed (System.m_lhs s, System.m_rhs s)).
  rewrite <- (assemble_elements_permutation options store s Hp
                (zeroed (System.m_lhs s, System.m_rhs s))).
  - apply assemble_elements_adds; assumption.
  - cbn [zeroed fst].
    eapply same_skeleton_sorted; [apply Sparse_setZero_same_skeleton | exact Hs].
  - intros T HT row col Hpair. cbn [zeroed fst].
    eapply same_skeleton_structural; [apply Sparse_setZero_same_skeleton|].
    eapply Hc; eassumption.
Qed.

(** X14.  In whatever order the results arrive, [compute_parallel] adds to every
    coefficient and to the right-hand side what [compute] would leave
    there: the old values stay in.  The sums are those of exact
    arithmetic, where the order of the additions does not matter. *)
Theorem compute_parallel_adds junk store elements coptions m0 m order options :
  constructed junk store elements coptions m0 ->
  operations m0 m ->
  Permutation order (seq 0 (length (System.m_elements (System.system m)))) ->
  let s := System.system m in
  let par := fst (System.compute_parallel order options (System.dofstore m) s) in
  let ser := fst (System.compute options (System.dofstore m) s) in
  structure (System.m_lhs par) = structure (System.m_lhs s) /\
  (forall row col,
     coeff (System.m_lhs par) row col =
     (coeff (System.m_lhs s) row col + coeff (System.m_lhs ser) row col)%Q) /\
  System.m_rhs par = vec_add (System.m_rhs s) (System.m_rhs ser).
Proof.
  intros Hc Hops Hp s par ser.
  destruct (constructed_ready Hc) as (_ & _ & _ & Hr0).
  destruct (operations_invariant Hops Hr0) as (_ & Hr & _).
  destruct (compute_parallel_sums options (System.dofstore m) Hr Hp)
    as [K1 _ Hco L1 L2 Hv]. cbn [fst snd] in *.
  split; [apply K1|]. split; [exact Hco|].
  apply sums_vec_add; assumption.
Qed.

(** X15.  On a left-hand side and a right-hand side that hold zeros,
    [compute_parallel] leaves what [compute] leaves, in whatever order the
    results arrive (in exact arithmetic). *)
Theorem compute_parallel_from_zero junk store elements coptions m0 m order options :
  constructed junk store elements coptions m0 ->
  operations m0 m ->
  Permutation order (seq 0 (length (System.m_elements (System.system m)))) ->
  Forall (fun v => v = 0%Q) (valuePtr (System.m_lhs (System.system m))) ->
  Forall (fun v => v = 0%Q) (System.m_rhs (System.system m)) ->
  let s := System.system m in
  System.m_lhs (fst (System.compute_parallel order options (System.dofstore m) s)) =
  System.m_lhs (fst (System.compute options (System.dofstore m) s)) /\
  System.m_rhs (fst (System.compute_parallel order options (System.dofstore m) s)) =
  System.m_rhs (fst (System.compute options (System.dofstore m) s)).
Proof.
  intros Hc Hops Hp Hz1 Hz2 s.
  destruct (constructed_ready Hc) as (_ & _ & _ & Hr0).
  destruct (operations_invariant Hops Hr0) as (_ & Hr & _).
  pose proof (compute_parallel_sums options (System.dofstore m) Hr Hp) as H.
  cbv zeta in H. fold s in H.
  assert (Hzero : zeroed (System.m_lhs s, System.m_rhs s)
                  = (System.m_lhs s, System.m_rhs s)).
  { unfold zeroed. cbn [fst snd]. f_equal.
    - apply Sparse_setZero_zero. exact Hz1.
    - apply setZero_zero. exact Hz2. }
  pose proof (sums_zeroed (System.m_lhs s, System.m_rhs s)) as Hz.
  rewrite Hzero in Hz.
  destruct H as [K1 K2 Hco L1 L2 Hv], Hz as [_ _ Hco0 _ _ Hv0]. cbn [fst snd] in *.
  split.
  - apply sparse_ext.
    + eapply same_skeleton_trans; [apply same_skeleton_sym; exact K2 | exact K1].
    + eapply same_skeleton_sorted; [exact K2 | apply (ar_sorted Hr)].
    + intros r c _. rewrite Hco. rewrite Qplus_comm_eq.
      assert (E0 : coeff (System.m_lhs s) r c = 0%Q).
      { change (coeff (System.m_lhs (System.system m)) r c = 0%Q).
        rewrite <- (Sparse_setZero_zero _ Hz1). apply coeff_setZero. }
      rewrite E0. apply Qplus_0_r_eq.
  - apply vector_ext; [congruence|]. intros i. rewrite Hv, Qplus_comm_eq.
    assert (E0 : vec_get (System.m_rhs s) i = 0%Q).
    { unfold vec_get. destruct (nth_in_or_default i (System.m_rhs s) 0%Q) as [Hin|E];
        [|exact E]. rewrite Forall_forall in Hz2. apply Hz2. exact Hin. }
    rewrite E0. apply Qplus_0_r_eq.
Qed.

End ParallelPipeline.

(* ================================================================== *)
(** * Assemble: split, apply and join *)





















(* ================================================================== *)
(** * Assemble::parallel against compute *)







Section ParallelReduce.

Context {sorter : System.StdSort} {solver : LinearSolver}.



End ParallelReduce.

(* ================================================================== *)
(** * What assembly computes *)

(** The sum of a list of terms, taken from the left as the code adds. *)
Definition sumQ (base : Q) (terms : list Q) : Q := fold_left Qplus terms base.

(** The terms that the element with index table [T] adds to the entry [g]
    of the right-hand side, and to the coefficient [(r, c)] of the left-hand
    side, in the order of the loops. *)
Definition rhs_terms (nb_free : nat) (T : list System.Index) (local_rhs : Vector)
    (g : nat) : list Q :=
  flat_map (fun row =>
    let row_index := nth row T System.Index_zero in
    if (System.global row_index <? nb_free) && (System.global row_index =? g)
    then [vec_get local_rhs (System.local row_index)] else [])
    (seq 0 (length T)).

Definition lhs_row_terms (nb_free : nat) (T : list System.Index) (local_lhs : Matrix)
    (r c : nat) (row : nat) (cols : list nat) : list Q :=
  flat_map (fun col =>
    let row_index := nth row T System.Index_zero in
    let col_index := nth col T System.Index_zero in
    if (System.global col_index <? nb_free) &&
       ((System.global row_index =? r) && (System.global col_index =? c))
    then [mat_get local_lhs (System.local row_index) (System.local col_index)] else [])
    cols.

Definition lhs_terms (nb_free : nat) (T : list System.Index) (local_lhs : Matrix)
    (r c : nat) : list Q :=
  flat_map (fun row =>
    if System.global (nth row T System.Index_zero) <? nb_free
    then lhs_row_terms nb_free T local_lhs r c row (seq row (length T - row))
    else [])
    (seq 0 (length T)).

Lemma sumQ_app (base : Q) (l1 l2 : list Q) :
  sumQ base (l1 ++ l2) = sumQ (sumQ base l1) l2.
Proof. unfold sumQ. apply fold_left_app. Qed.

Lemma scatter_rhs_terms (nb_free : nat) (T : list System.Index) (local_lhs : Matrix)
    (local_rhs : Vector) (acc : Sparse * Vector) (g : nat) :
  g < length (snd acc) ->
  vec_get (snd (System.scatter nb_free T local_lhs local_rhs acc)) g
  = sumQ (vec_get (snd acc) g) (rhs_terms nb_free T local_rhs g).
Proof.
  intros Hg. unfold System.scatter, rhs_terms.
  set (term := fun row =>
    let row_index := nth row T System.Index_zero in
    if (System.global row_index <? nb_free) && (System.global row_index =? g)
    then [vec_get local_rhs (System.local row_index)] else []).
  pose (Inv := fun (k : nat) (a : Sparse * Vector) =>
    length (snd a) = length (snd acc) /\
    vec_get (snd a) g = sumQ (vec_get (snd acc) g) (flat_map term (seq 0 k))).
  match goal with
  | |- vec_get (snd (for_range 0 ?n ?body acc)) g = _ =>
      assert (H : Inv n (for_range 0 n body acc))
  end.
  { apply for_range_inv with (P := Inv); [lia| |].
    - split; reflexivity.
    - intros row [ma va] Hrow [Hl Hv]. unfold Inv. cbn [snd] in Hl, Hv. cbv zeta.
      rewrite seq_S, flat_map_app, sumQ_app, <- Hv. cbn [flat_map]. rewrite app_nil_r.
      cbn [Nat.add]. unfold term at 1. cbv zeta.
      destruct (Nat.leb_spec nb_free (System.global (nth row T System.Index_zero)))
        as [Hfix|Hfree].
      + destruct (Nat.ltb_spec (System.global (nth row T System.Index_zero)) nb_free);
          [lia|]. cbn [andb]. split; [exact Hl | reflexivity].
      + destruct (Nat.ltb_spec (System.global (nth row T System.Index_zero)) nb_free);
          [|lia]. cbn [andb].
        assert (Hin : forall a0 : Sparse * Vector,
                  snd (for_range row (length T) (fun col acc0 =>
                         let col_index := nth col T System.Index_zero in
                         if nb_free <=? System.global col_index then acc0
                         else
                           (Sparse_coeffRef_add
                              (System.global (nth row T System.Index_zero))
                              (System.global col_index)
                              (mat_get local_lhs
                                 (System.local (nth row T System.Index_zero))
                                 (System.local col_index)) (fst acc0), snd acc0)) a0)
                  = snd a0).
        { intros a0. apply for_range_inv with
            (P := fun (_ : nat) (x : Sparse * Vector) => snd x = snd a0);
            [lia | reflexivity |].
          intros col x _ Hx. cbv zeta. destruct (nb_free <=? _); exact Hx. }
        rewrite Hin. cbn [snd]. rewrite list_upd_length. split; [exact Hl|].
        rewrite vec_get_list_upd. unfold Vector in *. rewrite Hl.
        destruct (Nat.eqb_spec g (System.global (nth row T System.Index_zero)))
          as [Heq|Hne].
        * rewrite <- Heq, Nat.eqb_refl.
          destruct (Nat.ltb_spec g (length (snd acc))); [|lia].
          reflexivity.
        * destruct (Nat.eqb_spec (System.global (nth row T System.Index_zero)) g);
            [congruence|]. reflexivity. }
  destruct H as [_ H]. exact H.
Qed.

Lemma scatter_lhs_terms (nb_free : nat) (T : list System.Index) (local_lhs : Matrix)
    (local_rhs : Vector) (acc : Sparse * Vector) (r c : nat) :
  sorted_columns (fst acc) -> covers nb_free T (fst acc) ->
  coeff (fst (System.scatter nb_free T local_lhs local_rhs acc)) r c
  = sumQ (coeff (fst acc) r c) (lhs_terms nb_free T local_lhs r c).
Proof.
  intros Hs Hc. unfold System.scatter, lhs_terms.
  set (term := fun row =>
    if System.global (nth row T System.Index_zero) <? nb_free
    then lhs_row_terms nb_free T local_lhs r c row (seq row (length T - row))
    else []).
  pose (Inv := fun (k : nat) (a : Sparse * Vector) =>
    same_skeleton (fst acc) (fst a) /\
    coeff (fst a) r c = sumQ (coeff (fst acc) r c) (flat_map term (seq 0 k))).
  match goal with
  | |- coeff (fst (for_range 0 ?n ?body acc)) r c = _ =>
      assert (H : Inv n (for_range 0 n body acc))
  end.
  { apply for_range_inv with (P := Inv); [lia| |].
    - split; [apply same_skeleton_refl | reflexivity].
    - intros row a Hrow [Hk Hv]. unfold Inv. cbv zeta.
      rewrite seq_S, flat_map_app, sumQ_app, <- Hv. cbn [flat_map]. rewrite app_nil_r.
      cbn [Nat.add]. unfold term at 1.
      destruct (Nat.leb_spec nb_free (System.global (nth row T System.Index_zero)))
        as [Hfix|Hfree].
      + destruct (Nat.ltb_spec (System.global (nth row T System.Index_zero)) nb_free);
          [lia|]. split; [exact Hk | reflexivity].
      + destruct (Nat.ltb_spec (System.global (nth row T System.Index_zero)) nb_free);
          [|lia].
        pose (Inner := fun (j : nat) (x : Sparse * Vector) =>
          same_skeleton (fst acc) (fst x) /\
          coeff (fst x) r c
          = sumQ (coeff (fst a) r c)
              (lhs_row_terms nb_free T local_lhs r c row (seq row (j - row)))).
        match goal with
        | |- _ /\ coeff (fst (for_range row ?n ?body ?x0)) r c = _ =>
            assert (HI : Inner n (for_range row n body x0))
        end.
        { apply for_range_inv with (P := Inner); [lia| |].
          - split; [exact Hk|]. rewrite Nat.sub_diag. reflexivity.
          - intros col x Hcol [Hkx Hvx]. unfold Inner. cbv zeta.
            replace (S col - row) with (S (col - row)) by lia.
            unfold lhs_row_terms in *. rewrite seq_S, flat_map_app, sumQ_app, <- Hvx.
            replace (row + (col - row)) with col by lia.
            cbn [flat_map]. rewrite app_nil_r. cbv zeta.
            destruct (Nat.leb_spec nb_free (System.global (nth col T System.Index_zero)))
              as [Hcfix|Hcfree].
            + destruct (Nat.ltb_spec (System.global (nth col T System.Index_zero)) nb_free);
                [lia|]. cbn [andb]. split; [exact Hkx | reflexivity].
            + destruct (Nat.ltb_spec (System.global (nth col T System.Index_zero)) nb_free);
                [|lia]. cbn [andb fst].
              assert (Hst : structural (fst x)
                              (System.global (nth row T System.Index_zero))
                              (System.global (nth col T System.Index_zero))).
              { eapply same_skeleton_structural; [exact Hkx|]. apply Hc.
                exists row, col. repeat split; auto; lia. }
              assert (Hsx : sorted_columns (fst x))
                by (eapply same_skeleton_sorted; eassumption).
              split.
              * eapply same_skeleton_trans; [exact Hkx|].
                apply Sparse_coeffRef_add_skeleton; assumption.
              * rewrite coeff_coeffRef_add by assumption.
                rewrite (Nat.eqb_sym r), (Nat.eqb_sym c).
                destruct ((System.global (nth row T System.Index_zero) =? r) &&
                          (System.global (nth col T System.Index_zero) =? c));
                  reflexivity. }
        destruct HI as [Hk' Hv']. split; [exact Hk'|].
        rewrite Hv'. reflexivity. }
  destruct H as [_ H]. exact H.
Qed.

Section AssemblySums.

Context {sorter : System.StdSort} {solver : LinearSolver}.

Lemma assemble_elements_terms (options : Options) (store : DofStore) (s : System.t)
    (indices : list nat) (X : Sparse * Vector) :
  sorted_columns (fst X) ->
  (forall T, In T (System.m_index_table s) ->
             covers (System.nb_free_dofs s) T (fst X)) ->
  (forall g, g < length (snd X) ->
     vec_get (snd (assemble_elements options store s indices X)) g
     = sumQ (vec_get (snd X) g)
         (flat_map (fun i =>
            rhs_terms (System.nb_free_dofs s) (nth i (System.m_index_table s) [])
              (snd (Element.compute (nth i (System.m_elements s) Element.null)
                      options store)) g) indices)) /\
  (forall r c,
     coeff (fst (assemble_elements options store s indices X)) r c
     = sumQ (coeff (fst X) r c)
         (flat_map (fun i =>
            lhs_terms (System.nb_free_dofs s) (nth i (System.m_index_table s) [])
              (fst (Element.compute (nth i (System.m_elements s) Element.null)
                      options store)) r c) indices)).
Proof.
  unfold assemble_elements, for_each. revert X.
  induction indices as [|i indices IH]; intros X Hs Hc.
  - split; reflexivity.
  - cbn [fold_left flat_map].
    set (X1 := System.assemble_element options store s i X).
    assert (H1 : same_skeleton (fst X) (fst X1) /\ length (snd X1) = length (snd X)).
    { unfold X1, System.assemble_element. destruct X as [mx vx].
      apply scatter_skeleton; [exact Hs | apply covers_nth; exact Hc]. }
    destruct H1 as [K1 L1].
    destruct (IH X1) as [IHr IHl].
    + eapply same_skeleton_sorted; eassumption.
    + intros T HT row col Hp. eapply same_skeleton_structural; [exact K1|].
      eapply Hc; eassumption.
    + split.
      * intros g Hg. rewrite IHr by lia. rewrite sumQ_app. f_equal.
        unfold X1, System.assemble_element. apply scatter_rhs_terms. exact Hg.
      * intros r c. rewrite IHl, sumQ_app. f_equal.
        unfold X1, System.assemble_element.
        apply scatter_lhs_terms; [exact Hs | apply covers_nth; exact Hc].
Qed.

(** X17.  What [compute] leaves: every entry of the right-hand side and every
    coefficient of the left-hand side is the sum, starting from 0 and
    taken in the order of the loops, of the local values of all elements
    at the positions whose global indices address it. *)
Theorem compute_sums junk store elements coptions m0 m options :
  constructed junk store elements coptions m0 ->
  operations m0 m ->
  let s := System.system m in
  let ser := fst (System.compute options (System.dofstore m) s) in
  let local := fun i =>
    Element.compute (nth i (System.m_elements s) Element.null) options
      (System.dofstore m) in
  (forall g, g < System.nb_free_dofs s ->
     vec_get (System.m_rhs ser) g
     = sumQ 0 (flat_map (fun i =>
                 rhs_terms (System.nb_free_dofs s) (nth i (System.m_index_table s) [])
                   (snd (local i)) g)
                 (seq 0 (length (System.m_elements s))))) /\
  (forall r c,
     coeff (System.m_lhs ser) r c
     = sumQ 0 (flat_map (fun i =>
                 lhs_terms (System.nb_free_dofs s) (nth i (System.m_index_table s) [])
                   (fst (local i)) r c)
                 (seq 0 (length (System.m_elements s))))).
Proof.
  intros Hc Hops s ser local.
  destruct (constructed_ready Hc) as (_ & _ & _ & Hr0).
  destruct (operations_invariant Hops Hr0) as (_ & Hr & _).
  destruct Hr as [Hs Hcov Hrl]. fold s in Hs, Hcov, Hrl.
  subst ser. rewrite compute_unfold. cbv zeta.
  cbn [fst System.m_lhs System.m_rhs System.set_m_lhs_rhs].
  destruct (@assemble_elements_terms options (System.dofstore m) s
              (seq 0 (length (System.m_elements s)))
              (Sparse_setZero (System.m_lhs s), setZero (System.m_rhs s)))
    as [Hrhs Hlhs].
  - cbn [fst]. eapply same_skeleton_sorted;
      [apply Sparse_setZero_same_skeleton | exact Hs].
  - intros T HT row col Hp. cbn [fst].
    eapply same_skeleton_structural; [apply Sparse_setZero_same_skeleton|].
    eapply Hcov; eassumption.
  - split.
    + intros g Hg. rewrite Hrhs.
      * cbn [snd]. rewrite vec_get_setZero. reflexivity.
      * cbn [snd]. unfold setZero. rewrite length_map, Hrl. exact Hg.
    + intros r c. rewrite Hlhs. cbn [fst]. rewrite coeff_setZero. reflexivity.
Qed.

End AssemblySums.

(* ================================================================== *)
(** * The facts above on concrete systems *)

(** A linear solver whose [solve] throws on every call. *)
Definition failing_solver : LinearSolver :=
  {| solver_solve := fun _ _ _ _ => None |}.

(** Storage that happens to hold zeros before its first write. *)
Definition zero_junk : System.Uninitialized :=
  {| System.junk_vector := fun _ _ => 0%Q; System.junk_int := (-1)%Z |}.

Definition zero_mixed : System.Machine :=
  {| System.system :=
       fst (System.construct (sorter := merge_sort) zero_junk Scenario.middle_fixed
              [Scenario.triangle; Scenario.bar] no_options);
     System.dofstore := Scenario.middle_fixed;
     System.trace := [AnalyzePattern] |}.

Lemma zero_mixed_constructed :
  constructed (sorter := merge_sort) zero_junk Scenario.middle_fixed
    [Scenario.triangle; Scenario.bar] no_options zero_mixed.
Proof.
  exists (System.system zero_mixed), [AnalyzePattern]. split; reflexivity.
Defined.

Lemma index_table_entries_witness :
  nth_error [Scenario.triangle; Scenario.bar] 1 = Some Scenario.bar /\
  exists T,
    nth_error (System.m_index_table (System.system Run.mixed)) 1 = Some T /\
    StronglySorted (fun a b => System.global a <= System.global b) T /\
    Permutation (map System.local T) (seq 0 (length (Element.dofs Scenario.bar))).
Proof.
  split; [reflexivity|].
  destruct (@index_table_entries merge_sort Scenario.junk Scenario.middle_fixed
              [Scenario.triangle; Scenario.bar] no_options 1 Scenario.bar eq_refl)
    as (T & H1 & H2 & H3 & _).
  exists T. repeat split; assumption.
Defined.

Lemma returned_reason_message_witness :
  System.solve (solver := diagonal_solver) (Scenario.with_maxiter 3) Run.one_dof
    = Returned (Run.solved (Scenario.with_maxiter 3) Run.one_dof) /\
  System.stopping_reason_message
    (System.system (Run.solved (Scenario.with_maxiter 3) Run.one_dof))
  <> "Error. Unknown stopping reason"%string.
Proof.
  assert (E : System.solve (solver := diagonal_solver) (Scenario.with_maxiter 3)
                Run.one_dof
              = Returned (Run.solved (Scenario.with_maxiter 3) Run.one_dof))
    by (vm_compute; reflexivity).
  split; [exact E|].
  destruct (@returned_reason_message diagonal_solver _ _ _ E)
    as [[_ H]|[[_ H]|[_ H]]]; rewrite H; discriminate.
Defined.

Lemma nonpositive_tolerances_witness :
  System.solve (solver := diagonal_solver) (Scenario.with_xtol 3 0) Run.one_dof
    = Returned (Run.solved (Scenario.with_xtol 3 0) Run.one_dof) /\
  (xtol_of (Scenario.with_xtol 3 0) <= 0)%Q /\
  System.m_stopping_reason
    (System.system (Run.solved (Scenario.with_xtol 3 0) Run.one_dof)) <> 1%Z.
Proof.
  assert (E : System.solve (solver := diagonal_solver) (Scenario.with_xtol 3 0)
                Run.one_dof
              = Returned (Run.solved (Scenario.with_xtol 3 0) Run.one_dof))
    by (vm_compute; reflexivity).
  assert (Hx : (xtol_of (Scenario.with_xtol 3 0) <= 0)%Q) by (vm_compute; discriminate).
  split; [exact E|]. split; [exact Hx|].
  exact (proj2 (@nonpositive_tolerances diagonal_solver _ _ _ E) Hx).
Defined.

Lemma solver_exception_witness :
  System.solve (solver := failing_solver) no_options Run.one_dof
    = Raised SolverError
        (Scenario.result Run.one_dof
           (System.solve (solver := failing_solver) no_options Run.one_dof)) /\
  System.m_stopping_reason
    (System.system
       (Scenario.result Run.one_dof
          (System.solve (solver := failing_solver) no_options Run.one_dof)))
  = System.m_stopping_reason (System.system Run.one_dof).
Proof.
  assert (E : System.solve (solver := failing_solver) no_options Run.one_dof
              = Raised SolverError
                  (Scenario.result Run.one_dof
                     (System.solve (solver := failing_solver) no_options Run.one_dof)))
    by (vm_compute; reflexivity).
  split; [exact E|].
  exact (proj1 (proj2 (@solver_exception failing_solver _ _ _ _ E))).
Defined.

Lemma solve_trace_witness :
  outcome_machine
    (System.solve (solver := diagonal_solver) (Scenario.with_maxiter 3) Run.one_dof)
  = Some (Run.solved (Scenario.with_maxiter 3) Run.one_dof) /\
  exists new,
    System.trace (Run.solved (Scenario.with_maxiter 3) Run.one_dof)
    = System.trace Run.one_dof ++ new /\
    Forall (pass_event (Scenario.with_maxiter 3) (maxiter_of (Scenario.with_maxiter 3)))
      new.
Proof.
  assert (E : outcome_machine
                (System.solve (solver := diagonal_solver) (Scenario.with_maxiter 3)
                   Run.one_dof)
              = Some (Run.solved (Scenario.with_maxiter 3) Run.one_dof))
    by (vm_compute; reflexivity).
  split; [exact E|].
  exact (@solve_trace diagonal_solver _ _ _ E).
Defined.

(** The triangle alone: two free DoFs around the fixed one. *)
Definition fixed_middle : System.Machine :=
  Scenario.machine (sorter := merge_sort) Scenario.middle_fixed [Scenario.triangle].

Lemma fixed_dofs_keep_delta_witness :
  constructed (sorter := merge_sort) Scenario.junk Scenario.middle_fixed
    [Scenario.triangle] no_options fixed_middle /\
  operations (solver := diagonal_solver) fixed_middle fixed_middle /\
  outcome_machine
    (System.solve (solver := diagonal_solver) (Scenario.with_maxiter 1) fixed_middle)
  = Some (Run.solved (Scenario.with_maxiter 1) fixed_middle) /\
  isfixed (System.dofstore fixed_middle) 2 = true /\
  delta (System.dofstore (Run.solved (Scenario.with_maxiter 1) fixed_middle)) 2
  = delta (System.dofstore fixed_middle) 2.
Proof.
  assert (E : outcome_machine
                (System.solve (solver := diagonal_solver) (Scenario.with_maxiter 1)
                   fixed_middle)
              = Some (Run.solved (Scenario.with_maxiter 1) fixed_middle))
    by (vm_compute; reflexivity).
  split; [apply scenario_constructed|]. split; [apply ops_none|].
  split; [exact E|]. split; [reflexivity|].
  exact (@fixed_dofs_keep_delta merge_sort diagonal_solver _ _ _ _ _ _ _ _ 2
           (scenario_constructed Scenario.middle_fixed [Scenario.triangle])
           (ops_none fixed_middle) E eq_refl).
Defined.

Lemma target_setup_witness :
  length (System.m_target (System.system fixed_middle))
  = System.nb_free_dofs (System.system fixed_middle) /\
  outcome_machine
    (System.solve (solver := diagonal_solver) (Scenario.with_maxiter 1) fixed_middle)
  = Some (Run.solved (Scenario.with_maxiter 1) fixed_middle) /\
  System.m_target (System.system (Run.solved (Scenario.with_maxiter 1) fixed_middle))
  = map (fun i =>
           let t := target (System.dofstore fixed_middle)
                      (nth i (System.m_dofs (System.system fixed_middle)) 0) in
           if Qeq_bool (lambda_of (Scenario.with_maxiter 1)) 1 then t
           else (t * lambda_of (Scenario.with_maxiter 1))%Q)
        (seq 0 (System.nb_free_dofs (System.system fixed_middle))).
Proof.
  assert (L : length (System.m_target (System.system fixed_middle))
              = System.nb_free_dofs (System.system fixed_middle))
    by (vm_compute; reflexivity).
  assert (E : outcome_machine
                (System.solve (solver := diagonal_solver) (Scenario.with_maxiter 1)
                   fixed_middle)
              = Some (Run.solved (Scenario.with_maxiter 1) fixed_middle))
    by (vm_compute; reflexivity).
  split; [exact L|]. split; [exact E|].
  exact (@target_setup diagonal_solver _ _ _ L E).
Defined.

Lemma residuals_written_back_witness :
  constructed (sorter := merge_sort) Scenario.junk Scenario.all_free
    [Scenario.linear_element] no_options Run.one_dof /\
  operations (solver := diagonal_solver) Run.one_dof Run.one_dof /\
  System.solve (solver := diagonal_solver) (Scenario.with_maxiter 3) Run.one_dof
    = Returned (Run.solved (Scenario.with_maxiter 3) Run.one_dof) /\
  forall i,
    i < System.nb_free_dofs
          (System.system (Run.solved (Scenario.with_maxiter 3) Run.one_dof)) ->
    residual (System.dofstore (Run.solved (Scenario.with_maxiter 3) Run.one_dof))
      (nth i (System.m_dofs
                (System.system (Run.solved (Scenario.with_maxiter 3) Run.one_dof))) 0)
    = vec_get (System.m_residual
                 (System.system (Run.solved (Scenario.with_maxiter 3) Run.one_dof))) i.
Proof.
  assert (E : System.solve (solver := diagonal_solver) (Scenario.with_maxiter 3)
                Run.one_dof
              = Returned (Run.solved (Scenario.with_maxiter 3) Run.one_dof))
    by (vm_compute; reflexivity).
  split; [apply scenario_constructed|]. split; [apply ops_none|]. split; [exact E|].
  exact (@residuals_written_back merge_sort diagonal_solver _ _ _ _ _ _ _ _
           (scenario_constructed Scenario.all_free [Scenario.linear_element])
           (ops_none Run.one_dof) E).
Defined.

Lemma uninitialised_residuals_witness :
  constructed (sorter := merge_sort) Scenario.junk Scenario.all_free
    [Scenario.linear_element] no_options Run.one_dof /\
  (maxiter_of (Scenario.with_maxiter 0) <= 0)%Z /\
  exists m',
    System.solve (solver := diagonal_solver) (Scenario.with_maxiter 0) Run.one_dof
      = Returned m' /\
    forall i, i < System.nb_free_dofs (System.system m') ->
      residual (System.dofstore m') (nth i (System.m_dofs (System.system m')) 0)
      = System.junk_vector Scenario.junk 3 i.
Proof.
  assert (H : (maxiter_of (Scenario.with_maxiter 0) <= 0)%Z) by (vm_compute; discriminate).
  split; [apply scenario_constructed|]. split; [exact H|].
  exact (@uninitialised_residuals merge_sort diagonal_solver _ _ _ _ _
           (Scenario.with_maxiter 0)
           (scenario_constructed Scenario.all_free [Scenario.linear_element]) H).
Defined.

Lemma compute_parallel_adds_witness :
  constructed (sorter := merge_sort) Scenario.junk Scenario.middle_fixed
    [Scenario.triangle; Scenario.bar] no_options Run.mixed /\
  operations (solver := diagonal_solver) Run.mixed Run.mixed /\
  Permutation [1; 0] (seq 0 (length (System.m_elements (System.system Run.mixed)))) /\
  System.m_rhs (fst (System.compute_parallel [1; 0] no_options
                       (System.dofstore Run.mixed) (System.system Run.mixed)))
  = vec_add (System.m_rhs (System.system Run.mixed))
      (System.m_rhs (fst (System.compute no_options (System.dofstore Run.mixed)
                            (System.system Run.mixed)))).
Proof.
  assert (P : Permutation [1; 0]
                (seq 0 (length (System.m_elements (System.system Run.mixed)))))
    by (vm_compute; apply perm_swap).
  split; [apply scenario_constructed|]. split; [apply ops_none|]. split; [exact P|].
  exact (proj2 (proj2
    (@compute_parallel_adds merge_sort diagonal_solver _ _ _ _ _ _ [1; 0] no_options
       (scenario_constructed Scenario.middle_fixed [Scenario.triangle; Scenario.bar])
       (ops_none Run.mixed) P))).
Defined.

Lemma compute_parallel_from_zero_witness :
  constructed (sorter := merge_sort) zero_junk Scenario.middle_fixed
    [Scenario.triangle; Scenario.bar] no_options zero_mixed /\
  operations (solver := diagonal_solver) zero_mixed zero_mixed /\
  Permutation [1; 0] (seq 0 (length (System.m_elements (System.system zero_mixed)))) /\
  Forall (fun v => v = 0%Q) (valuePtr (System.m_lhs (System.system zero_mixed))) /\
  Forall (fun v => v = 0%Q) (System.m_rhs (System.system zero_mixed)) /\
  System.m_rhs (fst (System.compute_parallel [1; 0] no_options
                       (System.dofstore zero_mixed) (System.system zero_mixed)))
  = System.m_rhs (fst (System.compute no_options (System.dofstore zero_mixed)
                         (System.system zero_mixed))).
Proof.
  assert (P : Permutation [1; 0]
                (seq 0 (length (System.m_elements (System.system zero_mixed)))))
    by (vm_compute; apply perm_swap).
  assert (Zl : Forall (fun v => v = 0%Q)
                 (valuePtr (System.m_lhs (System.system zero_mixed))))
    by (vm_compute; repeat constructor).
  assert (Zr : Forall (fun v => v = 0%Q) (System.m_rhs (System.system zero_mixed)))
    by (vm_compute; repeat constructor).
  split; [exact zero_mixed_constructed|]. split; [apply ops_none|].
  split; [exact P|]. split; [exact Zl|]. split; [exact Zr|].
  exact (proj2
    (@compute_parallel_from_zero merge_sort diagonal_solver _ _ _ _ _ _ [1; 0] no_options
       zero_mixed_constructed (ops_none zero_mixed) P Zl Zr)).
Defined.


Lemma compute_sums_witness :
  constructed (sorter := merge_sort) Scenario.junk Scenario.middle_fixed
    [Scenario.triangle; Scenario.bar] no_options Run.mixed /\
  operations (solver := diagonal_solver) Run.mixed Run.mixed /\
  forall g, g < System.nb_free_dofs (System.system Run.mixed) ->
    vec_get (System.m_rhs (fst (System.compute no_options (System.dofstore Run.mixed)
                                  (System.system Run.mixed)))) g
    = sumQ 0 (flat_map (fun i =>
                rhs_terms (System.nb_free_dofs (System.system Run.mixed))
                  (nth i (System.m_index_table (System.system Run.mixed)) [])
                  (snd (Element.compute
                          (nth i (System.m_elements (System.system Run.mixed))
                             Element.null)
                          no_options (System.dofstore Run.mixed))) g)
                (seq 0 (length (System.m_elements (System.system Run.mixed))))).
Proof.
  split; [apply scenario_constructed|]. split; [apply ops_none|].
  exact (proj1
    (@compute_sums merge_sort diagonal_solver _ _ _ _ _ _ no_options
       (scenario_constructed Scenario.middle_fixed [Scenario.triangle; Scenario.bar])
       (ops_none Run.mixed))).
Defined.

(* ================================================================== *)
(** * Node.h and Point: the named variables *)

(** A [Pointer<Variable>] is an address or the null pointer. *)
Definition Pointer := option nat.

(** [std::unordered_map<std::string, Pointer<Variable>>], its keys unique. *)
Definition VariableMap := list (string * Pointer).

(** [m.find(name)]: the entry of [name], if there is one. *)
Definition variables_find (name : string) (m : VariableMap) : option Pointer :=
  option_map snd (find (fun kv => String.eqb (fst kv) name) m).

(** [m[name]]: the entry of [name]; a missing one is first made, holding
    the default [Pointer], which is null. *)
Definition variables_index (name : string) (m : VariableMap) : Pointer * VariableMap :=
  match variables_find name m with
  | Some p => (p, m)
  | None => (None, m ++ [(name, None)])
  end.

Module Node.

Record t := {
  m_ref_x : Pointer;
  m_ref_y : Pointer;
  m_ref_z : Pointer;
  m_act_x : Pointer;
  m_act_y : Pointer;
  m_act_z : Pointer;
  m_variables : VariableMap
}.

Definition set_m_variables (vars : VariableMap) (n : t) : t :=
  {| m_ref_x := m_ref_x n; m_ref_y := m_ref_y n; m_ref_z := m_ref_z n;
     m_act_x := m_act_x n; m_act_y := m_act_y n; m_act_z := m_act_z n;
     m_variables := vars |}.

Definition ref_x (n : t) : Pointer := m_ref_x n.
Definition ref_y (n : t) : Pointer := m_ref_y n.
Definition ref_z (n : t) : Pointer := m_ref_z n.
Definition x (n : t) : Pointer := m_act_x n.
Definition y (n : t) : Pointer := m_act_y n.
Definition z (n : t) : Pointer := m_act_z n.

(** [variable(name)]: the pointer, and the node as the call leaves it. *)
Definition variable (name : string) (n : t) : Pointer * t :=
  if String.eqb name "x" then (m_act_x n, n)
  else if String.eqb name "y" then (m_act_y n, n)
  else if String.eqb name "z" then (m_act_z n, n)
  else if String.eqb name "ref_x" then (m_ref_x n, n)
  else if String.eqb name "ref_y" then (m_ref_y n, n)
  else if String.eqb name "ref_z" then (m_ref_z n, n)
  else
    let r := variables_index name (m_variables n) in
    (fst r, set_m_variables (snd r) n).

Definition has_variable (name : string) (n : t) : bool :=
  match variables_find name (m_variables n) with
  | Some _ => true
  | None => false
  end.

End Node.

Module Point.

Record t := {
  m_x : Pointer;
  m_y : Pointer;
  m_z : Pointer;
  m_parameters : VariableMap
}.


Definition x (p : t) : Pointer := m_x p.
Definition y (p : t) : Pointer := m_y p.
Definition z (p : t) : Pointer := m_z p.



End Point.

Lemma variables_find_app (name : string) (m m' : VariableMap) :
  variables_find name (m ++ m') =
  match variables_find name m with
  | Some p => Some p
  | None => variables_find name m'
  end.
Proof.
  unfold variables_find. induction m as [|[k p] m IH]; [reflexivity|].
  cbn [app find fst]. destruct (String.eqb k name); [reflexivity | exact IH].
Qed.

(** What [m[name]] does to the map: [name] has an entry afterwards, the
    entry it had or else null, and every other name is as it was. *)
Lemma variables_index_spec (name : string) (m : VariableMap) :
  variables_find name (snd (variables_index name m)) = Some (fst (variables_index name m)) /\
  (variables_find name m = None -> fst (variables_index name m) = None) /\
  (forall p, variables_find name m = Some p ->
             variables_index name m = (p, m)) /\
  (forall other, other <> name ->
     variables_find other (snd (variables_index name m)) = variables_find other m).
Proof.
  unfold variables_index. destruct (variables_find name m) as [p|] eqn:E; cbn [fst snd].
  - repeat split; try assumption; try discriminate.
    intros q Hq. injection Hq as <-. reflexivity.
  - repeat split; try discriminate.
    + rewrite variables_find_app, E. unfold variables_find. cbn [find fst].
      rewrite String.eqb_refl. reflexivity.
    + intros other Hne. rewrite variables_find_app.
      destruct (variables_find other m); [reflexivity|].
      unfold variables_find. cbn [find fst].
      destruct (String.eqb_spec name other); [congruence | reflexivity].
Qed.

(** The names that [variable] answers from the six coordinates. *)
Definition coordinate_names : list string :=
  ["x"; "y"; "z"; "ref_x"; "ref_y"; "ref_z"]%string.

Lemma node_variable_cases (name : string) (n : Node.t) :
  (In name coordinate_names /\ snd (Node.variable name n) = n) \/
  (~ In name coordinate_names /\
   Node.variable name n =
   (fst (variables_index name (Node.m_variables n)),
    Node.set_m_variables (snd (variables_index name (Node.m_variables n))) n)).
Proof.
  unfold Node.variable, coordinate_names.
  repeat match goal with
         | |- context [String.eqb name ?k] =>
             destruct (String.eqb_spec name k);
             [left; split; [subst name; simpl; tauto | reflexivity]|]
         end.
  right. split; [|reflexivity]. simpl. intros H.
  repeat match type of H with
         | _ \/ _ => destruct H as [H|H]; [symmetry in H; contradiction|]
         end.
  exact H.
Qed.


(** X19.  Looking up any other name registers it: the node has the name
    afterwards, with the pointer it had or else a null pointer; asking again
    gives the same pointer and changes nothing more; no other name is
    registered or lost, and the six coordinates stay. *)
Theorem node_variable_registers (name : string) (n : Node.t) :
  ~ In name coordinate_names ->
  let r := Node.variable name n in
  Node.has_variable name (snd r) = true /\
  (Node.has_variable name n = false -> fst r = None) /\
  Node.variable name (snd r) = r /\
  (forall other, other <> name ->
     Node.has_variable other (snd r) = Node.has_variable other n) /\
  (Node.ref_x (snd r), Node.ref_y (snd r), Node.ref_z (snd r),
   Node.x (snd r), Node.y (snd r), Node.z (snd r))
  = (Node.ref_x n, Node.ref_y n, Node.ref_z n, Node.x n, Node.y n, Node.z n).
Proof.
  intros H r. destruct (node_variable_cases name n) as [[C _]|[_ C]]; [contradiction|].
  destruct (variables_index_spec name (Node.m_variables n)) as (F1 & F2 & F3 & F4).
  subst r. rewrite C. cbn [fst snd]. split; [|split; [|split; [|split]]].
  - unfold Node.has_variable. cbn [Node.set_m_variables Node.m_variables].
    rewrite F1. reflexivity.
  - unfold Node.has_variable. intros Hn.
    destruct (variables_find name (Node.m_variables n)) eqn:E; [discriminate|].
    apply F2. reflexivity.
  - destruct (node_variable_cases name
                (Node.set_m_variables (snd (variables_index name (Node.m_variables n))) n))
      as [[C2 _]|[_ C2]]; [contradiction|].
    rewrite C2. cbn [Node.set_m_variables Node.m_variables].
    destruct (variables_index_spec name (snd (variables_index name (Node.m_variables n))))
      as (_ & _ & G3 & _).
    rewrite (G3 _ F1). reflexivity.
  - intros other Hne. unfold Node.has_variable.
    cbn [Node.set_m_variables Node.m_variables]. rewrite (F4 other Hne). reflexivity.
  - reflexivity.
Qed.



Module Names.

(** A node at three addresses twice over, with one named variable. *)
Definition node : Node.t :=
  {| Node.m_ref_x := Some 0; Node.m_ref_y := Some 1; Node.m_ref_z := Some 2;
     Node.m_act_x := Some 3; Node.m_act_y := Some 4; Node.m_act_z := Some 5;
     Node.m_variables := [("t"%string, Some 6)] |}.


End Names.


Lemma node_variable_registers_witness :
  ~ In "u"%string coordinate_names /\
  Node.has_variable "u" Names.node = false /\
  fst (Node.variable "u" Names.node) = None /\
  Node.has_variable "u" (snd (Node.variable "u" Names.node)) = true.
Proof.
  assert (H : ~ In "u"%string coordinate_names).
  { simpl. intros K.
    repeat match type of K with
           | _ \/ _ => destruct K as [K|K]; [discriminate|]
           end.
    exact K. }
  split; [exact H|]. split; [reflexivity|].
  destruct (@node_variable_registers "u" Names.node H) as (H1 & H2 & _).
  split; [exact (H2 eq_refl) | exact H1].
Defined.

